(** * YARA highlighter: the scanner of [yaraLanguage.ts]

    [highlightYara] runs twelve regular expressions over the whole
    document, pools the matches as prioritised candidates, sorts them by
    (start, priority), keeps the candidates that overlap nothing kept
    before, and hands the survivors to a [RangeSetBuilder].

    The document is a JavaScript string, that is a sequence of UTF-16 code
    units; none of the patterns carries the [u] or [i] flag, so matching is
    per code unit.  The regular expressions are kept as syntax trees and
    run by a backtracking matcher that follows the ECMAScript semantics
    (priority-ordered alternatives, greedy and lazy quantifiers, the
    empty-iteration check, capture groups, assertions). *)

From Stdlib Require Import Ascii String.
From Stdlib Require Import List Arith NArith ZArith Bool Lia.
From Stdlib Require Import Permutation Sorted.
Import ListNotations.

Set Implicit Arguments.

(** ** JavaScript strings *)

Definition CodeUnit := N.
Definition Text := list CodeUnit.

Definition cu (a : ascii) : CodeUnit := N_of_ascii a.

Fixpoint text_of (s : string) : Text :=
  match s with
  | EmptyString => []
  | String a s' => cu a :: text_of s'
  end.

(** [s.substring(from, to)] for [from <= to]. *)
Definition substring (s : Text) (from to : nat) : Text :=
  firstn (to - from) (skipn from s).

(** ** Regular expressions *)

Module RegExp.

(** Members of a character class: a literal, a range, or a class escape. *)
Inductive ClassAtom : Type :=
| One (c : CodeUnit)
| Range (lo hi : CodeUnit)
| Digit
| WordChar
| Space
| NotSpace.

Inductive CharSet : Type :=
| Dot
| Class (negated : bool) (items : list ClassAtom).

Inductive Regex : Type :=
| Empty
| Chars (cs : CharSet)
| Seq (r1 r2 : Regex)
| Alt (r1 r2 : Regex)
| Quant (min : nat) (max : option nat) (greedy : bool) (r : Regex)
| Group (k : nat) (r : Regex)
| LineStart
| LineEnd
| WordBoundary
| NotAhead (r : Regex)
| NotBehind (r : Regex).

Definition isLineTerminator (c : CodeUnit) : bool :=
  ((c =? 10) || (c =? 13) || (c =? 8232) || (c =? 8233))%N.

Definition isDigit (c : CodeUnit) : bool := ((48 <=? c) && (c <=? 57))%N.

Definition isWordChar (c : CodeUnit) : bool :=
  (((97 <=? c) && (c <=? 122)) || ((65 <=? c) && (c <=? 90))
   || ((48 <=? c) && (c <=? 57)) || (c =? 95))%N.

(** WhiteSpace and LineTerminator code points, the set behind [\s]. *)
Definition isSpace (c : CodeUnit) : bool :=
  (((9 <=? c) && (c <=? 13)) || (c =? 32) || (c =? 160) || (c =? 5760)
   || ((8192 <=? c) && (c <=? 8202)) || (c =? 8232) || (c =? 8233)
   || (c =? 8239) || (c =? 8287) || (c =? 12288) || (c =? 65279))%N.

Definition atom_has (a : ClassAtom) (c : CodeUnit) : bool :=
  match a with
  | One d => (c =? d)%N
  | Range lo hi => ((lo <=? c) && (c <=? hi))%N
  | Digit => isDigit c
  | WordChar => isWordChar c
  | Space => isSpace c
  | NotSpace => negb (isSpace c)
  end.

Definition set_has (cs : CharSet) (c : CodeUnit) : bool :=
  match cs with
  | Dot => negb (isLineTerminator c)
  | Class negated items => xorb negated (existsb (fun a => atom_has a c) items)
  end.

(** The matcher's state: where the match has got to, and what the capture
    groups hold (group number, start, end). *)
Record MatchState : Type := mkState {
  endIndex : nat;
  captures : list (nat * (nat * nat))
}.

Definition move (x : MatchState) (e : nat) : MatchState :=
  mkState e (captures x).

Fixpoint capture (k : nat) (caps : list (nat * (nat * nat))) : option (nat * nat) :=
  match caps with
  | [] => None
  | (j, se) :: rest => if j =? k then Some se else capture k rest
  end.

Definition set_capture (k : nat) (se : nat * nat) (y : MatchState) : MatchState :=
  mkState (endIndex y) ((k, se) :: captures y).

Definition clear_captures (ks : list nat) (x : MatchState) : MatchState :=
  mkState (endIndex x)
          (filter (fun p => negb (existsb (Nat.eqb (fst p)) ks)) (captures x)).

Fixpoint group_ids (r : Regex) : list nat :=
  match r with
  | Empty | Chars _ | LineStart | LineEnd | WordBoundary => []
  | Seq r1 r2 | Alt r1 r2 => group_ids r1 ++ group_ids r2
  | Quant _ _ _ r' | NotAhead r' | NotBehind r' => group_ids r'
  | Group k r' => k :: group_ids r'
  end.

(** RepeatMatcher.  [m] matches one iteration; the result lists every way
    to go on, best first.  An iteration that is not required and consumes
    nothing is refused; the captures of the repeated term are reset before
    each iteration.  [max] counts the iterations still allowed. *)
Fixpoint repeat_matcher (m : MatchState -> list MatchState) (inner : list nat)
         (greedy : bool) (max min : nat) (x : MatchState) : list MatchState :=
  match max with
  | 0 => [x]
  | S max' =>
      let again :=
        flat_map (fun y =>
                    if (min =? 0) && (endIndex y =? endIndex x) then []
                    else repeat_matcher m inner greedy max' (pred min) y)
                 (m (clear_captures inner x)) in
      if negb (min =? 0) then again
      else if greedy then again ++ [x]
      else x :: again
  end.

Section Matcher.

Variable input : Text.
Variable multiline : bool.

Definition is_word_at (i : nat) : bool :=
  match nth_error input i with
  | Some c => isWordChar c
  | None => false
  end.

Definition is_word_before (e : nat) : bool :=
  match e with
  | 0 => false
  | S e' => is_word_at e'
  end.

Definition at_line_start (e : nat) : bool :=
  match e with
  | 0 => true
  | S e' =>
      multiline &&
      match nth_error input e' with
      | Some c => isLineTerminator c
      | None => false
      end
  end.

Definition at_line_end (e : nat) : bool :=
  (e =? length input) ||
  (multiline &&
   match nth_error input e with
   | Some c => isLineTerminator c
   | None => false
   end).

(** An unbounded quantifier never runs more than [min + |input| + 1]
    iterations: every iteration past the required ones consumes a code
    unit (see [repeat_matcher_enough]). *)
Definition iterations (min : nat) (max : option nat) : nat :=
  match max with
  | Some n => n
  | None => min + length input + 1
  end.

(** [matcher r forward x]: every way [r] matches from state [x], in the
    order backtracking tries them.  [forward = false] is the direction
    used inside a lookbehind. *)
Fixpoint matcher (r : Regex) (forward : bool) (x : MatchState) : list MatchState :=
  match r with
  | Empty => [x]
  | Chars cs =>
      let e := endIndex x in
      if forward then
        match nth_error input e with
        | Some c => if set_has cs c then [move x (S e)] else []
        | None => []
        end
      else
        match e with
        | 0 => []
        | S e' =>
            match nth_error input e' with
            | Some c => if set_has cs c then [move x e'] else []
            | None => []
            end
        end
  | Seq r1 r2 =>
      if forward then flat_map (matcher r2 forward) (matcher r1 forward x)
      else flat_map (matcher r1 forward) (matcher r2 forward x)
  | Alt r1 r2 => matcher r1 forward x ++ matcher r2 forward x
  | Quant min max greedy r' =>
      repeat_matcher (matcher r' forward) (group_ids r') greedy
                     (iterations min max) min x
  | Group k r' =>
      map (fun y => set_capture k
                      (if forward then (endIndex x, endIndex y)
                       else (endIndex y, endIndex x)) y)
          (matcher r' forward x)
  | LineStart => if at_line_start (endIndex x) then [x] else []
  | LineEnd => if at_line_end (endIndex x) then [x] else []
  | WordBoundary =>
      if xorb (is_word_before (endIndex x)) (is_word_at (endIndex x))
      then [x] else []
  | NotAhead r' =>
      match matcher r' true x with
      | [] => [x]
      | _ :: _ => []
      end
  | NotBehind r' =>
      match matcher r' false x with
      | [] => [x]
      | _ :: _ => []
      end
  end.

(** The scan of RegExpBuiltinExec: try [i], [i+1], ... up to the end of the
    input ([n] positions are left) and stop at the first position where the
    pattern matches. *)
Fixpoint search (r : Regex) (n i : nat) : option (nat * MatchState) :=
  match n with
  | 0 => None
  | S n' =>
      match matcher r true (mkState i []) with
      | y :: _ => Some (i, y)
      | [] => search r n' (S i)
      end
  end.

End Matcher.

(** A RegExp object with the [g] flag: the pattern, the [m] flag and the
    mutable [lastIndex]. *)
Record RegExp : Type := mkRegExp {
  source : Regex;
  multilineFlag : bool;
  lastIndex : nat
}.

(** What [exec] returns when it is not [null]: [index], the matched text
    [match[0]] and the capture groups [match[k]] ([None] is [undefined]). *)
Record Match : Type := mkMatch {
  index : nat;
  whole : Text;
  sub : nat -> option Text
}.

(** [re.exec(text)]: the result and the regular expression with its
    [lastIndex] updated (to the end of the match, or to 0 on [null]). *)
Definition exec (re : RegExp) (text : Text) : option Match * RegExp :=
  let reset := mkRegExp (source re) (multilineFlag re) 0 in
  if length text <? lastIndex re then (None, reset)
  else
    match search text (multilineFlag re) (source re)
                 (S (length text) - lastIndex re) (lastIndex re) with
    | None => (None, reset)
    | Some (i, y) =>
        (Some (mkMatch i (substring text i (endIndex y))
                       (fun k => match capture k (captures y) with
                                 | Some (s, e) => Some (substring text s e)
                                 | None => None
                                 end)),
         mkRegExp (source re) (multilineFlag re) (endIndex y))
    end.

(** Helpers to write patterns. *)
Definition lit (a : ascii) : Regex := Chars (Class false [One (cu a)]).

Fixpoint word (s : string) : Regex :=
  match s with
  | EmptyString => Empty
  | String a EmptyString => lit a
  | String a s' => Seq (lit a) (word s')
  end.

Fixpoint any_of (rs : list Regex) : Regex :=
  match rs with
  | [] => Empty
  | [r] => r
  | r :: rs' => Alt r (any_of rs')
  end.

Definition star (r : Regex) : Regex := Quant 0 None true r.
Definition plus (r : Regex) : Regex := Quant 1 None true r.
Definition opt (r : Regex) : Regex := Quant 0 (Some 1) true r.
Definition lazy_star (r : Regex) : Regex := Quant 0 None false r.
Definition rng (a b : ascii) : ClassAtom := Range (cu a) (cu b).
Definition chr (a : ascii) : ClassAtom := One (cu a).

End RegExp.

(** ** The highlighter *)

Import RegExp.

(** The mark decorations [Decoration.mark({ class: ... })]. *)
Inductive Decoration : Type :=
| keywordDecoration    (* cm-keyword *)
| stringDecoration     (* cm-string *)
| commentDecoration    (* cm-comment *)
| numberDecoration     (* cm-number *)
| metaDecoration       (* cm-meta *)
| variableDecoration   (* cm-variableName *)
| ruleNameDecoration   (* cm-def *)
| operatorDecoration   (* cm-operator *)
| atomDecoration.      (* cm-atom *)

(** An element of [matches]. *)
Record Candidate : Type := mkCandidate {
  start : nat;
  end_ : nat;
  decoration : Decoration;
  priority : nat
}.

(** An element of [filteredMatches]: the priority is dropped. *)
Record Filtered : Type := mkFiltered {
  f_start : nat;
  f_end : nat;
  f_decoration : Decoration
}.

(** A range of the finished [DecorationSet]. *)
Record Span : Type := mkSpan {
  from : nat;
  to : nat;
  value : Decoration
}.

Definition DecorationSet := list Span.

(** How a call ends: with a value, with an exception, or not at all within
    the steps allowed. *)
Inductive result (A : Type) : Type :=
| Val (a : A)
| Throws
| OutOfFuel.

Arguments Throws {A}.
Arguments OutOfFuel {A}.

Definition bind {A B : Type} (r : result A) (k : A -> result B) : result B :=
  match r with
  | Val a => k a
  | Throws => Throws
  | OutOfFuel => OutOfFuel
  end.

Notation "x <- e ;; k" := (bind e (fun x => k))
  (at level 61, e at next level, right associativity).

(** [t.length] where [t] may be [undefined]. *)
Definition length_of (t : option Text) : result nat :=
  match t with
  | Some s => Val (length s)
  | None => Throws
  end.

(** *** The patterns *)

Definition cat (rs : list Regex) : Regex :=
  fold_right (fun r acc => match acc with Empty => r | _ => Seq r acc end) Empty rs.

Definition esc (a : ClassAtom) : Regex := Chars (Class false [a]).

(** [/\/\*[\s\S]*?\*\//g] *)
Definition multiCommentRegex : RegExp :=
  mkRegExp (cat [lit "/"; lit "*";
                 lazy_star (Chars (Class false [Space; NotSpace]));
                 lit "*"; lit "/"])
           false 0.

(** [/\/\/.*$/gm] *)
Definition singleCommentRegex : RegExp :=
  mkRegExp (cat [lit "/"; lit "/"; star (Chars Dot); LineEnd]) true 0.

(** [/Q(?:[^\\Q]|\\.)*?(?:Q|$)/g], with Q standing for the double quote
    (code unit 34). *)
Definition stringRegex : RegExp :=
  mkRegExp (cat [lit "034";
                 lazy_star (Alt (Chars (Class true [chr "\"; chr "034"]))
                                (Seq (lit "\") (Chars Dot)));
                 Alt (lit "034") LineEnd])
           false 0.

(** [/\b(rule)(\s+)([a-zA-Z_]\w{0,127})\s*\{/g] *)
Definition ruleDeclarationRegex : RegExp :=
  mkRegExp (cat [WordBoundary;
                 Group 1 (word "rule");
                 Group 2 (plus (esc Space));
                 Group 3 (Seq (Chars (Class false [rng "a" "z"; rng "A" "Z"; chr "_"]))
                              (Quant 0 (Some 127) true (esc WordChar)));
                 star (esc Space);
                 lit "{"])
           false 0.

(** [/\$\w*/g] *)
Definition variableRegex : RegExp :=
  mkRegExp (cat [lit "$"; star (esc WordChar)]) false 0.

(** [/^#.*$/gm] *)
Definition metaRegex : RegExp :=
  mkRegExp (cat [LineStart; lit "#"; star (Chars Dot); LineEnd]) true 0.

(** [/\b0x[a-fA-F\d]+\b/g] *)
Definition hexNumberRegex : RegExp :=
  mkRegExp (cat [WordBoundary; lit "0"; lit "x";
                 plus (Chars (Class false [rng "a" "f"; rng "A" "F"; Digit]));
                 WordBoundary])
           false 0.

(** [/\b(?:\.\d+|\d+\.?\d* )\b/g] (the source has no blank before the
    closing parenthesis). *)
Definition decimalRegex : RegExp :=
  mkRegExp (cat [WordBoundary;
                 Alt (Seq (lit ".") (plus (esc Digit)))
                     (cat [plus (esc Digit); opt (lit "."); star (esc Digit)]);
                 WordBoundary])
           false 0.

(** [/(?<![.\w])([a-fA-F\d?]{2})+(?![.\w])/g] *)
Definition hexPatternRegex : RegExp :=
  mkRegExp (cat [NotBehind (Chars (Class false [chr "."; WordChar]));
                 plus (Group 1 (Quant 2 (Some 2) true
                                  (Chars (Class false [rng "a" "f"; rng "A" "F";
                                                       Digit; chr "?"]))));
                 NotAhead (Chars (Class false [chr "."; WordChar]))])
           false 0.

(** [/\b(true|false)\b/g] *)
Definition atomRegex : RegExp :=
  mkRegExp (cat [WordBoundary;
                 Group 1 (Alt (word "true") (word "false"));
                 WordBoundary])
           false 0.

(** [/[-+\/*=<>:]+/g] *)
Definition operatorRegex : RegExp :=
  mkRegExp (plus (Chars (Class false [chr "-"; chr "+"; chr "/"; chr "*";
                                      chr "="; chr "<"; chr ">"; chr ":"])))
           false 0.

Definition keywords : list string :=
  ["all"; "and"; "any"; "ascii"; "at"; "base64"; "base64wide"; "condition";
   "contains"; "endswith"; "entrypoint"; "filesize"; "for"; "fullword";
   "global"; "icontains"; "iendswith"; "import"; "in"; "include"; "int8";
   "int16"; "int32"; "int8be"; "int16be"; "int32be"; "istartswith";
   "matches"; "meta"; "nocase"; "not"; "of"; "or"; "private"; "rule";
   "startswith"; "strings"; "them"; "uint8"; "uint16"; "uint32"; "uint8be";
   "uint16be"; "uint32be"; "wide"; "xor"]%string.

(** [/\b(all|and|...|xor)\b/g] *)
Definition keywordRegex : RegExp :=
  mkRegExp (cat [WordBoundary; Group 1 (any_of (map word keywords)); WordBoundary])
           false 0.

(** *** The match loops *)

(** [while ((match = re.exec(text)) !== null) { matches.push(...) }]:
    [body] gives what one round pushes. *)
Fixpoint while_exec (fuel : nat) (re : RegExp) (text : Text)
         (body : Match -> result (list Candidate))
         (matches : list Candidate) : result (list Candidate) :=
  match fuel with
  | 0 => OutOfFuel
  | S fuel' =>
      match exec re text with
      | (None, _) => Val matches
      | (Some m, re') =>
          pushed <- body m ;;
          while_exec fuel' re' text body (matches ++ pushed)
      end
  end.

(** The body shared by all loops but the rule declaration's. *)
Definition push_match (d : Decoration) (p : nat) (m : Match)
  : result (list Candidate) :=
  Val [mkCandidate (index m) (index m + length (whole m)) d p].

(** The body of the rule declaration loop: the keyword, then the name. *)
Definition push_rule (m : Match) : result (list Candidate) :=
  len1 <- length_of (sub m 1) ;;
  len2 <- length_of (sub m 2) ;;
  len3 <- length_of (sub m 3) ;;
  let ruleNameStart := index m + len1 + len2 in
  Val [mkCandidate (index m) (index m + len1) keywordDecoration 3;
       mkCandidate ruleNameStart (ruleNameStart + len3) ruleNameDecoration 3].

(** The pool of candidates, in the order the loops push them. *)
Definition collect (fuel : nat) (text : Text) : result (list Candidate) :=
  m1 <- while_exec fuel multiCommentRegex text (push_match commentDecoration 1) [] ;;
  m2 <- while_exec fuel singleCommentRegex text (push_match commentDecoration 1) m1 ;;
  m3 <- while_exec fuel stringRegex text (push_match stringDecoration 2) m2 ;;
  m4 <- while_exec fuel ruleDeclarationRegex text push_rule m3 ;;
  m5 <- while_exec fuel variableRegex text (push_match variableDecoration 3) m4 ;;
  m6 <- while_exec fuel metaRegex text (push_match metaDecoration 4) m5 ;;
  m7 <- while_exec fuel hexNumberRegex text (push_match numberDecoration 5) m6 ;;
  m8 <- while_exec fuel decimalRegex text (push_match numberDecoration 5) m7 ;;
  m9 <- while_exec fuel hexPatternRegex text (push_match numberDecoration 5) m8 ;;
  m10 <- while_exec fuel atomRegex text (push_match atomDecoration 6) m9 ;;
  m11 <- while_exec fuel operatorRegex text (push_match operatorDecoration 7) m10 ;;
  while_exec fuel keywordRegex text (push_match keywordDecoration 8) m11.

(** *** Sorting *)

(** The comparator passed to [matches.sort]. *)
Definition compareFn (a b : Candidate) : Z :=
  if negb (start a =? start b)
  then (Z.of_nat (start a) - Z.of_nat (start b))%Z
  else (Z.of_nat (priority a) - Z.of_nat (priority b))%Z.

(** [Array.prototype.sort] is a stable sort: the elements that compare
    below [x] come first, and [x] stays ahead of its equals that followed
    it.  Insertion from the right computes that order. *)
Fixpoint insert (cmp : Candidate -> Candidate -> Z) (x : Candidate)
         (l : list Candidate) : list Candidate :=
  match l with
  | [] => [x]
  | y :: l' => if (cmp y x <? 0)%Z then y :: insert cmp x l' else x :: l
  end.

Fixpoint sort (cmp : Candidate -> Candidate -> Z) (l : list Candidate)
  : list Candidate :=
  match l with
  | [] => []
  | x :: l' => insert cmp x (sort cmp l')
  end.

(** *** Overlap resolution *)

(** [current.start < added.end && current.end > added.start] *)
Definition overlaps (current : Candidate) (added : Filtered) : bool :=
  (start current <? f_end added) && (f_start added <? end_ current).

(** One round of the [for] loop over [matches]. *)
Definition filter_step (filteredMatches : list Filtered) (current : Candidate)
  : list Filtered :=
  let shouldAdd := negb (existsb (overlaps current) filteredMatches) in
  if shouldAdd
  then filteredMatches ++
       [mkFiltered (start current) (end_ current) (decoration current)]
  else filteredMatches.

Definition filter_matches (matches : list Candidate) : list Filtered :=
  fold_left filter_step matches [].

(** *** Building the decoration set *)

(** [RangeSetBuilder]: the ranges added so far.  [add] refuses a range
    that starts before the one added last (CodeMirror throws
    ``Ranges must be added sorted by `from` position and `startSide` ''). *)
Definition RangeSetBuilder := list Span.

Definition add (builder : RangeSetBuilder) (from_ to_ : nat) (v : Decoration)
  : result RangeSetBuilder :=
  match last (map (fun s => Some (from s)) builder) None with
  | Some lastFrom =>
      if from_ <? lastFrom then Throws
      else Val (builder ++ [mkSpan from_ to_ v])
  | None => Val (builder ++ [mkSpan from_ to_ v])
  end.

Definition finish (builder : RangeSetBuilder) : DecorationSet := builder.

Fixpoint add_all (builder : RangeSetBuilder) (filteredMatches : list Filtered)
  : result RangeSetBuilder :=
  match filteredMatches with
  | [] => Val builder
  | m :: rest =>
      builder' <- add builder (f_start m) (f_end m) (f_decoration m) ;;
      add_all builder' rest
  end.

(** *** [highlightYara] *)

(** [fuel] bounds the rounds of each match loop. *)
Definition highlightYara_in (fuel : nat) (text : Text) : result DecorationSet :=
  matches <- collect fuel text ;;
  let matches := sort compareFn matches in
  let filteredMatches := filter_matches matches in
  builder <- add_all [] filteredMatches ;;
  Val (finish builder).

(** A match loop makes at most one round per code unit and a last one that
    gets [null] (see [while_exec_total]). *)
Definition highlightYara (text : Text) : result DecorationSet :=
  highlightYara_in (length text + 2) text.

(** *** The view plugin *)

Record ViewUpdate : Type := mkUpdate {
  docChanged : bool;
  viewportChanged : bool;
  view : Text
}.

Record yaraHighlighter : Type := mkPlugin {
  decorations : result DecorationSet
}.

Definition constructor (v : Text) : yaraHighlighter :=
  mkPlugin (highlightYara v).

Definition update (this : yaraHighlighter) (u : ViewUpdate) : yaraHighlighter :=
  if docChanged u || viewportChanged u
  then mkPlugin (highlightYara (view u))
  else this.

(** * Vocabulary of the statements *)

(** The least number of code units a match of [r] consumes. *)
Fixpoint min_length (r : Regex) : nat :=
  match r with
  | Chars _ => 1
  | Seq r1 r2 => min_length r1 + min_length r2
  | Alt r1 r2 => Nat.min (min_length r1) (min_length r2)
  | Quant min max _ r' =>
      match max with
      | Some n => Nat.min min n
      | None => min
      end * min_length r'
  | Group _ r' => min_length r'
  | Empty | LineStart | LineEnd | WordBoundary | NotAhead _ | NotBehind _ => 0
  end.

(** The match the pattern [r] has at position [i], if any: the first way
    the matcher finds. *)
Definition first_match (input : Text) (multiline : bool) (r : Regex) (i : nat)
  : option MatchState :=
  hd_error (matcher input multiline r true (mkState i [])).

(** The body of a match loop: what it pushes for one match. *)
Definition Body := Match -> result (list Candidate).

(** The patterns with the bodies of their loops, in source order. *)
Definition catalogue : list (RegExp * Body) :=
  [(multiCommentRegex, push_match commentDecoration 1);
   (singleCommentRegex, push_match commentDecoration 1);
   (stringRegex, push_match stringDecoration 2);
   (ruleDeclarationRegex, push_rule);
   (variableRegex, push_match variableDecoration 3);
   (metaRegex, push_match metaDecoration 4);
   (hexNumberRegex, push_match numberDecoration 5);
   (decimalRegex, push_match numberDecoration 5);
   (hexPatternRegex, push_match numberDecoration 5);
   (atomRegex, push_match atomDecoration 6);
   (operatorRegex, push_match operatorDecoration 7);
   (keywordRegex, push_match keywordDecoration 8)].

(** The loops one after the other, each pushing onto what the ones before
    have pushed. *)
Fixpoint run_all (fuel : nat) (text : Text) (ps : list (RegExp * Body))
         (matches : list Candidate) : result (list Candidate) :=
  match ps with
  | [] => Val matches
  | (re, body) :: ps' =>
      matches' <- while_exec fuel re text body matches ;;
      run_all fuel text ps' matches'
  end.

(** A pattern on its own: its loop started on an empty array. *)
Definition run_alone (fuel : nat) (text : Text) (p : RegExp * Body)
  : result (list Candidate) :=
  while_exec fuel (fst p) text (snd p) [].

(** A candidate that covers at least one code unit of the text. *)
Definition inside (text : Text) (c : Candidate) : Prop :=
  start c < end_ c /\ end_ c <= length text.

(** What makes a loop of the catalogue end: a fresh [lastIndex], a pattern
    that consumes something, a body that does not throw. *)
Definition sound_entry (text : Text) (P : Candidate -> Prop)
           (p : RegExp * Body) : Prop :=
  lastIndex (fst p) = 0 /\
  1 <= min_length (source (fst p)) /\
  forall i m re',
    exec (mkRegExp (source (fst p)) (multilineFlag (fst p)) i) text
    = (Some m, re') ->
    exists cs, snd p m = Val cs /\ Forall P cs.

(** The order the comparator describes: by start, then by priority. *)
Definition key_le (a b : Candidate) : Prop :=
  start a < start b \/ (start a = start b /\ priority a <= priority b).

(** [b] has the start and the priority of [a]. *)
Definition same_key (a b : Candidate) : bool :=
  (start b =? start a) && (priority b =? priority a).

(** What [filteredMatches.push] keeps of a candidate. *)
Definition pushed_of (c : Candidate) : Filtered :=
  mkFiltered (start c) (end_ c) (decoration c).

(** The candidates behind [filteredMatches]: the same loop, remembering
    which candidate each kept entry came from. *)
Definition keep_step (acc : list Candidate) (current : Candidate)
  : list Candidate :=
  if existsb (overlaps current) (map pushed_of acc) then acc
  else acc ++ [current].

(** The candidates kept by the walk over [matches]. *)
Definition kept (matches : list Candidate) : list Candidate :=
  fold_left keep_step matches [].

(** One kept candidate ends before a later one starts. *)
Definition precedes (a b : Candidate) : Prop :=
  start a <= start b /\ end_ a <= start b.

(** [start < end]. *)
Definition nonempty (c : Candidate) : Prop := start c < end_ c.

(** What [builder.add(match.start, match.end, match.decoration)] adds. *)
Definition span_of_filtered (m : Filtered) : Span :=
  mkSpan (f_start m) (f_end m) (f_decoration m).

(** The span a kept candidate ends up as. *)
Definition span_of (c : Candidate) : Span :=
  mkSpan (start c) (end_ c) (decoration c).

(** For all [i < j], span [i] ends no later than span [j] starts, and
    starts no later either. *)
Definition ordered (spans : list Span) : Prop :=
  forall i j a b,
    i < j -> nth_error spans i = Some a -> nth_error spans j = Some b ->
    to a <= from b /\ from a <= from b.

(** No two spans have the same range. *)
Definition distinct_ranges (spans : list Span) : Prop :=
  forall i j a b,
    i <> j -> nth_error spans i = Some a -> nth_error spans j = Some b ->
    ~ (from a = from b /\ to a = to b).

(** Every span covers at least one code unit of the text. *)
Definition within (text : Text) (spans : list Span) : Prop :=
  Forall (fun s => from s < to s /\ to s <= length text) spans.

(** [sorted] is the pool in (start, priority) order, with the candidates of
    equal start and priority in the order the pool had them. *)
Definition stable_sort_of (pool sorted : list Candidate) : Prop :=
  Permutation sorted pool /\
  StronglySorted key_le sorted /\
  forall c, filter (same_key c) sorted = filter (same_key c) pool.

(** The range of [c] stops where [a] starts, or starts where [a] stops. *)
Definition touches (c : Candidate) (a : Filtered) : Prop :=
  start c = f_end a \/ end_ c = f_start a.

(** One run of the scan, for any number of rounds that lets the match loops
    finish and any stable sort of the pool. *)
Definition scan_run (text : Text) (out : result DecorationSet) : Prop :=
  exists fuel pool sorted,
    collect fuel text = Val pool /\
    stable_sort_of pool sorted /\
    out = (builder <- add_all [] (filter_matches sorted) ;; Val (finish builder)).

(** [[\s\S]]: any code unit. *)
Definition any_unit : Regex := Chars (Class false [Space; NotSpace]).

(** The code units [a], [b] stand at [i] and [i + 1]. *)
Definition has_pair (text : Text) (a b : ascii) (i : nat) : bool :=
  match nth_error text i, nth_error text (S i) with
  | Some c, Some d => ((c =? cu a) && (d =? cu b))%N
  | _, _ => false
  end.

(** A block comment opens at [s]; a block comment closes at [q]. *)
Definition opens_at (text : Text) (s : nat) : Prop :=
  has_pair text "/" "*" s = true.

Definition closes_at (text : Text) (q : nat) : Prop :=
  has_pair text "*" "/" q = true.

(** A candidate that is a match of the pattern: it starts where the
    pattern matches and ends where that match ends. *)
Definition match_of (text : Text) (ml : bool) (src : Regex) (c : Candidate)
  : Prop :=
  exists y, first_match text ml src (start c) = Some y /\ end_ c = endIndex y.

(** The block comment pattern run on its own. *)
Definition block_comments (text : Text) : result (list Candidate) :=
  run_alone (length text + 2) text
            (multiCommentRegex, push_match commentDecoration 1).

(** The text of the first scenario: a line comment, a line terminator and
    a rule. *)
Definition scenario_text : Text :=
  text_of "// hello" ++ [10%N] ++ text_of "rule foo { condition: true }".

(** Every code unit of [text] from [a] up to [b] (excluded) is in [cs]. *)
Definition all_in (text : Text) (cs : CharSet) (a b : nat) : Prop :=
  forall j, a <= j < b ->
            exists c, nth_error text j = Some c /\ set_has cs c = true.

(** No code unit of [cs] stands at [i]: the text ends there, or another
    code unit stands there. *)
Definition none_at (text : Text) (cs : CharSet) (i : nat) : Prop :=
  match nth_error text i with
  | Some c => set_has cs c = false
  | None => True
  end.

(** Where the run of code units of [cs] that begins at [e] stops, looking
    at [n] code units at most. *)
Fixpoint run_end (text : Text) (cs : CharSet) (n e : nat) : nat :=
  match n with
  | 0 => e
  | S n' =>
      match nth_error text e with
      | Some c => if set_has cs c then run_end text cs n' (S e) else e
      | None => e
      end
  end.

(** The code unit [a] stands at [i]. *)
Definition unit_at (text : Text) (a : ascii) (i : nat) : Prop :=
  nth_error text i = Some (cu a).

(** [\w], and the class of the operator pattern. *)
Definition word_units : CharSet := Class false [WordChar].

Definition operator_units : CharSet :=
  Class false [chr "-"; chr "+"; chr "/"; chr "*";
               chr "="; chr "<"; chr ">"; chr ":"].

(** The longest stretch of code units of [cs] that begins at [e]. *)
Definition run_from (text : Text) (cs : CharSet) (e : nat) : nat :=
  run_end text cs (length text + 1) e.

(** The state of a match that has got to [q] and captured nothing. *)
Definition at_pos (q : nat) : MatchState := mkState q [].

(** [[^\\Q]], Q the double quote: what a string holds unescaped. *)
Definition plain_units : CharSet := Class true [chr "\"; chr "034"].

(** Every double quote from [a] up to [b] (excluded) comes right after a
    backslash that is itself at [a] or later. *)
Definition quotes_escaped (text : Text) (a b : nat) : Prop :=
  forall j, a <= j < b -> unit_at text "034" j ->
            a < j /\ unit_at text "\" (j - 1).

(** A word of the vocabulary: not empty, made of word characters. *)
Definition word_like (k : string) : bool :=
  match text_of k with
  | [] => false
  | l => forallb isWordChar l
  end.

(** [\b(w1|w2|...)\b], the shape of the keyword and the atom patterns. *)
Definition whole_word (ws : list string) : Regex :=
  Seq WordBoundary (Seq (Group 1 (any_of (map word ws))) WordBoundary).

(** [\s], and [[a-zA-Z_]], the first character of a rule name. *)
Definition space_units : CharSet := Class false [Space].

Definition name_start_units : CharSet :=
  Class false [rng "a" "z"; rng "A" "Z"; chr "_"].

(** What one round of the rule declaration loop pushes: the keyword [k]
    spelling [rule] at a word boundary, white space, the name [n] of 1 to
    128 identifier characters, then white space (maybe none) and an
    opening brace. *)
Definition rule_pair (text : Text) (k n : Candidate) : Prop :=
  decoration k = keywordDecoration /\ priority k = 3 /\
  decoration n = ruleNameDecoration /\ priority n = 3 /\
  substring text (start k) (end_ k) = text_of "rule" /\
  is_word_before text (start k) = false /\
  end_ k < start n /\
  all_in text space_units (end_ k) (start n) /\
  start n < end_ n /\ end_ n <= start n + 128 /\
  all_in text name_start_units (start n) (S (start n)) /\
  all_in text word_units (S (start n)) (end_ n) /\
  exists b, end_ n <= b /\ all_in text space_units (end_ n) b /\
            unit_at text "{" b.

(** The candidates of a list of (keyword, name) pairs, in order. *)
Definition unpair (pairs : list (Candidate * Candidate)) : list Candidate :=
  flat_map (fun p => [fst p; snd p]) pairs.

(** The classes of the number patterns: [[a-fA-F\d]], [[a-fA-F\d?]],
    [[.\w]], [\d] and the code units of a decimal number. *)
Definition hex_units : CharSet :=
  Class false [rng "a" "f"; rng "A" "F"; Digit].

Definition hex_byte_units : CharSet :=
  Class false [rng "a" "f"; rng "A" "F"; Digit; chr "?"].

Definition dot_word_units : CharSet := Class false [chr "."; WordChar].

Definition digit_units : CharSet := Class false [Digit].

Definition decimal_units : CharSet := Class false [Digit; chr "."].

(** [\b] at [i]: a word character on one side only. *)
Definition word_boundary (text : Text) (i : nat) : bool :=
  xorb (is_word_before text i) (is_word_at text i).

(** Whether two documents are the same. *)
Fixpoint same_text (a b : Text) : bool :=
  match a, b with
  | [], [] => true
  | x :: a', y :: b' => (x =? y)%N && same_text a' b'
  | _, _ => false
  end.

(** The host's side of the contract: an update whose document differs from
    the one before it says [docChanged]. *)
Fixpoint honest (doc : Text) (updates : list ViewUpdate) : bool :=
  match updates with
  | [] => true
  | u :: rest =>
      (docChanged u || same_text (view u) doc) && honest (view u) rest
  end.

(** The word [k] stands in [text] from [s] on, with no word character just
    before it or just after it. *)
Definition whole_word_at (text : Text) (k : string) (s : nat) : Prop :=
  substring text s (s + length (text_of k)) = text_of k /\
  is_word_before text s = false /\
  is_word_at text (s + length (text_of k)) = false.

(** * Properties of the matcher *)

Module MatcherFacts.

Lemma clear_captures_endIndex ks x :
  endIndex (clear_captures ks x) = endIndex x.
Proof. reflexivity. Qed.

Lemma capture_clear k ks caps :
  ~ In k ks ->
  capture k (filter (fun p => negb (existsb (Nat.eqb (fst p)) ks)) caps)
  = capture k caps.
Proof.
  intros Hk. induction caps as [|[j se] caps IH]; simpl; [reflexivity|].
  destruct (existsb (Nat.eqb j) ks) eqn:E; simpl.
  - destruct (j =? k) eqn:Ejk; [|exact IH].
    apply Nat.eqb_eq in Ejk. subst j.
    apply existsb_exists in E. destruct E as [k' [Hin Heq]].
    apply Nat.eqb_eq in Heq. subst k'. contradiction.
  - rewrite IH. reflexivity.
Qed.

Section Forward.

Variable input : Text.
Variable multiline : bool.

(** One round of a quantifier advances by what its body advances. *)
Lemma repeat_matcher_forward m inner greedy k :
  (forall x y, endIndex x <= length input -> In y (m x) ->
               endIndex x + k <= endIndex y /\ endIndex y <= length input) ->
  forall max min x y,
    endIndex x <= length input ->
    In y (repeat_matcher m inner greedy max min x) ->
    endIndex x + Nat.min min max * k <= endIndex y /\ endIndex y <= length input.
Proof.
  intros Hm. induction max as [|max IH]; intros min x y Hx Hy.
  - simpl in Hy. destruct Hy as [<-|[]]. rewrite Nat.min_0_r. simpl. lia.
  - simpl in Hy.
    assert (Hagain :
      In y (flat_map (fun y0 =>
              if (min =? 0) && (endIndex y0 =? endIndex x) then []
              else repeat_matcher m inner greedy max (pred min) y0)
            (m (clear_captures inner x))) ->
      endIndex x + Nat.min min (S max) * k <= endIndex y /\
      endIndex y <= length input).
    { intros Hin. apply in_flat_map in Hin. destruct Hin as [z [Hz Hin]].
      apply Hm in Hz; [|rewrite clear_captures_endIndex; exact Hx].
      rewrite clear_captures_endIndex in Hz.
      destruct ((min =? 0) && (endIndex z =? endIndex x)); [destruct Hin|].
      apply IH in Hin; [|lia].
      destruct min as [|p]; simpl in *; nia. }
    destruct (min =? 0) eqn:Emin; simpl in Hy.
    + apply Nat.eqb_eq in Emin. subst min.
      destruct greedy.
      * apply in_app_iff in Hy. destruct Hy as [Hy|[<-|[]]].
        -- apply (Hagain Hy).
        -- simpl. lia.
      * destruct Hy as [<-|Hy].
        -- simpl. lia.
        -- apply (Hagain Hy).
    + apply (Hagain Hy).
Qed.

(** A forward match ends inside the input, at least [min_length r] code
    units after it began. *)
Lemma matcher_forward r :
  forall x y,
    endIndex x <= length input ->
    In y (matcher input multiline r true x) ->
    endIndex x + min_length r <= endIndex y /\ endIndex y <= length input.
Proof.
  induction r; intros x y Hx Hy; simpl in Hy.
  - destruct Hy as [<-|[]]. simpl. lia.
  - destruct (nth_error input (endIndex x)) as [c|] eqn:E; [|destruct Hy].
    assert (endIndex x < length input) by (apply nth_error_Some; congruence).
    destruct (set_has cs c); [|destruct Hy].
    destruct Hy as [<-|[]]. simpl. lia.
  - apply in_flat_map in Hy. destruct Hy as [z [Hz Hy]].
    apply IHr1 in Hz; [|exact Hx]. apply IHr2 in Hy; [|lia]. simpl. lia.
  - apply in_app_iff in Hy. simpl.
    destruct Hy as [Hy|Hy]; [apply IHr1 in Hy|apply IHr2 in Hy]; lia.
  - apply (repeat_matcher_forward _ _ _ (min_length r) IHr) in Hy; [|exact Hx].
    simpl. destruct max as [n|]; simpl in *; [exact Hy|].
    rewrite Nat.min_l in Hy by lia. exact Hy.
  - apply in_map_iff in Hy. destruct Hy as [z [<- Hz]].
    apply IHr in Hz; [|exact Hx]. simpl. exact Hz.
  - destruct (at_line_start _ _ _); [|destruct Hy].
    destruct Hy as [<-|[]]. simpl. lia.
  - destruct (at_line_end _ _ _); [|destruct Hy].
    destruct Hy as [<-|[]]. simpl. lia.
  - destruct (xorb _ _); [|destruct Hy].
    destruct Hy as [<-|[]]. simpl. lia.
  - destruct (matcher input multiline r true x); [|destruct Hy].
    destruct Hy as [<-|[]]. simpl. lia.
  - destruct (matcher input multiline r false x); [|destruct Hy].
    destruct Hy as [<-|[]]. simpl. lia.
Qed.

(** A group the pattern does not contain keeps its capture. *)
Lemma repeat_matcher_capture m inner greedy k :
  ~ In k inner ->
  (forall x y, In y (m x) -> capture k (captures y) = capture k (captures x)) ->
  forall max min x y,
    In y (repeat_matcher m inner greedy max min x) ->
    capture k (captures y) = capture k (captures x).
Proof.
  intros Hk Hm. induction max as [|max IH]; intros min x y Hy.
  - simpl in Hy. destruct Hy as [<-|[]]. reflexivity.
  - simpl in Hy.
    assert (Hagain :
      In y (flat_map (fun y0 =>
              if (min =? 0) && (endIndex y0 =? endIndex x) then []
              else repeat_matcher m inner greedy max (pred min) y0)
            (m (clear_captures inner x))) ->
      capture k (captures y) = capture k (captures x)).
    { intros Hin. apply in_flat_map in Hin. destruct Hin as [z [Hz Hin]].
      apply Hm in Hz. simpl in Hz. rewrite capture_clear in Hz by exact Hk.
      destruct ((min =? 0) && (endIndex z =? endIndex x)); [destruct Hin|].
      apply IH in Hin. congruence. }
    destruct (negb (min =? 0)); [exact (Hagain Hy)|].
    destruct greedy.
    + apply in_app_iff in Hy. destruct Hy as [Hy|[<-|[]]]; auto.
    + destruct Hy as [<-|Hy]; auto.
Qed.

Lemma matcher_capture k r :
  ~ In k (group_ids r) ->
  forall forward x y,
    In y (matcher input multiline r forward x) ->
    capture k (captures y) = capture k (captures x).
Proof.
  induction r; intros Hk forward x y Hy; simpl in Hy, Hk.
  - destruct Hy as [<-|[]]. reflexivity.
  - destruct forward.
    + destruct (nth_error input (endIndex x)); [|destruct Hy].
      destruct (set_has cs c); [|destruct Hy].
      destruct Hy as [<-|[]]. reflexivity.
    + destruct (endIndex x) as [|e]; [destruct Hy|].
      destruct (nth_error input e); [|destruct Hy].
      destruct (set_has cs c); [|destruct Hy].
      destruct Hy as [<-|[]]. reflexivity.
  - rewrite in_app_iff in Hk.
    destruct forward; apply in_flat_map in Hy; destruct Hy as [z [Hz Hy]].
    + apply IHr1 in Hz; [|tauto]. apply IHr2 in Hy; [|tauto]. congruence.
    + apply IHr2 in Hz; [|tauto]. apply IHr1 in Hy; [|tauto]. congruence.
  - rewrite in_app_iff in Hk. apply in_app_iff in Hy.
    destruct Hy as [Hy|Hy]; [apply IHr1 in Hy|apply IHr2 in Hy]; tauto.
  - eapply repeat_matcher_capture; [exact Hk| |exact Hy].
    intros x0 y0. apply IHr. exact Hk.
  - apply in_map_iff in Hy. destruct Hy as [z [<- Hz]].
    apply IHr in Hz; [|tauto]. simpl.
    destruct (k0 =? k) eqn:E; [|exact Hz].
    apply Nat.eqb_eq in E. tauto.
  - destruct (at_line_start _ _ _); [|destruct Hy].
    destruct Hy as [<-|[]]. reflexivity.
  - destruct (at_line_end _ _ _); [|destruct Hy].
    destruct Hy as [<-|[]]. reflexivity.
  - destruct (xorb _ _); [|destruct Hy].
    destruct Hy as [<-|[]]. reflexivity.
  - destruct (matcher input multiline r true x); [|destruct Hy].
    destruct Hy as [<-|[]]. reflexivity.
  - destruct (matcher input multiline r false x); [|destruct Hy].
    destruct Hy as [<-|[]]. reflexivity.
Qed.

End Forward.

End MatcherFacts.

(** * Properties of [exec] *)

Module ExecFacts.

Import MatcherFacts.

Lemma flat_map_ext_in (A B : Type) (f g : A -> list B) (l : list A) :
  (forall a, In a l -> f a = g a) -> flat_map f l = flat_map g l.
Proof.
  induction l as [|a l IH]; intros H; simpl; [reflexivity|].
  rewrite (H a) by (left; reflexivity).
  rewrite IH; [reflexivity|]. intros b Hb. apply H. right. exact Hb.
Qed.

(** Past [min + (what is left of the input)] rounds a quantifier has
    nothing more to try: allowing more rounds changes nothing.  This is
    what lets [iterations] stand for an unbounded maximum. *)
Lemma repeat_matcher_enough (input : Text) m inner greedy :
  (forall x y, endIndex x <= length input -> In y (m x) ->
               endIndex x <= endIndex y /\ endIndex y <= length input) ->
  forall n1 n2 min x,
    endIndex x <= length input ->
    min + (length input - endIndex x) < n1 ->
    min + (length input - endIndex x) < n2 ->
    repeat_matcher m inner greedy n1 min x
    = repeat_matcher m inner greedy n2 min x.
Proof.
  intros Hm. induction n1 as [|n1 IH]; intros n2 min x Hx H1 H2; [lia|].
  destruct n2 as [|n2]; [lia|]. simpl.
  assert (Hagain :
    flat_map (fun y =>
                if (min =? 0) && (endIndex y =? endIndex x) then []
                else repeat_matcher m inner greedy n1 (pred min) y)
             (m (clear_captures inner x))
    = flat_map (fun y =>
                if (min =? 0) && (endIndex y =? endIndex x) then []
                else repeat_matcher m inner greedy n2 (pred min) y)
             (m (clear_captures inner x))).
  { apply flat_map_ext_in. intros z Hz.
    apply Hm in Hz; [|rewrite clear_captures_endIndex; exact Hx].
    rewrite clear_captures_endIndex in Hz.
    destruct (min =? 0) eqn:Emin; simpl.
    - apply Nat.eqb_eq in Emin. subst min.
      destruct (endIndex z =? endIndex x) eqn:Ez; [reflexivity|].
      apply Nat.eqb_neq in Ez. apply IH; simpl; lia.
    - apply Nat.eqb_neq in Emin. apply IH; lia. }
  rewrite Hagain. reflexivity.
Qed.

Lemma unbounded_quantifier (input : Text) multiline min greedy r x n :
  endIndex x <= length input ->
  min + length input < n ->
  matcher input multiline (Quant min None greedy r) true x
  = repeat_matcher (matcher input multiline r true) (group_ids r) greedy n min x.
Proof.
  intros Hx Hn. simpl.
  apply repeat_matcher_enough with (input := input); try lia.
  intros x0 y0 Hx0 Hy0.
  pose proof (matcher_forward input multiline r x0 y0 Hx0 Hy0). lia.
Qed.

Lemma substring_length (t : Text) (s e : nat) :
  e <= length t -> length (substring t s e) = e - s.
Proof.
  intros He. unfold substring. rewrite length_firstn, length_skipn. lia.
Qed.

Section Search.

Variable input : Text.
Variable multiline : bool.
Variable r : Regex.

Lemma search_some n : forall i s y,
  search input multiline r n i = Some (s, y) ->
  i <= s < i + n /\ first_match input multiline r s = Some y /\
  forall j, i <= j < s -> first_match input multiline r j = None.
Proof.
  unfold first_match.
  induction n as [|n IH]; intros i s y H; simpl in H; [discriminate|].
  destruct (matcher input multiline r true (mkState i [])) as [|y0 l] eqn:E.
  - apply IH in H. destruct H as [Hs [Hy Hj]].
    split; [lia|]. split; [exact Hy|].
    intros j Hr. destruct (Nat.eq_dec j i) as [->|Hne].
    + rewrite E. reflexivity.
    + apply Hj. lia.
  - inversion H; subst. split; [lia|]. split; [rewrite E; reflexivity|].
    intros j Hr. lia.
Qed.

Lemma search_none n : forall i,
  search input multiline r n i = None ->
  forall j, i <= j < i + n -> first_match input multiline r j = None.
Proof.
  unfold first_match.
  induction n as [|n IH]; intros i H j Hj; simpl in H; [lia|].
  destruct (matcher input multiline r true (mkState i [])) as [|y0 l] eqn:E;
    [|discriminate].
  destruct (Nat.eq_dec j i) as [->|Hne].
  - rewrite E. reflexivity.
  - apply (IH (S i) H). lia.
Qed.

End Search.

(** What a successful [exec] returns. *)
Lemma exec_some re text m re' :
  exec re text = (Some m, re') ->
  exists y,
    first_match text (multilineFlag re) (source re) (index m) = Some y /\
    lastIndex re <= index m <= length text /\
    (forall j, lastIndex re <= j < index m ->
               first_match text (multilineFlag re) (source re) j = None) /\
    whole m = substring text (index m) (endIndex y) /\
    (forall k, sub m k = match capture k (captures y) with
                         | Some (s, e) => Some (substring text s e)
                         | None => None
                         end) /\
    re' = mkRegExp (source re) (multilineFlag re) (endIndex y).
Proof.
  unfold exec. intros H.
  destruct (length text <? lastIndex re) eqn:El; [discriminate|].
  apply Nat.ltb_ge in El.
  destruct (search text (multilineFlag re) (source re)
                   (S (length text) - lastIndex re) (lastIndex re))
    as [[i y]|] eqn:Es; [|discriminate].
  inversion H; subst; clear H. simpl.
  apply search_some in Es. destruct Es as [Hi [Hy Hj]].
  exists y. repeat split; try assumption; try lia.
Qed.

(** [exec] returns [null] exactly when no position from [lastIndex] on
    starts a match, and then leaves [lastIndex] at 0. *)
Lemma exec_none re text re' :
  exec re text = (None, re') ->
  re' = mkRegExp (source re) (multilineFlag re) 0 /\
  forall j, lastIndex re <= j <= length text ->
            first_match text (multilineFlag re) (source re) j = None.
Proof.
  unfold exec. intros H.
  destruct (length text <? lastIndex re) eqn:El.
  - apply Nat.ltb_lt in El. inversion H. split; [reflexivity|]. intros j Hj. lia.
  - apply Nat.ltb_ge in El.
    destruct (search text (multilineFlag re) (source re)
                     (S (length text) - lastIndex re) (lastIndex re))
      as [[i y]|] eqn:Es; [discriminate|].
    inversion H. split; [reflexivity|]. intros j Hj.
    eapply search_none; [exact Es|]. lia.
Qed.

(** A match ends inside the text and spans at least [min_length]. *)
Lemma first_match_bounds text multiline r i y :
  i <= length text ->
  first_match text multiline r i = Some y ->
  i + min_length r <= endIndex y /\ endIndex y <= length text.
Proof.
  unfold first_match. intros Hi Hy.
  destruct (matcher text multiline r true (mkState i [])) as [|y0 l] eqn:E;
    [discriminate|].
  inversion Hy; subst.
  apply (matcher_forward text multiline r (mkState i []) y Hi).
  rewrite E. left. reflexivity.
Qed.

End ExecFacts.

(** * Properties of the match loops *)

Module LoopFacts.

Import MatcherFacts ExecFacts.

Lemma collect_run_all fuel text :
  collect fuel text = run_all fuel text catalogue [].
Proof.
  unfold collect, catalogue. simpl.
  repeat match goal with
         | |- context [bind ?w _] =>
             match w with
             | while_exec _ _ _ _ _ => destruct w; simpl; try reflexivity
             end
         end.
Qed.

(** What a loop pushes does not depend on what the array already holds. *)
Lemma while_exec_acc text body : forall fuel re matches,
  while_exec fuel re text body matches
  = (pushed <- while_exec fuel re text body [] ;; Val (matches ++ pushed)).
Proof.
  induction fuel as [|fuel IH]; intros re matches; simpl; [reflexivity|].
  destruct (exec re text) as [[m|] re'].
  - destruct (body m) as [cs| |]; simpl; try reflexivity.
    rewrite IH. rewrite (IH re' cs).
    destruct (while_exec fuel re' text body []); simpl; try reflexivity.
    rewrite app_assoc. reflexivity.
  - simpl. rewrite app_nil_r. reflexivity.
Qed.

(** More fuel does not change a loop that has finished. *)
Lemma while_exec_more_fuel text body : forall fuel fuel' re matches out,
  fuel <= fuel' ->
  while_exec fuel re text body matches = Val out ->
  while_exec fuel' re text body matches = Val out.
Proof.
  induction fuel as [|fuel IH]; intros fuel' re matches out Hle H;
    simpl in H; [discriminate|].
  destruct fuel' as [|fuel']; [lia|]. simpl.
  destruct (exec re text) as [[m|] re']; [|exact H].
  destruct (body m) as [cs| |]; simpl in *; try discriminate.
  apply (IH fuel'); [lia|exact H].
Qed.

Lemma run_all_more_fuel text ps : forall fuel fuel' matches out,
  fuel <= fuel' ->
  run_all fuel text ps matches = Val out ->
  run_all fuel' text ps matches = Val out.
Proof.
  induction ps as [|[re body] ps IH]; intros fuel fuel' matches out Hle H;
    simpl in *; [exact H|].
  destruct (while_exec fuel re text body matches) as [ms| |] eqn:E;
    simpl in H; try discriminate.
  rewrite (while_exec_more_fuel _ _ _ _ Hle E). simpl.
  apply (IH fuel); assumption.
Qed.

(** The pool is the concatenation of what the patterns find alone. *)
Lemma run_all_alone text fuel ps : forall matches out,
  run_all fuel text ps matches = Val out ->
  exists found,
    Forall2 (fun p ms => run_alone fuel text p = Val ms) ps found /\
    out = matches ++ concat found.
Proof.
  induction ps as [|[re body] ps IH]; intros matches out H; simpl in H.
  - inversion H; subst. exists []. split; [constructor|].
    simpl. rewrite app_nil_r. reflexivity.
  - rewrite while_exec_acc in H.
    destruct (while_exec fuel re text body []) as [ms| |] eqn:E;
      simpl in H; try discriminate.
    apply IH in H. destruct H as [found [Hf ->]].
    exists (ms :: found). split.
    + constructor; [exact E|exact Hf].
    + simpl. rewrite app_assoc. reflexivity.
Qed.

Section Loop.

Variable text : Text.
Variable src : Regex.
Variable ml : bool.
Variable body : Body.
Variable P : Candidate -> Prop.

Hypothesis Hmin : 1 <= min_length src.
Hypothesis Hbody : forall i m re',
  exec (mkRegExp src ml i) text = (Some m, re') ->
  exists cs, body m = Val cs /\ Forall P cs.

(** A pattern that cannot match the empty string moves [lastIndex] on at
    every round, so its loop ends: [|text| + 2 - lastIndex] rounds are
    enough. *)
Lemma while_exec_total : forall fuel i matches,
  i <= length text ->
  length text + 2 <= fuel + i ->
  Forall P matches ->
  exists out,
    while_exec fuel (mkRegExp src ml i) text body matches = Val out /\
    Forall P out.
Proof.
  induction fuel as [|fuel IH]; intros i matches Hi Hf HP; [lia|].
  simpl.
  destruct (exec (mkRegExp src ml i) text) as [[m|] re'] eqn:E.
  - destruct (Hbody _ E) as [cs [Hcs HPcs]].
    apply exec_some in E. simpl in E.
    destruct E as [y [Hy [Hidx [_ [_ [_ ->]]]]]].
    apply first_match_bounds in Hy; [|lia].
    rewrite Hcs. simpl. apply IH; [lia|lia|].
    apply Forall_app. split; assumption.
  - exists matches. split; [reflexivity|exact HP].
Qed.

End Loop.

End LoopFacts.

(** * The candidates *)

Module PoolFacts.

Import MatcherFacts ExecFacts LoopFacts.

Lemma in_seq text ml r1 r2 x y :
  In y (matcher text ml (Seq r1 r2) true x) ->
  exists z, In z (matcher text ml r1 true x) /\ In y (matcher text ml r2 true z).
Proof. simpl. intros H. apply in_flat_map in H. exact H. Qed.

Lemma in_group text ml k r x y :
  In y (matcher text ml (Group k r) true x) ->
  exists z, In z (matcher text ml r true x) /\
            endIndex y = endIndex z /\
            capture k (captures y) = Some (endIndex x, endIndex z).
Proof.
  simpl. intros H. apply in_map_iff in H. destruct H as [z [<- Hz]].
  exists z. simpl. rewrite Nat.eqb_refl. auto.
Qed.

(** The three groups of a pattern shaped like the rule declaration's all
    take part in a match, one after the other. *)
Lemma three_groups text ml r1 r2 r3 rest x y :
  ~ In 1 (group_ids r2 ++ group_ids r3 ++ group_ids rest) ->
  ~ In 2 (group_ids r3 ++ group_ids rest) ->
  ~ In 3 (group_ids rest) ->
  endIndex x <= length text ->
  In y (matcher text ml
          (Seq WordBoundary
               (Seq (Group 1 r1) (Seq (Group 2 r2) (Seq (Group 3 r3) rest))))
          true x) ->
  exists e1 e2 e3,
    capture 1 (captures y) = Some (endIndex x, e1) /\
    capture 2 (captures y) = Some (e1, e2) /\
    capture 3 (captures y) = Some (e2, e3) /\
    endIndex x + min_length r1 <= e1 /\
    e1 + min_length r2 <= e2 /\
    e2 + min_length r3 <= e3 /\
    e3 <= length text.
Proof.
  intros N1 N2 N3 Hx Hy. rewrite !in_app_iff in N1. rewrite in_app_iff in N2.
  apply in_seq in Hy. destruct Hy as [x0 [Hb Hy]].
  assert (x0 = x) as ->.
  { simpl in Hb. destruct (xorb _ _); [|destruct Hb].
    destruct Hb as [<-|[]]. reflexivity. }
  apply in_seq in Hy. destruct Hy as [y1 [H1 Hy]].
  apply in_seq in Hy. destruct Hy as [y2 [H2 Hy]].
  apply in_seq in Hy. destruct Hy as [y3 [H3 Hy]].
  pose proof (matcher_forward text ml _ _ _ Hx H1) as B1. simpl in B1.
  apply in_group in H1. destruct H1 as [z1 [_ [E1 C1]]].
  assert (Hy1 : endIndex y1 <= length text) by lia.
  pose proof (matcher_forward text ml _ _ _ Hy1 H2) as B2. simpl in B2.
  pose proof (matcher_capture text ml 1 (Group 2 r2)) as K12.
  simpl in K12. specialize (K12 ltac:(intros [?|?]; [discriminate|tauto]) true _ _ H2).
  apply in_group in H2. destruct H2 as [z2 [_ [E2 C2]]].
  assert (Hy2 : endIndex y2 <= length text) by lia.
  pose proof (matcher_forward text ml _ _ _ Hy2 H3) as B3. simpl in B3.
  pose proof (matcher_capture text ml 1 (Group 3 r3)) as K13.
  simpl in K13. specialize (K13 ltac:(intros [?|?]; [discriminate|tauto]) true _ _ H3).
  pose proof (matcher_capture text ml 2 (Group 3 r3)) as K23.
  simpl in K23. specialize (K23 ltac:(intros [?|?]; [discriminate|tauto]) true _ _ H3).
  apply in_group in H3. destruct H3 as [z3 [_ [E3 C3]]].
  assert (Hy3 : endIndex y3 <= length text) by lia.
  pose proof (matcher_capture text ml 1 rest ltac:(tauto) true _ _ Hy) as K1.
  pose proof (matcher_capture text ml 2 rest ltac:(tauto) true _ _ Hy) as K2.
  pose proof (matcher_capture text ml 3 rest N3 true _ _ Hy) as K3.
  exists (endIndex y1), (endIndex y2), (endIndex y3).
  rewrite K1, K13, K12, C1, K2, K23, C2, K3, C3, E1, E2, E3.
  rewrite <- E1, <- E2, <- E3.
  repeat split; lia.
Qed.

Section Bodies.

Variable text : Text.

Lemma push_match_ok src ml d p i m re' :
  1 <= min_length src ->
  exec (mkRegExp src ml i) text = (Some m, re') ->
  exists cs, push_match d p m = Val cs /\ Forall (inside text) cs.
Proof.
  intros Hmin E. apply exec_some in E. simpl in E.
  destruct E as [y [Hy [Hidx [_ [Hw _]]]]].
  apply first_match_bounds in Hy; [|lia].
  eexists. split; [reflexivity|].
  constructor; [|constructor]. unfold inside. simpl.
  rewrite Hw, substring_length by lia. lia.
Qed.

Lemma push_rule_ok i m re' :
  exec (mkRegExp (source ruleDeclarationRegex) false i) text = (Some m, re') ->
  exists cs, push_rule m = Val cs /\ Forall (inside text) cs.
Proof.
  intros E. apply exec_some in E. simpl source in E. simpl multilineFlag in E.
  simpl lastIndex in E.
  destruct E as [y [Hy [Hidx [_ [_ [Hsub _]]]]]].
  unfold first_match in Hy.
  destruct (matcher text false _ true (mkState (index m) [])) as [|y0 l] eqn:Em;
    [discriminate|].
  inversion Hy; subst y0; clear Hy.
  assert (Hin : In y (matcher text false (source ruleDeclarationRegex) true
                        (mkState (index m) [])))
    by (simpl source; rewrite Em; left; reflexivity).
  cbv [ruleDeclarationRegex source cat fold_right] in Hin.
  apply three_groups in Hin; simpl; try lia;
    try (intros H; repeat destruct H as [H|H]; try discriminate; exact H).
  destruct Hin as [e1 [e2 [e3 [C1 [C2 [C3 [B1 [B2 [B3 B4]]]]]]]]].
  simpl in B1, B2, B3.
  unfold push_rule. rewrite !Hsub, C1, C2, C3. simpl.
  rewrite !substring_length by lia.
  eexists. split; [reflexivity|].
  repeat constructor; simpl; lia.
Qed.

End Bodies.

Lemma catalogue_sound text :
  Forall (sound_entry text (inside text)) catalogue.
Proof.
  unfold catalogue.
  repeat (apply Forall_cons || apply Forall_nil);
    (split; [reflexivity|split; [vm_compute; lia|]]); simpl fst; simpl snd;
    intros i m re' E;
    first [ exact (push_rule_ok _ _ E)
          | eapply push_match_ok; [|exact E]; vm_compute; lia ].
Qed.

Lemma run_all_total text (P : Candidate -> Prop) ps :
  Forall (sound_entry text P) ps ->
  forall fuel matches,
    length text + 2 <= fuel ->
    Forall P matches ->
    exists out, run_all fuel text ps matches = Val out /\ Forall P out.
Proof.
  induction 1 as [|[re body] ps [H0 [Hmin Hbody]] _ IH];
    intros fuel matches Hf HP; simpl.
  - exists matches. auto.
  - simpl in H0, Hmin, Hbody.
    destruct re as [src ml li]. simpl in *. subst li.
    destruct (@while_exec_total text src ml body P Hmin Hbody fuel 0 matches)
      as [ms [E HPms]]; [lia|lia|exact HP|].
    rewrite E. simpl. apply IH; assumption.
Qed.

(** The pool exists, whatever the text, and holds non-empty ranges of the
    text only. *)
Lemma collect_total text :
  exists pool,
    collect (length text + 2) text = Val pool /\ Forall (inside text) pool.
Proof.
  rewrite collect_run_all.
  apply run_all_total; [apply catalogue_sound|lia|constructor].
Qed.

Lemma collect_more_fuel text fuel pool :
  length text + 2 <= fuel ->
  collect (length text + 2) text = Val pool ->
  collect fuel text = Val pool.
Proof.
  rewrite !collect_run_all. intros Hf. apply run_all_more_fuel. exact Hf.
Qed.

End PoolFacts.

(** * The sort *)

Module SortFacts.

Lemma compareFn_lt a b :
  (compareFn a b <? 0)%Z = true <->
  (start a < start b \/ (start a = start b /\ priority a < priority b)).
Proof.
  unfold compareFn. rewrite Z.ltb_lt.
  destruct (start a =? start b) eqn:E; simpl.
  - apply Nat.eqb_eq in E. lia.
  - apply Nat.eqb_neq in E. lia.
Qed.

Lemma compareFn_ge a b :
  (compareFn a b <? 0)%Z = false <-> key_le b a.
Proof.
  unfold compareFn, key_le. rewrite Z.ltb_ge.
  destruct (start a =? start b) eqn:E; simpl.
  - apply Nat.eqb_eq in E. lia.
  - apply Nat.eqb_neq in E. lia.
Qed.

Lemma key_le_trans a b c : key_le a b -> key_le b c -> key_le a c.
Proof. unfold key_le. lia. Qed.

Lemma key_le_refl a : key_le a a.
Proof. unfold key_le. lia. Qed.

Lemma same_key_iff a b :
  same_key a b = true <-> start b = start a /\ priority b = priority a.
Proof.
  unfold same_key. rewrite andb_true_iff, !Nat.eqb_eq. tauto.
Qed.

Lemma same_key_antisym a b : key_le a b -> key_le b a -> same_key a b = true.
Proof. rewrite same_key_iff. unfold key_le. lia. Qed.

Lemma same_key_sym a b : same_key a b = same_key b a.
Proof.
  unfold same_key.
  rewrite (Nat.eqb_sym (start b)), (Nat.eqb_sym (priority b)). reflexivity.
Qed.

Lemma insert_perm cmp x l : Permutation (insert cmp x l) (x :: l).
Proof.
  induction l as [|y l IH]; simpl; [apply Permutation_refl|].
  destruct (cmp y x <? 0)%Z; [|apply Permutation_refl].
  eapply Permutation_trans; [apply perm_skip; exact IH|apply perm_swap].
Qed.

Lemma sort_perm cmp l : Permutation (sort cmp l) l.
Proof.
  induction l as [|x l IH]; simpl; [constructor|].
  eapply Permutation_trans; [apply insert_perm|apply perm_skip; exact IH].
Qed.

Lemma insert_sorted x l :
  StronglySorted key_le l -> StronglySorted key_le (insert compareFn x l).
Proof.
  induction 1 as [|y l Hs IH Hy]; simpl.
  - constructor; constructor.
  - destruct (compareFn y x <? 0)%Z eqn:E.
    + constructor; [exact IH|].
      apply Forall_forall. intros z Hz.
      apply (Permutation_in _ (insert_perm compareFn x l)) in Hz.
      destruct Hz as [<-|Hz].
      * apply compareFn_lt in E. unfold key_le. lia.
      * rewrite Forall_forall in Hy. apply Hy. exact Hz.
    + apply compareFn_ge in E.
      constructor; [constructor; assumption|].
      constructor; [exact E|].
      eapply Forall_impl; [|exact Hy].
      intros z Hz. eapply key_le_trans; eassumption.
Qed.

Lemma sort_sorted l : StronglySorted key_le (sort compareFn l).
Proof.
  induction l as [|x l IH]; simpl; [constructor|].
  apply insert_sorted. exact IH.
Qed.

Lemma insert_same_key c x l :
  filter (same_key c) (insert compareFn x l)
  = filter (same_key c) (x :: l).
Proof.
  induction l as [|y l IH]; simpl; [reflexivity|].
  destruct (compareFn y x <? 0)%Z eqn:E; [|reflexivity].
  simpl. rewrite IH. simpl.
  destruct (same_key c x) eqn:Ex; [|reflexivity].
  destruct (same_key c y) eqn:Ey; [|reflexivity].
  apply compareFn_lt in E.
  apply same_key_iff in Ex. apply same_key_iff in Ey. lia.
Qed.

(** The sort is stable: candidates with the same start and priority keep
    the order in which they were pushed. *)
Lemma sort_stable c l :
  filter (same_key c) (sort compareFn l) = filter (same_key c) l.
Proof.
  induction l as [|x l IH]; simpl; [reflexivity|].
  rewrite insert_same_key. simpl. rewrite IH. reflexivity.
Qed.

(** There is one stable sorted arrangement only, so [sort] computes what
    any stable sort computes with this comparator. *)
Lemma stable_sorted_unique : forall l1 l2,
  StronglySorted key_le l1 ->
  StronglySorted key_le l2 ->
  (forall c, filter (same_key c) l1 = filter (same_key c) l2) ->
  l1 = l2.
Proof.
  induction l1 as [|x l1 IH]; intros l2 S1 S2 H.
  - destruct l2 as [|y l2]; [reflexivity|].
    specialize (H y). simpl in H.
    rewrite (proj2 (same_key_iff y y)) in H by auto. discriminate.
  - destruct l2 as [|y l2].
    + specialize (H x). simpl in H.
      rewrite (proj2 (same_key_iff x x)) in H by auto. discriminate.
    + inversion S1 as [|? ? S1' F1]; subst.
      inversion S2 as [|? ? S2' F2]; subst.
      rewrite Forall_forall in F1, F2.
      assert (Hxy : same_key x y = true).
      { destruct (same_key x y) eqn:Exy; [reflexivity|].
        pose proof (H x) as Hx. pose proof (H y) as Hy. simpl in Hx, Hy.
        rewrite Exy in Hx. rewrite same_key_sym, Exy in Hy.
        rewrite (proj2 (same_key_iff x x)) in Hx by auto.
        rewrite (proj2 (same_key_iff y y)) in Hy by auto.
        assert (In x l2).
        { apply (proj1 (filter_In (same_key x) x l2)).
          rewrite <- Hx. left. reflexivity. }
        assert (In y l1).
        { apply (proj1 (filter_In (same_key y) y l1)).
          rewrite Hy. left. reflexivity. }
        rewrite <- Exy. apply same_key_antisym; auto. }
      assert (x = y) as <-.
      { specialize (H x). simpl in H. rewrite Hxy in H.
        rewrite (proj2 (same_key_iff x x)) in H by auto.
        inversion H. reflexivity. }
      f_equal. apply IH; try assumption.
      intros c. specialize (H c). simpl in H.
      destruct (same_key c x); [inversion H; reflexivity|exact H].
Qed.

End SortFacts.

(** * Overlap resolution *)

Module FilterFacts.

Import SortFacts.

Lemma filter_step_keep acc c :
  filter_step (map pushed_of acc) c = map pushed_of (keep_step acc c).
Proof.
  unfold filter_step, keep_step.
  destruct (existsb (overlaps c) (map pushed_of acc)); simpl; [reflexivity|].
  rewrite map_app. reflexivity.
Qed.

Lemma filter_matches_kept matches :
  filter_matches matches = map pushed_of (kept matches).
Proof.
  unfold filter_matches, kept.
  change (@nil Filtered) with (map pushed_of []).
  generalize (@nil Candidate) as acc.
  induction matches as [|c l IH]; intros acc; simpl; [reflexivity|].
  rewrite filter_step_keep. apply IH.
Qed.

(** The candidate walked last is kept exactly when it overlaps nothing
    kept before it. *)
Lemma kept_snoc l c :
  kept (l ++ [c])
  = kept l ++ (if existsb (overlaps c) (map pushed_of (kept l)) then [] else [c]).
Proof.
  unfold kept. rewrite fold_left_app. simpl. unfold keep_step.
  destruct (existsb _ _); [rewrite app_nil_r|]; reflexivity.
Qed.

Lemma overlaps_pushed c a :
  overlaps c (pushed_of a) = true <-> start c < end_ a /\ start a < end_ c.
Proof.
  unfold overlaps. simpl. rewrite andb_true_iff, !Nat.ltb_lt. tauto.
Qed.

Lemma overlapping_kept l c :
  existsb (overlaps c) (map pushed_of (kept l)) = true <->
  exists a, In a (kept l) /\ start c < end_ a /\ start a < end_ c.
Proof.
  rewrite existsb_exists. split.
  - intros [f [Hf Ho]]. apply in_map_iff in Hf. destruct Hf as [a [<- Ha]].
    exists a. split; [exact Ha|]. apply overlaps_pushed. exact Ho.
  - intros [a [Ha Ho]]. exists (pushed_of a). split.
    + apply in_map. exact Ha.
    + apply overlaps_pushed. exact Ho.
Qed.

Lemma kept_incl l : forall c, In c (kept l) -> In c l.
Proof.
  induction l as [|x l IH] using rev_ind; intros c Hc; [destruct Hc|].
  rewrite kept_snoc in Hc. apply in_app_iff in Hc. apply in_app_iff.
  destruct Hc as [Hc|Hc]; [left; apply IH; exact Hc|].
  destruct (existsb _ _); [destruct Hc|]. right. exact Hc.
Qed.

(** A candidate is kept, or else it overlaps a kept one. *)
Lemma kept_or_overlapped l : forall c,
  In c l ->
  In c (kept l) \/
  exists a, In a (kept l) /\ start c < end_ a /\ start a < end_ c.
Proof.
  induction l as [|x l IH] using rev_ind; intros c Hc; [destruct Hc|].
  rewrite kept_snoc. apply in_app_iff in Hc. destruct Hc as [Hc|[<-|[]]].
  - destruct (IH c Hc) as [Hk|[a [Ha Ho]]].
    + left. apply in_app_iff. left. exact Hk.
    + right. exists a. split; [apply in_app_iff; left; exact Ha|exact Ho].
  - destruct (existsb _ _) eqn:E.
    + right. apply overlapping_kept in E. destruct E as [a [Ha Ho]].
      exists a. split; [apply in_app_iff; left; exact Ha|exact Ho].
    + left. apply in_app_iff. right. left. reflexivity.
Qed.

(** The walk starts by keeping the first candidate. *)
Lemma keep_prefix l : forall acc, exists more,
  fold_left keep_step l acc = acc ++ more.
Proof.
  induction l as [|c l IH]; intros acc; simpl.
  - exists []. rewrite app_nil_r. reflexivity.
  - destruct (IH (keep_step acc c)) as [more ->]. unfold keep_step.
    destruct (existsb _ _).
    + exists more. reflexivity.
    + exists (c :: more). rewrite <- app_assoc. reflexivity.
Qed.

Lemma kept_first c l : exists more, kept (c :: l) = c :: more.
Proof.
  unfold kept. simpl. unfold keep_step at 2. simpl.
  apply (keep_prefix l [c]).
Qed.

Lemma sorted_snoc_inv (A : Type) (R : A -> A -> Prop) l x :
  StronglySorted R (l ++ [x]) ->
  StronglySorted R l /\ Forall (fun a => R a x) l.
Proof.
  induction l as [|y l IH]; simpl; intros H.
  - split; constructor.
  - inversion H as [|? ? Hs Hf]; subst.
    apply IH in Hs. destruct Hs as [Hs Hx].
    apply Forall_app in Hf. destruct Hf as [Hf Hyx].
    split; constructor; try assumption.
    inversion Hyx; assumption.
Qed.

Lemma sorted_snoc (A : Type) (R : A -> A -> Prop) l x :
  StronglySorted R l -> Forall (fun a => R a x) l ->
  StronglySorted R (l ++ [x]).
Proof.
  induction 1 as [|y l Hs IH Hy]; simpl; intros Hx.
  - constructor; constructor.
  - inversion Hx; subst. constructor; [apply IH; assumption|].
    apply Forall_app. split; [assumption|]. constructor; [assumption|constructor].
Qed.

(** Walking candidates sorted by start leaves a chain of disjoint ranges. *)
Lemma kept_chain l :
  StronglySorted key_le l ->
  Forall nonempty l ->
  StronglySorted precedes (kept l).
Proof.
  induction l as [|c l IH] using rev_ind; intros Hs Hn; [constructor|].
  apply sorted_snoc_inv in Hs. destruct Hs as [Hs Hc].
  apply Forall_app in Hn. destruct Hn as [Hn Hcn].
  inversion Hcn as [|? ? Hcne _]; subst. unfold nonempty in Hcne.
  rewrite kept_snoc.
  destruct (existsb _ _) eqn:E.
  - rewrite app_nil_r. apply IH; assumption.
  - apply sorted_snoc; [apply IH; assumption|].
    apply Forall_forall. intros a Ha.
    assert (Hle : key_le a c).
    { rewrite Forall_forall in Hc. apply Hc. apply kept_incl. exact Ha. }
    assert (Hno : ~ (start c < end_ a /\ start a < end_ c)).
    { intros Ho. rewrite <- not_true_iff_false in E. apply E.
      apply overlapping_kept. exists a. split; assumption. }
    unfold precedes, key_le in *. lia.
Qed.

(** Among the candidates that start where a kept one starts, the kept one
    has the least priority number. *)
Lemma kept_least_priority l :
  StronglySorted key_le l ->
  Forall nonempty l ->
  forall a x, In a (kept l) -> In x l -> start x = start a ->
              priority a <= priority x.
Proof.
  induction l as [|c l IH] using rev_ind; intros Hs Hn a x Ha Hx Hsa;
    [destruct Hx|].
  apply sorted_snoc_inv in Hs. destruct Hs as [Hs Hc].
  apply Forall_app in Hn. destruct Hn as [Hn Hcn].
  inversion Hcn as [|? ? Hcne _]; subst. unfold nonempty in Hcne.
  pose proof Hn as Hnl. rewrite Forall_forall in Hc, Hn.
  assert (Hold : forall a', In a' (kept l) -> start c = start a' ->
                            priority a' <= priority c).
  { intros a' Ha' He. apply kept_incl in Ha'. apply Hc in Ha'.
    unfold key_le in Ha'. lia. }
  rewrite kept_snoc in Ha. apply in_app_iff in Ha. apply in_app_iff in Hx.
  destruct Ha as [Ha|Ha].
  - destruct Hx as [Hx|[<-|[]]].
    + apply IH; assumption.
    + apply Hold; assumption.
  - destruct (existsb _ _) eqn:E; [destruct Ha|].
    destruct Ha as [<-|[]].
    destruct Hx as [Hx|[<-|[]]]; [|lia].
    exfalso. rewrite <- not_true_iff_false in E. apply E.
    apply overlapping_kept.
    pose proof (Hn x Hx) as Hxne. unfold nonempty in Hxne.
    destruct (kept_or_overlapped l x Hx) as [Hk|[a' [Ha' Ho]]].
    + exists x. split; [exact Hk|]. lia.
    + exists a'. split; [exact Ha'|].
      apply kept_incl in Ha'. apply Hc in Ha'. unfold key_le in Ha'. lia.
Qed.

End FilterFacts.

(** * The scan as a whole *)

Module ScanFacts.

Import MatcherFacts ExecFacts LoopFacts PoolFacts SortFacts FilterFacts.

Lemma sorted_before (A : Type) (R : A -> A -> Prop) l x l' :
  StronglySorted R (l ++ x :: l') -> Forall (fun a => R a x) l.
Proof.
  induction l as [|y l IH]; simpl; intros H; [constructor|].
  inversion H as [|? ? Hs Hf]; subst.
  constructor; [|apply IH; exact Hs].
  rewrite Forall_forall in Hf. apply Hf. apply in_app_iff. right. left. reflexivity.
Qed.

Lemma sorted_map (A B : Type) (R : B -> B -> Prop) (f : A -> B) l :
  StronglySorted (fun a b => R (f a) (f b)) l -> StronglySorted R (map f l).
Proof.
  induction 1 as [|y l Hs IH Hy]; simpl; constructor; [exact IH|].
  apply Forall_map. exact Hy.
Qed.

Lemma sorted_impl (A : Type) (R R' : A -> A -> Prop) l :
  (forall a b, R a b -> R' a b) -> StronglySorted R l -> StronglySorted R' l.
Proof.
  intros HR. induction 1 as [|y l Hs IH Hy]; constructor; [exact IH|].
  eapply Forall_impl; [|exact Hy]. intros a. apply HR.
Qed.

(** The builder accepts ranges that come sorted by [from]. *)
Lemma add_all_sorted fs : forall builder,
  StronglySorted (fun a b => from a <= from b)
                 (builder ++ map span_of_filtered fs) ->
  add_all builder fs = Val (builder ++ map span_of_filtered fs).
Proof.
  induction fs as [|m fs IH]; intros builder H; simpl.
  - rewrite app_nil_r. reflexivity.
  - assert (Hadd : add builder (f_start m) (f_end m) (f_decoration m)
                   = Val (builder ++ [span_of_filtered m])).
    { unfold add. destruct builder as [|z b0 _] using rev_ind; [reflexivity|].
      rewrite map_app. simpl. rewrite last_last.
      apply sorted_before in H.
      apply Forall_app in H. destruct H as [_ H].
      inversion H as [|? ? Hz _]; subst. simpl in Hz.
      apply Nat.ltb_ge in Hz. rewrite Hz. reflexivity. }
    rewrite Hadd. simpl. rewrite IH; rewrite <- app_assoc; [reflexivity|exact H].
Qed.

Lemma span_of_kept l :
  map span_of_filtered (map pushed_of l) = map span_of l.
Proof. rewrite map_map. reflexivity. Qed.

Lemma inside_nonempty text pool :
  Forall (inside text) pool -> Forall nonempty pool.
Proof. apply Forall_impl. intros c [H _]. exact H. Qed.

Lemma sorted_nonempty pool :
  Forall nonempty pool -> Forall nonempty (sort compareFn pool).
Proof.
  intros H. apply Forall_forall. intros c Hc.
  rewrite Forall_forall in H. apply H.
  apply (Permutation_in _ (sort_perm compareFn pool)). exact Hc.
Qed.

(** The shape of every scan: the pool exists, its candidates are non-empty
    ranges of the text, and the decoration set is made of the candidates
    kept from the sorted pool, in that order. *)
Lemma highlightYara_spec text :
  exists pool,
    collect (length text + 2) text = Val pool /\
    Forall (inside text) pool /\
    highlightYara text = Val (map span_of (kept (sort compareFn pool))).
Proof.
  destruct (collect_total text) as [pool [Hc Hin]].
  exists pool. split; [exact Hc|]. split; [exact Hin|].
  unfold highlightYara, highlightYara_in. rewrite Hc. simpl.
  rewrite filter_matches_kept.
  rewrite add_all_sorted; simpl; rewrite span_of_kept; [reflexivity|].
  apply sorted_map.
  apply sorted_impl with (R := precedes); [intros a b [H _]; exact H|].
  apply kept_chain; [apply sort_sorted|].
  apply sorted_nonempty. apply (inside_nonempty Hin).
Qed.

End ScanFacts.

(** * The claims *)

Module Claims.

Import MatcherFacts ExecFacts LoopFacts PoolFacts SortFacts FilterFacts ScanFacts.

Lemma sorted_nth (A : Type) (R : A -> A -> Prop) l :
  StronglySorted R l ->
  forall i j a b,
    i < j -> nth_error l i = Some a -> nth_error l j = Some b -> R a b.
Proof.
  induction 1 as [|y l Hs IH Hy]; intros i j a b Hij Ha Hb.
  - destruct i; discriminate.
  - destruct j as [|j]; [lia|]. simpl in Hb.
    destruct i as [|i]; simpl in Ha.
    + inversion Ha; subst. rewrite Forall_forall in Hy. apply Hy.
      eapply nth_error_In. exact Hb.
    + apply (IH i j); [lia|assumption|assumption].
Qed.

Lemma kept_inside text pool :
  Forall (inside text) pool ->
  Forall (inside text) (kept (sort compareFn pool)).
Proof.
  intros H. apply Forall_forall. intros c Hc.
  rewrite Forall_forall in H. apply H.
  apply (Permutation_in _ (sort_perm compareFn pool)).
  apply kept_incl. exact Hc.
Qed.

Lemma spans_within text l :
  Forall (inside text) l -> within text (map span_of l).
Proof.
  intros H. unfold within. apply Forall_map.
  eapply Forall_impl; [|exact H]. intros c Hc. exact Hc.
Qed.

Lemma spans_ordered l :
  StronglySorted precedes l -> ordered (map span_of l).
Proof.
  intros H i j a b Hij Ha Hb.
  assert (Hs : StronglySorted (fun a b => to a <= from b /\ from a <= from b)
                              (map span_of l)).
  { apply sorted_map. eapply sorted_impl; [|exact H].
    intros x y [H1 H2]. simpl. split; assumption. }
  apply (sorted_nth Hs Hij Ha Hb).
Qed.

Lemma ordered_distinct text spans :
  within text spans -> ordered spans -> distinct_ranges spans.
Proof.
  intros Hw Ho i j a b Hij Ha Hb [Hf Ht].
  unfold within in Hw. rewrite Forall_forall in Hw.
  pose proof (Hw a (nth_error_In _ _ Ha)) as Wa.
  pose proof (Hw b (nth_error_In _ _ Hb)) as Wb.
  destruct (Nat.lt_ge_cases i j) as [Hlt|Hge].
  - pose proof (Ho i j a b Hlt Ha Hb). lia.
  - assert (Hlt : j < i) by lia.
    pose proof (Ho j i b a Hlt Hb Ha). lia.
Qed.

(** The scan of any text ends with spans that lie in the text, in order,
    without overlap. *)
Lemma scan_valid text :
  exists spans,
    highlightYara text = Val spans /\
    within text spans /\ ordered spans /\ distinct_ranges spans.
Proof.
  destruct (highlightYara_spec text) as [pool [Hc [Hin Hh]]].
  eexists. split; [exact Hh|].
  assert (Hw : within text (map span_of (kept (sort compareFn pool))))
    by (apply spans_within, kept_inside, Hin).
  assert (Ho : ordered (map span_of (kept (sort compareFn pool)))).
  { apply spans_ordered. apply kept_chain; [apply sort_sorted|].
    apply sorted_nonempty. apply (inside_nonempty Hin). }
  split; [exact Hw|]. split; [exact Ho|].
  apply (ordered_distinct Hw Ho).
Qed.

(** C1.  For every input text the scan returns a span list in which, for
    all [i < j], span [i] ends at or before the start of span [j] (so the
    spans do not overlap and are in ascending order of start), and in which
    no two spans have the same (start, end) range. *)
Theorem output_sorted_disjoint (text : Text) :
  exists spans,
    highlightYara text = Val spans /\ ordered spans /\ distinct_ranges spans.
Proof.
  destruct (scan_valid text) as [spans [H [_ [Ho Hd]]]].
  exists spans. auto.
Qed.

Lemma sort_is_stable_sort pool : stable_sort_of pool (sort compareFn pool).
Proof.
  split; [apply sort_perm|]. split; [apply sort_sorted|].
  intros c. apply sort_stable.
Qed.

Lemma touching_no_overlap c a : touches c a -> overlaps c a = false.
Proof.
  unfold touches, overlaps. intros [H|H]; rewrite H.
  - rewrite Nat.ltb_irrefl. reflexivity.
  - rewrite Nat.ltb_irrefl. apply andb_false_r.
Qed.

Lemma filter_matches_snoc l c :
  filter_matches (l ++ [c])
  = filter_matches l ++
    (if existsb (overlaps c) (filter_matches l) then [] else [pushed_of c]).
Proof.
  rewrite !filter_matches_kept, kept_snoc, map_app.
  destruct (existsb _ _); reflexivity.
Qed.

Lemma filter_matches_pair x y :
  overlaps y (pushed_of x) = false ->
  filter_matches [x; y] = [pushed_of x; pushed_of y].
Proof.
  intros H. unfold filter_matches. simpl. unfold filter_step at 2. simpl.
  unfold filter_step. simpl. fold (pushed_of x). rewrite H. reflexivity.
Qed.

(** C2.  The scan resolves the pool this way: its output is the walk over
    the sorted pool, entry for entry.  The sort is stable, by (start
    ascending, priority ascending); the walk over the sorted list keeps a
    candidate exactly when it overlaps none of the entries kept before it,
    where a candidate overlaps an entry when it starts before the entry
    ends and ends after the entry starts; ranges that only touch do not
    overlap, and two touching candidates are both kept. *)
Theorem resolver_sorts_then_filters :
  (forall text, exists pool,
      collect (length text + 2) text = Val pool /\
      highlightYara text
      = Val (map span_of_filtered (filter_matches (sort compareFn pool)))) /\
  (forall pool, stable_sort_of pool (sort compareFn pool)) /\
  (forall l c,
     filter_matches (l ++ [c])
     = filter_matches l ++
       (if existsb (overlaps c) (filter_matches l) then [] else [pushed_of c])) /\
  (forall c a,
     overlaps c a = true <-> start c < f_end a /\ end_ c > f_start a) /\
  (forall c a, touches c a -> overlaps c a = false) /\
  (forall a c,
     end_ a = start c ->
     Permutation (filter_matches (sort compareFn [a; c]))
                 [pushed_of a; pushed_of c]).
Proof.
  split.
  { intros text. destruct (highlightYara_spec text) as [pool [Hc [_ Hh]]].
    exists pool. split; [exact Hc|].
    rewrite filter_matches_kept, span_of_kept. exact Hh. }
  split; [exact sort_is_stable_sort|].
  split; [exact filter_matches_snoc|].
  split.
  { intros c a. unfold overlaps. rewrite andb_true_iff, !Nat.ltb_lt. lia. }
  split; [exact touching_no_overlap|].
  intros a c Hac. simpl.
  destruct (compareFn c a <? 0)%Z.
  - rewrite filter_matches_pair; [apply perm_swap|].
    apply touching_no_overlap. right. simpl. exact Hac.
  - rewrite filter_matches_pair; [apply Permutation_refl|].
    apply touching_no_overlap. left. simpl. symmetry. exact Hac.
Qed.

(** C3.  Of two candidates of the pool that start at the same position, the
    one with the higher priority number is never among the kept
    candidates, whatever the two ends are (equal or not): if either is
    retained, it is the one with the lower priority number. *)
Theorem lower_priority_number_wins (text : Text) (pool : list Candidate)
        (c1 c2 : Candidate) :
  collect (length text + 2) text = Val pool ->
  In c1 pool -> In c2 pool ->
  start c1 = start c2 ->
  priority c1 < priority c2 ->
  highlightYara text = Val (map span_of (kept (sort compareFn pool))) /\
  ~ In c2 (kept (sort compareFn pool)).
Proof.
  intros Hc H1 H2 Hs Hp.
  destruct (highlightYara_spec text) as [pool' [Hc' [Hin Hh]]].
  rewrite Hc in Hc'. inversion Hc'; subst pool'.
  split; [exact Hh|]. intros Hk.
  assert (priority c2 <= priority c1); [|lia].
  apply (@kept_least_priority (sort compareFn pool)); try assumption.
  - apply sort_sorted.
  - apply sorted_nonempty. apply (inside_nonempty Hin).
  - apply (Permutation_in _ (Permutation_sym (sort_perm compareFn pool))).
    exact H1.
Qed.

(** On [//x] the comment (priority 1) and the operator run (priority 7)
    both start at 0 and end at different places. *)
Lemma lower_priority_number_wins_witness :
  highlightYara (text_of "//x")
  = Val (map span_of
           (kept (sort compareFn
                    [mkCandidate 0 3 commentDecoration 1;
                     mkCandidate 0 2 operatorDecoration 7]))) /\
  ~ In (mkCandidate 0 2 operatorDecoration 7)
       (kept (sort compareFn
                [mkCandidate 0 3 commentDecoration 1;
                 mkCandidate 0 2 operatorDecoration 7])).
Proof.
  apply (@lower_priority_number_wins (text_of "//x")
           [mkCandidate 0 3 commentDecoration 1;
            mkCandidate 0 2 operatorDecoration 7]
           (mkCandidate 0 3 commentDecoration 1)
           (mkCandidate 0 2 operatorDecoration 7)).
  - vm_compute. reflexivity.
  - simpl. auto.
  - simpl. auto.
  - reflexivity.
  - simpl. lia.
Defined.

Lemma Candidate_eq_dec (a b : Candidate) : {a = b} + {a <> b}.
Proof. repeat decide equality. Defined.

(** The pool is what the twelve patterns find, each run on its own, put
    end to end. *)
Lemma pool_alone fuel text pool :
  collect fuel text = Val pool ->
  exists found,
    Forall2 (fun p ms => run_alone fuel text p = Val ms) catalogue found /\
    pool = concat found.
Proof.
  rewrite collect_run_all. intros H.
  apply run_all_alone in H. exact H.
Qed.

(** C4.  Every span of the output is a kept candidate with its start and
    end as the pattern reported them; and each match reported by a pattern
    run on its own either has a span with exactly its range in the output,
    or is not among the kept candidates at all, a kept candidate that it
    overlaps having been taken before it. *)
Theorem match_kept_whole_or_dropped (text : Text) :
  exists found keptc,
    Forall2 (fun p ms => run_alone (length text + 2) text p = Val ms)
            catalogue found /\
    highlightYara text = Val (map span_of keptc) /\
    incl keptc (concat found) /\
    forall c,
      In c (concat found) ->
      (exists s, In s (map span_of keptc) /\
                 from s = start c /\ to s = end_ c) \/
      (~ In c keptc /\
       exists a, In a keptc /\ start c < end_ a /\ start a < end_ c).
Proof.
  destruct (highlightYara_spec text) as [pool [Hc [Hin Hh]]].
  destruct (pool_alone _ _ Hc) as [found [Hf ->]].
  exists found, (kept (sort compareFn (concat found))).
  split; [exact Hf|]. split; [exact Hh|]. split.
  - intros c Hk. apply kept_incl in Hk.
    apply (Permutation_in _ (sort_perm compareFn _)). exact Hk.
  - intros c Hcin.
    destruct (in_dec Candidate_eq_dec c (kept (sort compareFn (concat found))))
      as [Hk|Hn].
    + left. exists (span_of c). split; [apply in_map; exact Hk|]. auto.
    + right. split; [exact Hn|].
      destruct (kept_or_overlapped (sort compareFn (concat found)) c)
        as [Hk|Ho]; [|contradiction|exact Ho].
      apply (Permutation_in _ (Permutation_sym (sort_perm compareFn _))).
      exact Hcin.
Qed.

(** C10.  The walk always keeps the first candidate of the sorted list, so
    a pool that is not empty gives an output that is not empty: if some
    pattern, run on its own, finds a match, the scan returns at least one
    span. *)
Theorem first_candidate_kept (text : Text) :
  (forall c rest, exists more,
      filter_matches (c :: rest) = pushed_of c :: more) /\
  exists found spans,
    Forall2 (fun p ms => run_alone (length text + 2) text p = Val ms)
            catalogue found /\
    highlightYara text = Val spans /\
    (forall c rest, sort compareFn (concat found) = c :: rest ->
                    exists more, spans = span_of c :: more) /\
    (Exists (fun ms => ms <> []) found -> spans <> []).
Proof.
  split.
  { intros c rest. rewrite filter_matches_kept.
    destruct (kept_first c rest) as [more ->]. exists (map pushed_of more).
    reflexivity. }
  destruct (highlightYara_spec text) as [pool [Hc [Hin Hh]]].
  destruct (pool_alone _ _ Hc) as [found [Hf ->]].
  exists found, (map span_of (kept (sort compareFn (concat found)))).
  split; [exact Hf|]. split; [exact Hh|].
  assert (Hfirst : forall c rest,
             sort compareFn (concat found) = c :: rest ->
             exists more,
               map span_of (kept (sort compareFn (concat found)))
               = span_of c :: more).
  { intros c rest E. rewrite E.
    destruct (kept_first c rest) as [more ->]. exists (map span_of more).
    reflexivity. }
  split; [exact Hfirst|].
  intros Hex.
  destruct (sort compareFn (concat found)) as [|c rest] eqn:E.
  - exfalso. apply Exists_exists in Hex. destruct Hex as [ms [Hms Hne]].
    destruct ms as [|c ms]; [contradiction|].
    assert (Hcin : In c (concat found)).
    { apply in_concat. exists (c :: ms). split; [exact Hms|left; reflexivity]. }
    apply (Permutation_in _ (Permutation_sym (sort_perm compareFn _))) in Hcin.
    rewrite E in Hcin. destruct Hcin.
  - destruct (Hfirst c rest eq_refl) as [more Hm].
    rewrite Hm. discriminate.
Qed.

Lemma collect_functional text fuel1 fuel2 pool1 pool2 :
  collect fuel1 text = Val pool1 ->
  collect fuel2 text = Val pool2 ->
  pool1 = pool2.
Proof.
  rewrite !collect_run_all. intros H1 H2.
  apply (run_all_more_fuel _ _ _ (Nat.le_max_l fuel1 fuel2)) in H1.
  apply (run_all_more_fuel _ _ _ (Nat.le_max_r fuel1 fuel2)) in H2.
  congruence.
Qed.

(** C5.  The scan is deterministic: [highlightYara] is a run of the scan,
    and any two runs on the same text give the same result, span for span
    (ranges, decorations and order); so the plugin, updated with the text
    it was built on, holds the same decorations whether it scans again or
    not. *)
Theorem scan_deterministic (text : Text) :
  scan_run text (highlightYara text) /\
  (forall out1 out2, scan_run text out1 -> scan_run text out2 -> out1 = out2) /\
  (forall u, view u = text -> update (constructor text) u = constructor text).
Proof.
  split; [|split]; cycle 2.
  { intros u <-. unfold update, constructor.
    destruct (docChanged u || viewportChanged u); reflexivity. }
  - destruct (collect_total text) as [pool [Hc _]].
    exists (length text + 2), pool, (sort compareFn pool).
    split; [exact Hc|]. split; [apply sort_is_stable_sort|].
    unfold highlightYara, highlightYara_in. rewrite Hc. reflexivity.
  - intros out1 out2 [f1 [p1 [s1 [Hc1 [[_ [Hs1 Hf1]] ->]]]]]
           [f2 [p2 [s2 [Hc2 [[_ [Hs2 Hf2]] ->]]]]].
    assert (p1 = p2) as -> by (eapply collect_functional; eassumption).
    assert (s1 = s2) as ->; [|reflexivity].
    apply stable_sorted_unique; try assumption.
    intros c. rewrite Hf1, Hf2. reflexivity.
Qed.

(** C6.  The scan is total: for every text it returns a span list, does not
    throw, and needs no more than [|text| + 2] rounds in any match loop; the
    spans lie in the text, are non-empty, in order and disjoint; an empty
    pool gives the empty list, and so does the empty text. *)
Theorem scan_total (text : Text) :
  (exists spans,
      highlightYara text = Val spans /\
      (forall fuel, length text + 2 <= fuel ->
                    highlightYara_in fuel text = Val spans) /\
      within text spans /\ ordered spans /\ distinct_ranges spans /\
      (collect (length text + 2) text = Val [] -> spans = [])) /\
  highlightYara [] = Val [].
Proof.
  split; [|reflexivity].
  destruct (scan_valid text) as [spans [Hh [Hw [Ho Hd]]]].
  exists spans. split; [exact Hh|].
  destruct (highlightYara_spec text) as [pool [Hc [_ Hh']]].
  split.
  { intros fuel Hf. unfold highlightYara, highlightYara_in in *.
    rewrite (collect_more_fuel _ Hf Hc). rewrite Hc in Hh. exact Hh. }
  split; [exact Hw|]. split; [exact Ho|]. split; [exact Hd|].
  intros He. rewrite He in Hc. inversion Hc; subst pool.
  rewrite Hh' in Hh. inversion Hh. reflexivity.
Qed.

(** C7.  No pattern of the catalogue matches the empty string: whatever
    [exec] returns for one of them has a [match[0]] of length 1 at least.
    So every candidate of the pool, and every span of the output, has
    [start < end]. *)
Theorem no_zero_length_match (text : Text) :
  (forall re body i m re',
      In (re, body) catalogue ->
      exec (mkRegExp (source re) (multilineFlag re) i) text = (Some m, re') ->
      1 <= length (whole m)) /\
  exists pool spans,
    collect (length text + 2) text = Val pool /\
    Forall (fun c => start c < end_ c) pool /\
    highlightYara text = Val spans /\
    Forall (fun s => from s < to s) spans.
Proof.
  split.
  - intros re body i m re' Hin E.
    pose proof (catalogue_sound text) as Hs. rewrite Forall_forall in Hs.
    destruct (Hs _ Hin) as [_ [Hmin _]]. simpl in Hmin.
    apply exec_some in E. simpl in E.
    destruct E as [y [Hy [Hidx [_ [Hw _]]]]].
    apply first_match_bounds in Hy; [|lia].
    rewrite Hw, substring_length by lia. lia.
  - destruct (highlightYara_spec text) as [pool [Hc [Hin Hh]]].
    exists pool, (map span_of (kept (sort compareFn pool))).
    split; [exact Hc|]. split; [exact (inside_nonempty Hin)|].
    split; [exact Hh|].
    apply Forall_map. apply kept_inside in Hin.
    eapply Forall_impl; [|exact Hin]. intros c [H _]. exact H.
Qed.

Lemma lit_forward text ml a e caps :
  matcher text ml (lit a) true (mkState e caps)
  = match nth_error text e with
    | Some c => if (c =? cu a)%N then [mkState (S e) caps] else []
    | None => []
    end.
Proof.
  simpl. destruct (nth_error text e) as [c|]; [|reflexivity].
  rewrite orb_false_r. reflexivity.
Qed.

Lemma any_forward text ml e caps :
  matcher text ml any_unit true (mkState e caps)
  = match nth_error text e with
    | Some _ => [mkState (S e) caps]
    | None => []
    end.
Proof.
  simpl. destruct (nth_error text e) as [c|]; [|reflexivity].
  destruct (isSpace c); reflexivity.
Qed.

Lemma repeat_lazy_step m inner n x :
  repeat_matcher m inner false (S n) 0 x
  = x :: flat_map (fun y => if endIndex y =? endIndex x then []
                            else repeat_matcher m inner false n 0 y)
                  (m (clear_captures inner x)).
Proof. reflexivity. Qed.

Lemma lazy_any text ml : forall n e,
  e <= length text -> length text - e < n ->
  repeat_matcher (matcher text ml any_unit true) [] false n 0 (mkState e [])
  = map (fun q => mkState q []) (seq e (length text - e + 1)).
Proof.
  induction n as [|n IH]; intros e He Hn; [lia|].
  rewrite repeat_lazy_step.
  change (clear_captures [] (mkState e [])) with (mkState e []).
  rewrite any_forward.
  destruct (nth_error text e) as [c|] eqn:E.
  - assert (e < length text) by (apply nth_error_Some; congruence).
    unfold flat_map. change (endIndex (mkState (S e) [])) with (S e).
    change (endIndex (mkState e [])) with e.
    destruct (Nat.eqb_spec (S e) e) as [Hee|_]; [lia|].
    rewrite app_nil_r, IH by lia.
    replace (length text - e + 1) with (S (length text - S e + 1)) by lia.
    reflexivity.
  - apply nth_error_None in E.
    replace (length text - e + 1) with 1 by lia. reflexivity.
Qed.

Lemma matcher_seq text ml r1 r2 x :
  matcher text ml (Seq r1 r2) true x
  = flat_map (matcher text ml r2 true) (matcher text ml r1 true x).
Proof. reflexivity. Qed.

Lemma pair_forward text ml a b e :
  matcher text ml (Seq (lit a) (lit b)) true (mkState e [])
  = if has_pair text a b e then [mkState (e + 2) []] else [].
Proof.
  rewrite matcher_seq, lit_forward. unfold has_pair.
  destruct (nth_error text e) as [c|]; [|reflexivity].
  destruct (c =? cu a)%N; cbn [flat_map andb].
  - rewrite app_nil_r, lit_forward.
    destruct (nth_error text (S e)) as [d|]; [|reflexivity].
    replace (e + 2) with (S (S e)) by lia.
    destruct (d =? cu b)%N; reflexivity.
  - destruct (nth_error text (S e)); reflexivity.
Qed.

Lemma flat_map_pairs text ml a b l :
  flat_map (matcher text ml (Seq (lit a) (lit b)) true)
           (map (fun q => mkState q []) l)
  = map (fun q => mkState (q + 2) []) (filter (has_pair text a b) l).
Proof.
  induction l as [|q l IH]; [reflexivity|].
  cbn [map flat_map filter]. rewrite IH, pair_forward.
  destruct (has_pair text a b q); reflexivity.
Qed.

Lemma multiComment_matcher text s :
  matcher text false (source multiCommentRegex) true (mkState s [])
  = if has_pair text "/" "*" s
    then map (fun q => mkState (q + 2) [])
             (filter (has_pair text "*" "/")
                     (seq (s + 2) (length text - (s + 2) + 1)))
    else [].
Proof.
  change (source multiCommentRegex)
    with (Seq (lit "/") (Seq (lit "*") (Seq (Quant 0 None false any_unit)
                                            (Seq (lit "*") (lit "/"))))).
  rewrite matcher_seq, lit_forward. unfold has_pair at 1.
  destruct (nth_error text s) as [c|]; [|reflexivity].
  destruct (c =? cu "/")%N; [|destruct (nth_error text (S s)); reflexivity].
  cbn [flat_map]. rewrite app_nil_r.
  rewrite matcher_seq, lit_forward.
  destruct (nth_error text (S s)) as [d|] eqn:E; [|reflexivity].
  destruct (d =? cu "*")%N; [|reflexivity].
  assert (S s < length text) by (apply nth_error_Some; congruence).
  cbn [flat_map andb]. rewrite app_nil_r.
  rewrite matcher_seq.
  rewrite (@unbounded_quantifier text false 0 false any_unit _ (length text + 1))
    by (simpl; lia).
  change (group_ids any_unit) with (@nil nat).
  rewrite lazy_any by lia.
  rewrite flat_map_pairs.
  replace (s + 2) with (S (S s)) by lia. reflexivity.
Qed.

Lemma first_of_filter (f : nat -> bool) : forall n a q,
  hd_error (filter f (seq a n)) = Some q ->
  a <= q < a + n /\ f q = true /\ forall j, a <= j < q -> f j = false.
Proof.
  induction n as [|n IH]; intros a q H; simpl in H; [discriminate|].
  destruct (f a) eqn:E.
  - inversion H; subst. repeat split; try lia. exact E.
  - apply IH in H. destruct H as [Hq [Hf Hj]].
    repeat split; try lia; [exact Hf|].
    intros j Hr. destruct (Nat.eq_dec j a) as [->|Hne]; [exact E|].
    apply Hj. lia.
Qed.

Lemma filter_finds (f : nat -> bool) n a q :
  a <= q < a + n -> f q = true -> hd_error (filter f (seq a n)) <> None.
Proof.
  intros Hq Hf H.
  assert (Hin : In q (filter f (seq a n))).
  { apply filter_In. split; [apply List.in_seq; lia|exact Hf]. }
  destruct (filter f (seq a n)); [destruct Hin|discriminate].
Qed.

Lemma has_pair_inside text a b i : has_pair text a b i = true -> i + 2 <= length text.
Proof.
  unfold has_pair. intros H.
  destruct (nth_error text i); [|discriminate].
  destruct (nth_error text (S i)) eqn:E; [|discriminate].
  assert (S i < length text) by (apply nth_error_Some; congruence). lia.
Qed.

(** Where the block comment pattern matches, and how far. *)
Lemma block_comment_match text s y :
  first_match text false (source multiCommentRegex) s = Some y ->
  opens_at text s /\
  exists q, endIndex y = q + 2 /\ s + 2 <= q /\ closes_at text q /\
            forall j, s + 2 <= j < q -> ~ closes_at text j.
Proof.
  unfold first_match, opens_at, closes_at. rewrite multiComment_matcher.
  destruct (has_pair text "/" "*" s); [|discriminate].
  intros H. split; [reflexivity|].
  destruct (filter _ _) as [|q l] eqn:E; [discriminate|].
  simpl in H. inversion H; subst. exists q.
  assert (Hq : hd_error (filter (has_pair text "*" "/")
                                (seq (s + 2) (length text - (s + 2) + 1)))
               = Some q) by (rewrite E; reflexivity).
  apply first_of_filter in Hq. destruct Hq as [Hr [Hf Hj]].
  repeat split; try lia; [exact Hf|].
  intros j Hjr Hc. rewrite Hj in Hc by lia. discriminate.
Qed.

Lemma block_comment_closed text s q :
  opens_at text s -> s + 2 <= q -> closes_at text q ->
  first_match text false (source multiCommentRegex) s <> None.
Proof.
  unfold first_match, opens_at, closes_at. rewrite multiComment_matcher.
  intros -> Hq Hc H.
  pose proof (has_pair_inside _ _ _ _ Hc) as Hin.
  apply (@filter_finds (has_pair text "*" "/")
           (length text - (s + 2) + 1) (s + 2) q); [lia|exact Hc|].
  destruct (filter _ _); [reflexivity|discriminate].
Qed.

Lemma block_comment_open text s :
  opens_at text s ->
  (forall q, s + 2 <= q -> ~ closes_at text q) ->
  first_match text false (source multiCommentRegex) s = None.
Proof.
  intros Ho Hno.
  destruct (first_match text false (source multiCommentRegex) s) as [y|] eqn:E;
    [|reflexivity].
  apply block_comment_match in E. destruct E as [_ [q [_ [Hq [Hc _]]]]].
  exfalso. apply (Hno q Hq Hc).
Qed.

Lemma push_match_first text src ml d p i m re' :
  1 <= min_length src ->
  exec (mkRegExp src ml i) text = (Some m, re') ->
  exists cs, push_match d p m = Val cs /\ Forall (match_of text ml src) cs.
Proof.
  intros Hmin E. apply exec_some in E. simpl in E.
  destruct E as [y [Hy [Hidx [_ [Hw _]]]]].
  pose proof (@first_match_bounds _ _ _ _ _ (proj2 Hidx) Hy) as Hb.
  eexists. split; [reflexivity|].
  constructor; [|constructor]. exists y. simpl. split; [exact Hy|].
  rewrite Hw, substring_length by lia. lia.
Qed.

(** The loop leaves no match outside the candidates: a position where the
    pattern matches lies in one of them. *)
Lemma while_exec_covers text src ml d p :
  1 <= min_length src ->
  forall fuel i acc out,
    i <= length text ->
    while_exec fuel (mkRegExp src ml i) text (push_match d p) acc = Val out ->
    (forall j, j < i -> first_match text ml src j <> None ->
               exists c, In c acc /\ start c <= j < end_ c) ->
    forall j, j <= length text -> first_match text ml src j <> None ->
              exists c, In c out /\ start c <= j < end_ c.
Proof.
  intros Hmin.
  induction fuel as [|fuel IH]; intros i acc out Hi H Hinv j Hj Hm;
    simpl in H; [discriminate|].
  destruct (exec (mkRegExp src ml i) text) as [[m|] re'] eqn:E.
  - apply exec_some in E. simpl in E.
    destruct E as [y [Hy [Hidx [Hnone [Hw [_ ->]]]]]].
    pose proof (@first_match_bounds _ _ _ _ _ (proj2 Hidx) Hy) as Hb.
    simpl in H.
    apply (IH (endIndex y) _ out) with (j := j) in H; try assumption; [lia|].
    intros k Hk Hkm.
    destruct (Nat.lt_ge_cases k i) as [Hlt|Hge].
    + destruct (Hinv k Hlt Hkm) as [c [Hc Hr]].
      exists c. split; [apply in_app_iff; left; exact Hc|exact Hr].
    + destruct (Nat.lt_ge_cases k (index m)) as [Hlt'|Hge'].
      * exfalso. apply Hkm. apply Hnone. lia.
      * eexists. split; [apply in_app_iff; right; left; reflexivity|].
        simpl. rewrite Hw, substring_length by lia. lia.
  - inversion H; subst. apply exec_none in E. simpl in E.
    destruct E as [_ Hnone].
    destruct (Nat.lt_ge_cases j i) as [Hlt|Hge].
    + apply Hinv; assumption.
    + exfalso. apply Hm. apply Hnone. lia.
Qed.

(** X18.  The block comment pattern, run over any text, gives candidates
    that each start at a [/*], end with the nearest [*/] that begins two
    code units or more after the start, and contain no earlier such [*/];
    and every [/*] that has a [*/] after it lies in one of the
    candidates. *)
Theorem block_comment_to_nearest_close (text : Text) :
  exists ms,
    block_comments text = Val ms /\
    (forall c, In c ms ->
       opens_at text (start c) /\
       start c + 4 <= end_ c /\
       closes_at text (end_ c - 2) /\
       forall j, start c + 2 <= j < end_ c - 2 -> ~ closes_at text j) /\
    (forall s q, opens_at text s -> s + 2 <= q -> closes_at text q ->
       exists c, In c ms /\ start c <= s < end_ c).
Proof.
  assert (Hmin : 1 <= min_length (source multiCommentRegex))
    by (vm_compute; lia).
  destruct (@while_exec_total text (source multiCommentRegex) false
              (push_match commentDecoration 1)
              (match_of text false (source multiCommentRegex)) Hmin
              (fun i m re' => @push_match_first text _ false _ _ i m re' Hmin)
              (length text + 2) 0 [])
    as [ms [Hrun Hall]]; [lia|lia|constructor|].
  exists ms. split; [exact Hrun|].
  rewrite Forall_forall in Hall.
  split.
  - intros c Hc. destruct (Hall c Hc) as [y [Hy He]].
    apply block_comment_match in Hy.
    destruct Hy as [Ho [q [Hq [Hsq [Hcl Hnear]]]]].
    rewrite He, Hq. replace (q + 2 - 2) with q by lia.
    repeat split; try assumption; lia.
  - intros s q Ho Hq Hcl.
    apply (@while_exec_covers text (source multiCommentRegex) false
             commentDecoration 1 Hmin (length text + 2) 0 [] ms);
      try assumption; try lia.
    + pose proof (has_pair_inside _ _ _ _ Ho). lia.
    + apply (block_comment_closed Ho Hq Hcl).
Qed.

(** C8.  The block comment pattern has no way out for a comment that is
    never closed, where the string pattern next to it has one.  The text
    [/* a] opens a block comment at 0 and never closes it: the block
    comment pattern finds nothing there, and the scan returns an operator
    span over [/*] and no comment span from 0 to the end of the text.  The
    string pattern on [Qa], Q the
    double quote, does give the candidate that runs to the end.  And on
    any text, a [/*] with no [*/] after it starts no block comment
    candidate. *)
Theorem unterminated_block_comment_not_matched :
  opens_at (text_of "/* a") 0 /\
  (forall q, ~ closes_at (text_of "/* a") q) /\
  block_comments (text_of "/* a") = Val [] /\
  highlightYara (text_of "/* a") = Val [mkSpan 0 2 operatorDecoration] /\
  ~ (exists ms c,
        block_comments (text_of "/* a") = Val ms /\ In c ms /\
        start c = 0 /\ end_ c = length (text_of "/* a")) /\
  run_alone 4 (34%N :: text_of "a") (stringRegex, push_match stringDecoration 2)
  = Val [mkCandidate 0 2 stringDecoration 2] /\
  (forall text s,
      opens_at text s ->
      (forall q, s + 2 <= q -> ~ closes_at text q) ->
      exists ms, block_comments text = Val ms /\
                 forall c, In c ms -> start c <> s).
Proof.
  split; [reflexivity|]. split.
  { intros q H.
    do 4 (destruct q as [|q]; [vm_compute in H; discriminate|]).
    apply has_pair_inside in H. simpl in H. lia. }
  split; [vm_compute; reflexivity|].
  split; [vm_compute; reflexivity|].
  split.
  { intros [ms [c [Hrun [Hc _]]]].
    vm_compute in Hrun. inversion Hrun; subst ms. destruct Hc. }
  split; [vm_compute; reflexivity|].
  intros text s Ho Hno.
  assert (Hmin : 1 <= min_length (source multiCommentRegex))
    by (vm_compute; lia).
  destruct (@while_exec_total text (source multiCommentRegex) false
              (push_match commentDecoration 1)
              (match_of text false (source multiCommentRegex)) Hmin
              (fun i m re' => @push_match_first text _ false _ _ i m re' Hmin)
              (length text + 2) 0 [])
    as [ms [Hrun Hall]]; [lia|lia|constructor|].
  exists ms. split; [exact Hrun|].
  rewrite Forall_forall in Hall.
  intros c Hc Hs. destruct (Hall c Hc) as [y [Hy _]].
  rewrite Hs, (block_comment_open Ho Hno) in Hy. discriminate.
Qed.

(** C9, as amended.  The scan of the scenario text gives six spans: the
    comment over [// hello], the keyword [rule], the rule name [foo], the
    keyword [condition], an operator span over the colon that follows it,
    and the atom [true]; no span is a number. *)
Theorem scenario_spans :
  exists spans,
    highlightYara scenario_text = Val spans /\
    spans = [mkSpan 0 8 commentDecoration;
             mkSpan 9 13 keywordDecoration;
             mkSpan 14 17 ruleNameDecoration;
             mkSpan 20 29 keywordDecoration;
             mkSpan 29 30 operatorDecoration;
             mkSpan 31 35 atomDecoration] /\
    Forall (fun s => value s <> numberDecoration) spans /\
    substring scenario_text 29 30 = text_of ":".
Proof.
  eexists. split; [vm_compute; reflexivity|].
  split; [reflexivity|]. split; [|reflexivity].
  repeat constructor; discriminate.
Qed.

(** C9, as stated, fails: the output is not the five spans listed, since
    it holds an operator span. *)
Lemma scenario_has_operator_span :
  ~ (exists spans,
        highlightYara scenario_text = Val spans /\
        spans = [mkSpan 0 8 commentDecoration;
                 mkSpan 9 13 keywordDecoration;
                 mkSpan 14 17 ruleNameDecoration;
                 mkSpan 20 29 keywordDecoration;
                 mkSpan 31 35 atomDecoration] /\
        Forall (fun s => value s <> operatorDecoration) spans /\
        Forall (fun s => value s <> numberDecoration) spans).
Proof.
  intros [spans [H [E _]]]. subst spans. vm_compute in H. discriminate.
Qed.

End Claims.

(** * The patterns, one by one *)

Module Patterns.

Import MatcherFacts ExecFacts LoopFacts PoolFacts SortFacts FilterFacts ScanFacts Claims.

Lemma first_match_in text ml r i y :
  first_match text ml r i = Some y ->
  In y (matcher text ml r true (mkState i [])).
Proof.
  unfold first_match.
  destruct (matcher text ml r true (mkState i [])) as [|y0 l]; simpl;
    intros H; [discriminate|].
  inversion H. left. reflexivity.
Qed.

Lemma sorted_app (A : Type) (R : A -> A -> Prop) l1 l2 :
  StronglySorted R l1 -> StronglySorted R l2 ->
  (forall a b, In a l1 -> In b l2 -> R a b) ->
  StronglySorted R (l1 ++ l2).
Proof.
  induction 1 as [|x l1 Hs IH Hx]; simpl; intros H2 H; [exact H2|].
  constructor.
  - apply IH; [exact H2|]. intros a b Ha Hb. apply H; [right|]; assumption.
  - apply Forall_app. split; [exact Hx|].
    apply Forall_forall. intros b Hb. apply H; [left; reflexivity|exact Hb].
Qed.

Section Chain.

Variable text : Text.
Variable src : Regex.
Variable ml : bool.
Variable body : Body.

Hypothesis Hmin : 1 <= min_length src.
Hypothesis Hbody : forall i m re',
  exec (mkRegExp src ml i) text = (Some m, re') ->
  exists cs,
    body m = Val cs /\ StronglySorted precedes cs /\
    Forall (fun c => index m <= start c /\ start c < end_ c /\
                     end_ c <= lastIndex re') cs.

(** The candidates of one loop come in text order, each ending before the
    next begins: [exec] resumes where the last match ended. *)
Lemma while_exec_chain : forall fuel i acc out,
  while_exec fuel (mkRegExp src ml i) text body acc = Val out ->
  StronglySorted precedes acc ->
  Forall (fun c => start c < end_ c /\ end_ c <= i) acc ->
  StronglySorted precedes out.
Proof.
  induction fuel as [|fuel IH]; intros i acc out H Hs Hacc; simpl in H;
    [discriminate|].
  destruct (exec (mkRegExp src ml i) text) as [[m|] re'] eqn:E.
  - destruct (Hbody _ E) as [cs [Hcs [Hss Hall]]].
    apply exec_some in E. simpl in E.
    destruct E as [y [Hy [Hidx [_ [_ [_ ->]]]]]].
    pose proof (@first_match_bounds _ _ _ _ _ (proj2 Hidx) Hy) as Hb.
    rewrite Hcs in H. simpl in H, Hall.
    rewrite Forall_forall in Hall, Hacc.
    apply IH in H; [exact H| |].
    + apply sorted_app; try assumption.
      intros a b Ha Hb'. specialize (Hacc a Ha). specialize (Hall b Hb').
      unfold precedes. lia.
    + apply Forall_forall. intros c Hc. apply in_app_iff in Hc.
      destruct Hc as [Hc|Hc]; [specialize (Hacc c Hc)|specialize (Hall c Hc)];
        lia.
  - inversion H; subst. exact Hs.
Qed.

End Chain.

Lemma push_match_chain text src ml d p i m re' :
  1 <= min_length src ->
  exec (mkRegExp src ml i) text = (Some m, re') ->
  exists cs,
    push_match d p m = Val cs /\ StronglySorted precedes cs /\
    Forall (fun c => index m <= start c /\ start c < end_ c /\
                     end_ c <= lastIndex re') cs.
Proof.
  intros Hmin E. apply exec_some in E. simpl in E.
  destruct E as [y [Hy [Hidx [_ [Hw [_ ->]]]]]].
  pose proof (@first_match_bounds _ _ _ _ _ (proj2 Hidx) Hy) as Hb.
  eexists. split; [reflexivity|]. split.
  - constructor; [constructor|constructor].
  - constructor; [|constructor]. simpl.
    rewrite Hw, substring_length by lia. lia.
Qed.

(** What a pattern with a [push_match] body finds when run on its own:
    matches of the pattern, with the decoration and priority of the loop,
    and no position where the pattern matches is left outside them. *)
Lemma alone_matches text re d p :
  lastIndex re = 0 ->
  1 <= min_length (source re) ->
  exists ms,
    run_alone (length text + 2) text (re, push_match d p) = Val ms /\
    Forall (match_of text (multilineFlag re) (source re)) ms /\
    (forall j, j <= length text ->
               first_match text (multilineFlag re) (source re) j <> None ->
               exists c, In c ms /\ start c <= j < end_ c) /\
    StronglySorted precedes ms.
Proof.
  destruct re as [src ml li]. simpl. intros -> Hmin.
  destruct (@while_exec_total text src ml (push_match d p)
              (match_of text ml src) Hmin
              (fun i m re' => @push_match_first text _ ml _ _ i m re' Hmin)
              (length text + 2) 0 [])
    as [ms [Hrun Hall]]; [lia|lia|constructor|].
  exists ms. unfold run_alone. simpl. split; [exact Hrun|].
  split; [exact Hall|]. split.
  - intros j Hj Hm.
    apply (@while_exec_covers text src ml d p Hmin (length text + 2) 0 [] ms);
      try assumption; try lia.
  - apply (@while_exec_chain text src ml (push_match d p) Hmin
             (fun i m re' => @push_match_chain text _ ml d p i m re' Hmin)
             (length text + 2) 0 [] ms Hrun); constructor.
Qed.

(** ** One step of the matcher, read backwards *)

Lemma in_chars text ml cs x y :
  In y (matcher text ml (Chars cs) true x) ->
  (exists c, nth_error text (endIndex x) = Some c /\ set_has cs c = true) /\
  y = move x (S (endIndex x)).
Proof.
  simpl. destruct (nth_error text (endIndex x)) as [c|]; [|intros []].
  destruct (set_has cs c) eqn:E; [|intros []].
  intros [<-|[]]. split; [exists c; auto|reflexivity].
Qed.

Lemma set_has_one a c :
  set_has (Class false [One (cu a)]) c = true -> c = cu a.
Proof.
  simpl. rewrite orb_false_r. apply N.eqb_eq.
Qed.

Lemma in_lit text ml a x y :
  In y (matcher text ml (lit a) true x) ->
  unit_at text a (endIndex x) /\ y = move x (S (endIndex x)).
Proof.
  intros H. apply in_chars in H. destruct H as [[c [Hc Hs]] ->].
  apply set_has_one in Hs. subst c. split; [exact Hc|reflexivity].
Qed.

Lemma in_word_boundary text ml x y :
  In y (matcher text ml WordBoundary true x) ->
  xorb (is_word_before text (endIndex x)) (is_word_at text (endIndex x)) = true
  /\ y = x.
Proof.
  simpl. destruct (xorb _ _); [|intros []]. intros [<-|[]]. auto.
Qed.

Lemma in_line_end text ml x y :
  In y (matcher text ml LineEnd true x) ->
  at_line_end text ml (endIndex x) = true /\ y = x.
Proof.
  simpl. destruct (at_line_end _ _ _); [|intros []]. intros [<-|[]]. auto.
Qed.

Lemma in_line_start text ml x y :
  In y (matcher text ml LineStart true x) ->
  at_line_start text ml (endIndex x) = true /\ y = x.
Proof.
  simpl. destruct (at_line_start _ _ _); [|intros []]. intros [<-|[]]. auto.
Qed.

Lemma in_alt text ml r1 r2 x y :
  In y (matcher text ml (Alt r1 r2) true x) ->
  In y (matcher text ml r1 true x) \/ In y (matcher text ml r2 true x).
Proof. simpl. apply in_app_iff. Qed.

(** A relation between positions that one round of a quantifier respects
    holds between the start and the end of the whole repetition. *)
Lemma repeat_matcher_rel (R : nat -> nat -> Prop) m inner greedy :
  (forall a, R a a) ->
  (forall a b c, R a b -> R b c -> R a c) ->
  (forall x y, In y (m x) -> R (endIndex x) (endIndex y)) ->
  forall max min x y,
    In y (repeat_matcher m inner greedy max min x) ->
    R (endIndex x) (endIndex y).
Proof.
  intros Hrefl Htrans Hm. induction max as [|max IH]; intros min x y Hy.
  - simpl in Hy. destruct Hy as [<-|[]]. apply Hrefl.
  - simpl in Hy.
    assert (Hagain :
      In y (flat_map (fun y0 =>
              if (min =? 0) && (endIndex y0 =? endIndex x) then []
              else repeat_matcher m inner greedy max (pred min) y0)
            (m (clear_captures inner x))) ->
      R (endIndex x) (endIndex y)).
    { intros Hin. apply in_flat_map in Hin. destruct Hin as [z [Hz Hin]].
      apply Hm in Hz. rewrite clear_captures_endIndex in Hz.
      destruct ((min =? 0) && (endIndex z =? endIndex x)); [destruct Hin|].
      apply IH in Hin. eapply Htrans; eassumption. }
    destruct (negb (min =? 0)); [exact (Hagain Hy)|].
    destruct greedy.
    + apply in_app_iff in Hy. destruct Hy as [Hy|[<-|[]]]; auto.
    + destruct Hy as [<-|Hy]; auto.
Qed.

Lemma all_in_refl text cs a : all_in text cs a a.
Proof. intros j Hj. lia. Qed.

Lemma all_in_trans text cs a b c :
  all_in text cs a b -> all_in text cs b c -> all_in text cs a c.
Proof.
  intros H1 H2 j Hj. destruct (Nat.lt_ge_cases j b); [apply H1|apply H2]; lia.
Qed.

Lemma all_in_step text cs a :
  (exists c, nth_error text a = Some c /\ set_has cs c = true) ->
  all_in text cs a (S a).
Proof. intros H j Hj. replace j with a by lia. exact H. Qed.

(** A quantified character class consumes code units of the class only. *)
Lemma in_quant_class text ml min max greedy cs x y :
  In y (matcher text ml (Quant min max greedy (Chars cs)) true x) ->
  endIndex x <= endIndex y /\ all_in text cs (endIndex x) (endIndex y).
Proof.
  simpl. intros H.
  apply (@repeat_matcher_rel (fun a b => a <= b /\ all_in text cs a b))
    in H; [exact H| | |].
  - intros a. split; [lia|apply all_in_refl].
  - intros a b c [H1 H2] [H3 H4]. split; [lia|].
    eapply all_in_trans; eassumption.
  - intros x0 y0 H0. apply (@in_chars text ml) in H0.
    destruct H0 as [Hc ->]. simpl.
    split; [lia|]. apply all_in_step. exact Hc.
Qed.

(** Each round of a quantified class consumes one code unit, so the whole
    consumes [max] at most. *)
Lemma repeat_class_at_most text ml cs inner greedy :
  forall max min x y,
    In y (repeat_matcher (matcher text ml (Chars cs) true) inner greedy
                         max min x) ->
    endIndex y <= endIndex x + max.
Proof.
  induction max as [|max IH]; intros min x y Hy.
  - simpl in Hy. destruct Hy as [<-|[]]. lia.
  - simpl in Hy.
    assert (Hagain :
      In y (flat_map (fun y0 =>
              if (min =? 0) && (endIndex y0 =? endIndex x) then []
              else repeat_matcher (matcher text ml (Chars cs) true) inner
                                  greedy max (pred min) y0)
            (matcher text ml (Chars cs) true (clear_captures inner x))) ->
      endIndex y <= endIndex x + S max).
    { intros Hin. apply in_flat_map in Hin. destruct Hin as [z [Hz Hin]].
      apply in_chars in Hz. destruct Hz as [_ ->].
      destruct (_ && _); [destruct Hin|].
      apply IH in Hin. simpl in Hin. lia. }
    destruct (negb (min =? 0)); [exact (Hagain Hy)|].
    destruct greedy.
    + apply in_app_iff in Hy. destruct Hy as [Hy|[<-|[]]]; [auto|lia].
    + destruct Hy as [<-|Hy]; [lia|auto].
Qed.

(** ** Greedy runs *)

Lemma run_end_ge text cs : forall n e, e <= run_end text cs n e.
Proof.
  induction n as [|n IH]; intros e; simpl; [lia|].
  destruct (nth_error text e) as [c|]; [|lia].
  destruct (set_has cs c); [|lia]. specialize (IH (S e)). lia.
Qed.

Lemma run_end_all_in text cs : forall n e,
  all_in text cs e (run_end text cs n e).
Proof.
  induction n as [|n IH]; intros e; simpl; [apply all_in_refl|].
  destruct (nth_error text e) as [c|] eqn:E; [|apply all_in_refl].
  destruct (set_has cs c) eqn:Ec; [|apply all_in_refl].
  eapply all_in_trans; [|apply IH].
  apply all_in_step. exists c. auto.
Qed.

Lemma run_end_none_at text cs : forall n e,
  length text - e < n -> none_at text cs (run_end text cs n e).
Proof.
  induction n as [|n IH]; intros e Hn; [lia|]. simpl.
  destruct (nth_error text e) as [c|] eqn:E.
  - destruct (set_has cs c) eqn:Ec.
    + apply IH.
      assert (e < length text) by (apply nth_error_Some; congruence). lia.
    + unfold none_at. rewrite E. exact Ec.
  - unfold none_at. rewrite E. exact I.
Qed.

Lemma run_end_le text cs : forall n e,
  e <= length text -> run_end text cs n e <= length text.
Proof.
  induction n as [|n IH]; intros e He; simpl; [exact He|].
  destruct (nth_error text e) as [c|] eqn:E; [|exact He].
  destruct (set_has cs c); [|exact He].
  apply IH. assert (e < length text) by (apply nth_error_Some; congruence). lia.
Qed.

(** A run stops at the first position that holds no code unit of the
    class. *)
Lemma run_end_unique text cs n e b :
  e <= b -> all_in text cs e b -> none_at text cs b ->
  length text - e < n ->
  run_end text cs n e = b.
Proof.
  intros Heb Hall Hnone Hn.
  pose proof (run_end_ge text cs n e) as Hge.
  pose proof (@run_end_all_in text cs n e) as Hall'.
  pose proof (@run_end_none_at text cs n e Hn) as Hnone'.
  destruct (Nat.lt_trichotomy (run_end text cs n e) b) as [Hlt|[Heq|Hgt]];
    [|exact Heq|].
  - destruct (Hall (run_end text cs n e)) as [c [Hc Hs]]; [lia|].
    unfold none_at in Hnone'. rewrite Hc in Hnone'. congruence.
  - destruct (Hall' b) as [c [Hc Hs]]; [lia|].
    unfold none_at in Hnone. rewrite Hc in Hnone. congruence.
Qed.

Lemma repeat_greedy_step m inner n x :
  repeat_matcher m inner true (S n) 0 x
  = flat_map (fun y => if endIndex y =? endIndex x then []
                       else repeat_matcher m inner true n 0 y)
             (m (clear_captures inner x)) ++ [x].
Proof. reflexivity. Qed.

Lemma chars_forward text ml cs e :
  matcher text ml (Chars cs) true (mkState e [])
  = match nth_error text e with
    | Some c => if set_has cs c then [mkState (S e) []] else []
    | None => []
    end.
Proof. reflexivity. Qed.

(** A greedy quantifier over a class tries the whole run first, then each
    shorter stretch. *)
Lemma greedy_class text ml cs : forall n e,
  repeat_matcher (matcher text ml (Chars cs) true) [] true n 0 (mkState e [])
  = map (fun q => mkState q [])
        (rev (seq e (run_end text cs n e - e + 1))).
Proof.
  induction n as [|n IH]; intros e.
  - simpl. replace (e - e + 1) with 1 by lia. reflexivity.
  - rewrite repeat_greedy_step.
    change (clear_captures [] (mkState e [])) with (mkState e []).
    rewrite chars_forward. simpl run_end.
    destruct (nth_error text e) as [c|] eqn:E.
    + destruct (set_has cs c).
      * unfold flat_map. change (endIndex (mkState (S e) [])) with (S e).
        change (endIndex (mkState e [])) with e.
        destruct (Nat.eqb_spec (S e) e) as [Hee|_]; [lia|].
        rewrite app_nil_r, IH.
        pose proof (run_end_ge text cs n (S e)) as Hge.
        replace (run_end text cs n (S e) - e + 1)
          with (S (run_end text cs n (S e) - S e + 1)) by lia.
        simpl seq. simpl rev. rewrite map_app. reflexivity.
      * replace (e - e + 1) with 1 by lia. reflexivity.
    + replace (e - e + 1) with 1 by lia. reflexivity.
Qed.

Lemma rev_seq_head e k :
  rev (seq e (S k)) = (e + k) :: rev (seq e k).
Proof.
  rewrite seq_S, rev_app_distr. reflexivity.
Qed.

Lemma star_class text ml cs e :
  matcher text ml (Quant 0 None true (Chars cs)) true (mkState e [])
  = map at_pos (rev (seq e (run_from text cs e - e + 1))).
Proof.
  change (matcher text ml (Quant 0 None true (Chars cs)) true (mkState e []))
    with (repeat_matcher (matcher text ml (Chars cs) true) [] true
                         (length text + 1) 0 (mkState e [])).
  apply greedy_class.
Qed.

Lemma plus_class text ml cs e :
  matcher text ml (Quant 1 None true (Chars cs)) true (mkState e [])
  = match nth_error text e with
    | Some c =>
        if set_has cs c
        then map at_pos (rev (seq (S e) (run_from text cs (S e) - S e + 1)))
        else []
    | None => []
    end.
Proof.
  change (matcher text ml (Quant 1 None true (Chars cs)) true (mkState e []))
    with (flat_map
            (fun y => repeat_matcher (matcher text ml (Chars cs) true) [] true
                                     (length text + 1) 0 y)
            (matcher text ml (Chars cs) true (mkState e []))).
  rewrite chars_forward.
  destruct (nth_error text e) as [c|]; [|reflexivity].
  destruct (set_has cs c); [|reflexivity].
  cbn [flat_map]. rewrite app_nil_r. apply greedy_class.
Qed.

Lemma longest_first e k :
  hd_error (map at_pos (rev (seq e (k + 1)))) = Some (at_pos (e + k)).
Proof.
  rewrite Nat.add_1_r, rev_seq_head. reflexivity.
Qed.

Lemma run_from_ge text cs e : e <= run_from text cs e.
Proof. apply run_end_ge. Qed.

Lemma run_from_all_in text cs e : all_in text cs e (run_from text cs e).
Proof. apply run_end_all_in. Qed.

Lemma run_from_none_at text cs e : none_at text cs (run_from text cs e).
Proof. apply run_end_none_at. lia. Qed.

(** ** The variable pattern *)

Lemma variable_matcher text s :
  matcher text false (source variableRegex) true (mkState s [])
  = match nth_error text s with
    | Some c =>
        if (c =? cu "$")%N
        then map at_pos
                 (rev (seq (S s) (run_from text word_units (S s) - S s + 1)))
        else []
    | None => []
    end.
Proof.
  change (source variableRegex)
    with (Seq (lit "$") (Quant 0 None true (Chars word_units))).
  rewrite matcher_seq, lit_forward.
  destruct (nth_error text s) as [c|]; [|reflexivity].
  destruct (c =? cu "$")%N; [|reflexivity].
  cbn [flat_map]. rewrite app_nil_r. apply star_class.
Qed.

Lemma variable_first_match text s y :
  first_match text false (source variableRegex) s = Some y ->
  unit_at text "$" s /\ endIndex y = run_from text word_units (S s).
Proof.
  unfold first_match, unit_at. rewrite variable_matcher.
  destruct (nth_error text s) as [c|]; [|discriminate].
  destruct (N.eqb_spec c (cu "$")) as [->|_]; [|discriminate].
  rewrite longest_first. intros H. inversion H. simpl.
  split; [reflexivity|].
  pose proof (run_from_ge text word_units (S s)). lia.
Qed.

Lemma variable_matches_at text s :
  unit_at text "$" s ->
  first_match text false (source variableRegex) s <> None.
Proof.
  unfold first_match, unit_at. rewrite variable_matcher. intros ->.
  rewrite N.eqb_refl, longest_first. discriminate.
Qed.

(** X6.  Every candidate of the variable pattern starts at a [$] and goes
    on over the whole run of word characters that follows it (the code unit
    after the candidate is not a word character); and every [$] of the
    text starts such a candidate, a bare [$] included. *)
Theorem variable_candidates (text : Text) :
  exists ms,
    run_alone (length text + 2) text
              (variableRegex, push_match variableDecoration 3) = Val ms /\
    (forall c, In c ms ->
       unit_at text "$" (start c) /\
       all_in text word_units (S (start c)) (end_ c) /\
       none_at text word_units (end_ c)) /\
    (forall s, unit_at text "$" s -> exists c, In c ms /\ start c = s).
Proof.
  destruct (@alone_matches text variableRegex variableDecoration 3)
    as [ms [Hrun [Hall [Hcov _]]]]; [reflexivity|vm_compute; lia|].
  exists ms. split; [exact Hrun|].
  rewrite Forall_forall in Hall.
  assert (Hsound : forall c, In c ms ->
            unit_at text "$" (start c) /\
            all_in text word_units (S (start c)) (end_ c) /\
            none_at text word_units (end_ c)).
  { intros c Hc. destruct (Hall c Hc) as [y [Hy ->]].
    apply variable_first_match in Hy. destruct Hy as [Hs ->].
    split; [exact Hs|]. split;
      [apply run_from_all_in|apply run_from_none_at]. }
  split; [exact Hsound|].
  intros s Hs.
  destruct (Hcov s) as [c [Hc Hr]].
  - assert (s < length text) by (apply nth_error_Some; unfold unit_at in Hs;
                                 congruence). lia.
  - apply variable_matches_at. exact Hs.
  - exists c. split; [exact Hc|].
    destruct (Nat.eq_dec (start c) s) as [E|Hne]; [exact E|exfalso].
    destruct (Hsound c Hc) as [_ [Hw _]].
    destruct (Hw s) as [d [Hd Hin]]; [lia|].
    unfold unit_at in Hs. rewrite Hs in Hd. inversion Hd; subst d.
    vm_compute in Hin. discriminate.
Qed.

Lemma sorted_pair (A : Type) (R : A -> A -> Prop) l a b :
  StronglySorted R l -> In a l -> In b l -> a = b \/ R a b \/ R b a.
Proof.
  induction 1 as [|x l Hs IH Hx]; intros Ha Hb; [destruct Ha|].
  rewrite Forall_forall in Hx.
  destruct Ha as [<-|Ha], Hb as [<-|Hb]; auto.
Qed.

(** ** The operator pattern *)

Lemma operator_matcher text s :
  matcher text false (source operatorRegex) true (mkState s [])
  = match nth_error text s with
    | Some c =>
        if set_has operator_units c
        then map at_pos
                 (rev (seq (S s)
                           (run_from text operator_units (S s) - S s + 1)))
        else []
    | None => []
    end.
Proof.
  change (source operatorRegex)
    with (Quant 1 None true (Chars operator_units)).
  apply plus_class.
Qed.

Lemma operator_first_match text s y :
  first_match text false (source operatorRegex) s = Some y ->
  all_in text operator_units s (S s) /\
  endIndex y = run_from text operator_units (S s).
Proof.
  unfold first_match. rewrite operator_matcher.
  destruct (nth_error text s) as [c|] eqn:E; [|discriminate].
  destruct (set_has operator_units c) eqn:Ec; [|discriminate].
  rewrite longest_first. intros H. inversion H. simpl.
  split; [apply all_in_step; exists c; auto|].
  pose proof (run_from_ge text operator_units (S s)). lia.
Qed.

Lemma operator_matches_at text s c :
  nth_error text s = Some c -> set_has operator_units c = true ->
  first_match text false (source operatorRegex) s <> None.
Proof.
  unfold first_match. rewrite operator_matcher. intros -> ->.
  rewrite longest_first. discriminate.
Qed.

(** X12.  The candidates of the operator pattern are the maximal runs of
    operator characters: each candidate is a non-empty stretch of them with
    none just before it and none just after it, and every operator
    character of the text lies in a candidate. *)
Theorem operator_candidates (text : Text) :
  exists ms,
    run_alone (length text + 2) text
              (operatorRegex, push_match operatorDecoration 7) = Val ms /\
    (forall c, In c ms ->
       start c < end_ c /\
       all_in text operator_units (start c) (end_ c) /\
       none_at text operator_units (end_ c)) /\
    (forall c j, In c ms -> S j = start c ->
                 none_at text operator_units j) /\
    (forall j u, nth_error text j = Some u ->
                 set_has operator_units u = true ->
                 exists c, In c ms /\ start c <= j < end_ c).
Proof.
  destruct (@alone_matches text operatorRegex operatorDecoration 7)
    as [ms [Hrun [Hall [Hcov Hchain]]]]; [reflexivity|vm_compute; lia|].
  exists ms. split; [exact Hrun|].
  rewrite Forall_forall in Hall.
  assert (Hsound : forall c, In c ms ->
            start c < end_ c /\
            all_in text operator_units (start c) (end_ c) /\
            none_at text operator_units (end_ c)); [|split; [exact Hsound|]].
  2: split.
  2: { intros c j Hc Hj. unfold none_at.
       destruct (nth_error text j) as [u|] eqn:Eu; [|exact I].
       destruct (set_has operator_units u) eqn:Es; [exfalso|reflexivity].
       destruct (Hcov j) as [c' [Hc' Hr]].
       - assert (j < length text) by (apply nth_error_Some; congruence). lia.
       - apply (operator_matches_at _ _ Eu Es).
       - destruct (Hsound c Hc) as [Hne [Hin _]].
         destruct (Hsound c' Hc') as [_ [_ Hnone']].
         destruct (@sorted_pair _ _ _ _ _ Hchain Hc' Hc) as [E|[[_ Hp]|[Hp _]]].
         + subst c'. lia.
         + assert (end_ c' = start c) by lia.
           destruct (Hin (start c)) as [w [Hw Hws]]; [lia|].
           unfold none_at in Hnone'. rewrite H, Hw in Hnone'. congruence.
         + lia. }
  - intros c Hc. destruct (Hall c Hc) as [y [Hy ->]].
    apply operator_first_match in Hy. destruct Hy as [Hs ->].
    pose proof (run_from_ge text operator_units (S (start c))).
    split; [lia|]. split; [|apply run_from_none_at].
    eapply all_in_trans; [exact Hs|apply run_from_all_in].
  - intros j u Hj Hu. apply Hcov.
    + assert (j < length text) by (apply nth_error_Some; congruence). lia.
    + apply (operator_matches_at _ _ Hj Hu).
Qed.

(** ** The line comment and the directive patterns *)

Lemma line_end_after_run text e :
  e <= length text ->
  at_line_end text true (run_from text Dot e) = true.
Proof.
  intros He. unfold at_line_end.
  pose proof (run_from_none_at text Dot e) as Hn. unfold none_at in Hn.
  pose proof (@run_end_le text Dot (length text + 1) e He) as Hle.
  fold (run_from text Dot e) in Hle.
  destruct (nth_error text (run_from text Dot e)) as [c|] eqn:E.
  - simpl in Hn. apply negb_false_iff in Hn. rewrite Hn. apply orb_true_r.
  - apply nth_error_None in E.
    replace (run_from text Dot e) with (length text) by lia.
    rewrite Nat.eqb_refl. reflexivity.
Qed.

(** [.*$] with the [m] flag goes to the end of the line. *)
Lemma rest_of_line text e :
  e <= length text ->
  hd_error (matcher text true (Seq (Quant 0 None true (Chars Dot)) LineEnd)
                    true (mkState e []))
  = Some (at_pos (run_from text Dot e)).
Proof.
  intros He. rewrite matcher_seq, star_class.
  pose proof (run_from_ge text Dot e) as Hge.
  rewrite Nat.add_1_r, rev_seq_head.
  replace (e + (run_from text Dot e - e)) with (run_from text Dot e) by lia.
  cbn [map flat_map].
  change (matcher text true LineEnd true (at_pos (run_from text Dot e)))
    with (if at_line_end text true (run_from text Dot e)
          then [at_pos (run_from text Dot e)] else []).
  rewrite (line_end_after_run _ He). reflexivity.
Qed.

Lemma hd_error_app_nil (A : Type) (l : list A) : hd_error (l ++ []) = hd_error l.
Proof. rewrite app_nil_r. reflexivity. Qed.

Lemma singleComment_first_match text s :
  first_match text true (source singleCommentRegex) s
  = if has_pair text "/" "/" s
    then Some (at_pos (run_from text Dot (s + 2)))
    else None.
Proof.
  unfold first_match.
  change (source singleCommentRegex)
    with (Seq (lit "/") (Seq (lit "/")
            (Seq (Quant 0 None true (Chars Dot)) LineEnd))).
  rewrite matcher_seq, lit_forward. unfold has_pair.
  destruct (nth_error text s) as [c|]; [|reflexivity].
  destruct (c =? cu "/")%N; [|destruct (nth_error text (S s)); reflexivity].
  cbn [flat_map andb]. rewrite app_nil_r.
  rewrite matcher_seq, lit_forward.
  destruct (nth_error text (S s)) as [d|] eqn:E; [|reflexivity].
  destruct (d =? cu "/")%N; [|reflexivity].
  assert (S s < length text) by (apply nth_error_Some; congruence).
  cbn [flat_map]. rewrite hd_error_app_nil.
  replace (s + 2) with (S (S s)) by lia.
  apply rest_of_line. lia.
Qed.

(** X2.  Every candidate of the line comment pattern starts at a [//],
    holds no line terminator after it, and stops at the end of its line (a
    line terminator or the end of the text); and every [//] of the text
    lies in one of these candidates. *)
Theorem line_comment_candidates (text : Text) :
  exists ms,
    run_alone (length text + 2) text
              (singleCommentRegex, push_match commentDecoration 1) = Val ms /\
    (forall c, In c ms ->
       has_pair text "/" "/" (start c) = true /\
       all_in text Dot (start c + 2) (end_ c) /\
       at_line_end text true (end_ c) = true) /\
    (forall s, has_pair text "/" "/" s = true ->
               exists c, In c ms /\ start c <= s < end_ c).
Proof.
  destruct (@alone_matches text singleCommentRegex commentDecoration 1)
    as [ms [Hrun [Hall [Hcov _]]]]; [reflexivity|vm_compute; lia|].
  exists ms. split; [exact Hrun|].
  rewrite Forall_forall in Hall. split.
  - intros c Hc. destruct (Hall c Hc) as [y [Hy ->]].
    change (multilineFlag singleCommentRegex) with true in Hy.
    rewrite singleComment_first_match in Hy.
    destruct (has_pair text "/" "/" (start c)) eqn:E; [|discriminate].
    inversion Hy. simpl. split; [reflexivity|].
    split; [apply run_from_all_in|].
    apply line_end_after_run. apply has_pair_inside in E. exact E.
  - intros s Hs. apply Hcov.
    + apply has_pair_inside in Hs. lia.
    + change (multilineFlag singleCommentRegex) with true.
      rewrite singleComment_first_match, Hs. discriminate.
Qed.

Lemma meta_first_match text s :
  first_match text true (source metaRegex) s
  = if at_line_start text true s
    then match nth_error text s with
         | Some c => if (c =? cu "#")%N
                     then Some (at_pos (run_from text Dot (S s)))
                     else None
         | None => None
         end
    else None.
Proof.
  unfold first_match.
  change (source metaRegex)
    with (Seq LineStart (Seq (lit "#")
            (Seq (Quant 0 None true (Chars Dot)) LineEnd))).
  rewrite matcher_seq.
  change (matcher text true LineStart true (mkState s []))
    with (if at_line_start text true s then [mkState s []] else []).
  destruct (at_line_start text true s); [|reflexivity].
  cbn [flat_map]. rewrite hd_error_app_nil.
  rewrite matcher_seq, lit_forward.
  destruct (nth_error text s) as [c|] eqn:E; [|reflexivity].
  destruct (c =? cu "#")%N; [|reflexivity].
  assert (s < length text) by (apply nth_error_Some; congruence).
  cbn [flat_map]. rewrite hd_error_app_nil.
  apply rest_of_line. lia.
Qed.

(** X7.  Every candidate of the directive pattern starts with a [#] that
    is the first code unit of a line and runs to the end of that line; and
    every [#] at the start of a line starts such a candidate. *)
Theorem meta_candidates (text : Text) :
  exists ms,
    run_alone (length text + 2) text
              (metaRegex, push_match metaDecoration 4) = Val ms /\
    (forall c, In c ms ->
       at_line_start text true (start c) = true /\
       unit_at text "#" (start c) /\
       all_in text Dot (S (start c)) (end_ c) /\
       at_line_end text true (end_ c) = true) /\
    (forall s, at_line_start text true s = true -> unit_at text "#" s ->
               exists c, In c ms /\ start c = s).
Proof.
  destruct (@alone_matches text metaRegex metaDecoration 4)
    as [ms [Hrun [Hall [Hcov _]]]]; [reflexivity|vm_compute; lia|].
  exists ms. split; [exact Hrun|].
  rewrite Forall_forall in Hall.
  assert (Hsound : forall c, In c ms ->
            at_line_start text true (start c) = true /\
            unit_at text "#" (start c) /\
            all_in text Dot (S (start c)) (end_ c) /\
            at_line_end text true (end_ c) = true).
  { intros c Hc. destruct (Hall c Hc) as [y [Hy ->]].
    change (multilineFlag metaRegex) with true in Hy.
    rewrite meta_first_match in Hy.
    destruct (at_line_start text true (start c)); [|discriminate].
    destruct (nth_error text (start c)) as [u|] eqn:E; [|discriminate].
    destruct (N.eqb_spec u (cu "#")) as [->|_]; [|discriminate].
    inversion Hy. simpl.
    assert (start c < length text) by (apply nth_error_Some; congruence).
    repeat split; [exact E|apply run_from_all_in|].
    apply line_end_after_run. lia. }
  split; [exact Hsound|].
  intros s Hls Hs. unfold unit_at in Hs.
  destruct (Hcov s) as [c [Hc Hr]].
  - assert (s < length text) by (apply nth_error_Some; congruence). lia.
  - change (multilineFlag metaRegex) with true.
    rewrite meta_first_match, Hls, Hs, N.eqb_refl. discriminate.
  - exists c. split; [exact Hc|].
    destruct (Nat.eq_dec (start c) s) as [E|Hne]; [exact E|exfalso].
    destruct (Hsound c Hc) as [_ [Hsharp [Hdot _]]].
    destruct s as [|p]; [lia|].
    simpl in Hls.
    destruct (nth_error text p) as [u|] eqn:Eu; [|discriminate].
    destruct (Nat.eq_dec p (start c)) as [->|Hp].
    + unfold unit_at in Hsharp. rewrite Hsharp in Eu. inversion Eu; subst u.
      vm_compute in Hls. discriminate.
    + destruct (Hdot p) as [w [Hw Hws]]; [lia|].
      rewrite Hw in Eu. inversion Eu; subst w.
      simpl in Hws. rewrite Hls in Hws. discriminate.
Qed.

(** ** The string pattern *)

Lemma stringRegex_source :
  source stringRegex
  = Seq (lit "034")
        (Seq (Quant 0 None false
                (Alt (Chars plain_units) (Seq (lit "\") (Chars Dot))))
             (Alt (lit "034") LineEnd)).
Proof. reflexivity. Qed.

Lemma plain_not_special c :
  set_has plain_units c = true ->
  (c =? cu "\")%N = false /\ (c =? cu "034")%N = false.
Proof.
  unfold plain_units, set_has, chr. cbn [existsb atom_has].
  destruct (c =? cu "\")%N, (c =? cu "034")%N; cbn [orb xorb]; intros H;
    try discriminate; auto.
Qed.

Lemma string_body_escapes text x y :
  In y (matcher text false
          (Quant 0 None false
             (Alt (Chars plain_units) (Seq (lit "\") (Chars Dot))))
          true x) ->
  endIndex x <= endIndex y /\ quotes_escaped text (endIndex x) (endIndex y).
Proof.
  intros H. cbn [matcher] in H.
  apply (@repeat_matcher_rel
           (fun a b => a <= b /\ quotes_escaped text a b)) in H; [exact H| | |].
  - intros a. split; [lia|]. intros j Hj. lia.
  - intros a b c [H1 H2] [H3 H4]. split; [lia|].
    intros j Hj Hq. destruct (Nat.lt_ge_cases j b) as [Hlt|Hge].
    + apply H2; [lia|exact Hq].
    + destruct (H4 j) as [Hbj Hb]; [lia|exact Hq|]. split; [lia|exact Hb].
  - intros x0 y0 H0.
    apply (@in_alt text false (Chars plain_units)
             (Seq (lit "\") (Chars Dot))) in H0.
    destruct H0 as [H0|H0].
    + apply in_chars in H0. destruct H0 as [[c [Hc Hs]] ->]. simpl.
      split; [lia|]. intros j Hj Hq. replace j with (endIndex x0) in Hq by lia.
      unfold unit_at in Hq. rewrite Hc in Hq. inversion Hq; subst c.
      vm_compute in Hs. discriminate.
    + apply in_seq in H0. destruct H0 as [z [Hz H0]].
      apply in_lit in Hz. destruct Hz as [Hb ->].
      apply in_chars in H0. destruct H0 as [_ ->]. simpl.
      split; [lia|]. intros j Hj Hq.
      destruct (Nat.eq_dec j (endIndex x0)) as [->|Hne].
      * unfold unit_at in Hq, Hb. rewrite Hb in Hq. vm_compute in Hq.
        discriminate.
      * replace j with (S (endIndex x0)) by lia. simpl.
        rewrite Nat.sub_0_r. split; [lia|exact Hb].
Qed.

Lemma string_first_match text s y :
  first_match text false (source stringRegex) s = Some y ->
  unit_at text "034" s /\
  ((s + 2 <= endIndex y /\ unit_at text "034" (endIndex y - 1) /\
    quotes_escaped text (S s) (endIndex y - 1)) \/
   (endIndex y = length text /\ quotes_escaped text (S s) (length text))).
Proof.
  intros H. apply first_match_in in H. rewrite stringRegex_source in H.
  apply in_seq in H. destruct H as [z1 [H1 H]].
  apply in_lit in H1. destruct H1 as [Hq ->]. simpl in Hq.
  apply in_seq in H. destruct H as [z2 [H2 H]].
  apply string_body_escapes in H2. simpl in H2. destruct H2 as [Hle Hesc].
  split; [exact Hq|].
  apply in_alt in H. destruct H as [H|H].
  - apply in_lit in H. destruct H as [Hc ->]. simpl. left.
    rewrite Nat.sub_0_r. split; [lia|]. split; [exact Hc|exact Hesc].
  - apply in_line_end in H. destruct H as [He ->]. right.
    unfold at_line_end in He. simpl in He. rewrite orb_false_r in He.
    apply Nat.eqb_eq in He. rewrite <- He. split; [reflexivity|exact Hesc].
Qed.

(** X3.  Every candidate of the string pattern starts at a double quote.
    Either it ends with a double quote that is not its first one, or it
    runs to the end of the text; in both cases every double quote between
    its ends comes right after a backslash. *)
Theorem string_candidates (text : Text) :
  exists ms,
    run_alone (length text + 2) text
              (stringRegex, push_match stringDecoration 2) = Val ms /\
    forall c, In c ms ->
      unit_at text "034" (start c) /\
      ((start c + 2 <= end_ c /\ unit_at text "034" (end_ c - 1) /\
        quotes_escaped text (S (start c)) (end_ c - 1)) \/
       (end_ c = length text /\
        quotes_escaped text (S (start c)) (length text))).
Proof.
  destruct (@alone_matches text stringRegex stringDecoration 2)
    as [ms [Hrun [Hall _]]]; [reflexivity|vm_compute; lia|].
  exists ms. split; [exact Hrun|].
  rewrite Forall_forall in Hall.
  intros c Hc. destruct (Hall c Hc) as [y [Hy ->]].
  apply string_first_match in Hy. exact Hy.
Qed.

Lemma lazy_plain text : forall n e,
  e <= length text -> length text - e < n ->
  all_in text plain_units e (length text) ->
  repeat_matcher
    (matcher text false
       (Alt (Chars plain_units) (Seq (lit "\") (Chars Dot))) true)
    [] false n 0 (mkState e [])
  = map at_pos (seq e (length text - e + 1)).
Proof.
  induction n as [|n IH]; intros e He Hn Hall; [lia|].
  rewrite repeat_lazy_step.
  change (clear_captures [] (mkState e [])) with (mkState e []).
  change (matcher text false
            (Alt (Chars plain_units) (Seq (lit "\") (Chars Dot))) true
            (mkState e []))
    with (matcher text false (Chars plain_units) true (mkState e []) ++
          matcher text false (Seq (lit "\") (Chars Dot)) true (mkState e [])).
  rewrite matcher_seq, lit_forward, chars_forward.
  destruct (nth_error text e) as [c|] eqn:E.
  - assert (e < length text) by (apply nth_error_Some; congruence).
    destruct (Hall e) as [c' [Hc' Hs]]; [lia|].
    rewrite E in Hc'. inversion Hc'; subst c'.
    rewrite Hs. destruct (plain_not_special _ Hs) as [Hb _]. rewrite Hb.
    cbn [flat_map app].
    change (endIndex (mkState (S e) [])) with (S e).
    change (endIndex (mkState e [])) with e.
    destruct (Nat.eqb_spec (S e) e) as [Hee|_]; [lia|].
    rewrite app_nil_r, IH; [| lia | lia |].
    + replace (length text - e + 1) with (S (length text - S e + 1)) by lia.
      reflexivity.
    + intros j Hj. apply Hall. lia.
  - apply nth_error_None in E.
    replace (length text - e + 1) with 1 by lia. reflexivity.
Qed.

Lemma string_tail text q :
  matcher text false (Alt (lit "034") LineEnd) true (at_pos q)
  = match nth_error text q with
    | Some c => if (c =? cu "034")%N then [at_pos (S q)] else []
    | None => []
    end ++ (if q =? length text then [at_pos q] else []).
Proof.
  change (matcher text false (Alt (lit "034") LineEnd) true (at_pos q))
    with (matcher text false (lit "034") true (mkState q []) ++
          (if at_line_end text false q then [at_pos q] else [])).
  rewrite lit_forward. unfold at_line_end. simpl. rewrite orb_false_r.
  reflexivity.
Qed.

Lemma string_tail_plain text : forall k e,
  e + k = length text ->
  all_in text plain_units e (length text) ->
  flat_map (matcher text false (Alt (lit "034") LineEnd) true)
           (map at_pos (seq e (k + 1)))
  = [at_pos (length text)].
Proof.
  induction k as [|k IH]; intros e He Hall.
  - change (0 + 1) with 1. cbn [seq map flat_map].
    rewrite string_tail, app_nil_r.
    assert (E : nth_error text e = None) by (apply nth_error_None; lia).
    rewrite E. replace e with (length text) by lia.
    rewrite Nat.eqb_refl. reflexivity.
  - replace (S k + 1) with (S (k + 1)) by lia. cbn [seq map flat_map].
    rewrite string_tail, IH; [|lia|intros j Hj; apply Hall; lia].
    destruct (Hall e) as [c [Hc Hs]]; [lia|].
    rewrite Hc. destruct (plain_not_special _ Hs) as [_ Hq]. rewrite Hq.
    destruct (Nat.eqb_spec e (length text)) as [Hee|_]; [lia|]. reflexivity.
Qed.

(** An opening quote that nothing closes, followed by plain code units
    only, starts a match that runs to the end of the text. *)
Lemma unterminated_first_match text s :
  unit_at text "034" s ->
  all_in text plain_units (S s) (length text) ->
  first_match text false (source stringRegex) s
  = Some (at_pos (length text)).
Proof.
  intros Hq Hall. unfold first_match. rewrite stringRegex_source.
  rewrite matcher_seq, lit_forward. unfold unit_at in Hq. rewrite Hq.
  rewrite N.eqb_refl. cbn [flat_map]. rewrite app_nil_r.
  assert (s < length text) by (apply nth_error_Some; congruence).
  rewrite matcher_seq.
  rewrite (@unbounded_quantifier text false 0 false _ _ (length text + 1))
    by (simpl; lia).
  change (group_ids (Alt (Chars plain_units) (Seq (lit "\") (Chars Dot))))
    with (@nil nat).
  rewrite lazy_plain by (try lia; exact Hall).
  rewrite (string_tail_plain (length text - S s)); [reflexivity|lia|exact Hall].
Qed.

Lemma forallb_nth (f : CodeUnit -> bool) (l : Text) j c :
  forallb f l = true -> nth_error l j = Some c -> f c = true.
Proof.
  intros H Hj. rewrite forallb_forall in H. apply H.
  eapply nth_error_In. exact Hj.
Qed.

(** X4.  When the first double quote of the text is at [s] and neither a
    double quote nor a backslash follows it, the string pattern yields a
    candidate from [s] to the end of the text. *)
Theorem unterminated_string_to_end (text : Text) (s : nat) :
  nth_error text s = Some (cu "034") ->
  forallb (fun c => negb (c =? cu "034")%N) (firstn s text) = true ->
  forallb (set_has plain_units) (skipn (S s) text) = true ->
  exists ms,
    run_alone (length text + 2) text
              (stringRegex, push_match stringDecoration 2) = Val ms /\
    exists c, In c ms /\ start c = s /\ end_ c = length text.
Proof.
  intros Hq Hbefore Hafter.
  assert (Hs : s < length text) by (apply nth_error_Some; congruence).
  assert (Hall : all_in text plain_units (S s) (length text)).
  { intros j Hj.
    destruct (nth_error text j) as [c|] eqn:E;
      [|apply nth_error_None in E; lia].
    exists c. split; [reflexivity|].
    apply (@forallb_nth _ _ (j - S s) c Hafter).
    rewrite nth_error_skipn. replace (S s + (j - S s)) with j by lia. exact E. }
  pose proof (unterminated_first_match Hq Hall) as Hfm.
  destruct (@alone_matches text stringRegex stringDecoration 2)
    as [ms [Hrun [Hm [Hcov _]]]]; [reflexivity|vm_compute; lia|].
  exists ms. split; [exact Hrun|].
  rewrite Forall_forall in Hm.
  destruct (Hcov s) as [c [Hc Hr]]; [lia| |].
  { change (multilineFlag stringRegex) with false. rewrite Hfm. discriminate. }
  exists c. split; [exact Hc|].
  destruct (Hm c Hc) as [y [Hy He]].
  change (multilineFlag stringRegex) with false in Hy.
  assert (start c = s) as Hst.
  { destruct (Nat.eq_dec (start c) s) as [E|Hne]; [exact E|exfalso].
    apply string_first_match in Hy. destruct Hy as [Hqc _].
    assert (Hf : nth_error (firstn s text) (start c) = Some (cu "034")).
    { rewrite nth_error_firstn.
      destruct (Nat.ltb_spec (start c) s); [exact Hqc|lia]. }
    pose proof (forallb_nth _ _ _ Hbefore Hf) as Hn.
    vm_compute in Hn. discriminate. }
  split; [exact Hst|].
  rewrite Hst, Hfm in Hy. inversion Hy; subst y. rewrite He. reflexivity.
Qed.

(** The text [a = Qopen], Q the double quote: the string starts at 4 and
    is never closed. *)
Lemma unterminated_string_to_end_witness :
  exists ms,
    run_alone (length (text_of "a = " ++ [34%N] ++ text_of "open") + 2)
              (text_of "a = " ++ [34%N] ++ text_of "open")
              (stringRegex, push_match stringDecoration 2) = Val ms /\
    exists c, In c ms /\ start c = 4 /\
              end_ c = length (text_of "a = " ++ [34%N] ++ text_of "open").
Proof.
  apply (@unterminated_string_to_end
           (text_of "a = " ++ [34%N] ++ text_of "open") 4);
    reflexivity.
Defined.

(** ** The keyword and the atom patterns *)

Lemma skipn_nth (text : Text) : forall e c,
  nth_error text e = Some c -> skipn e text = c :: skipn (S e) text.
Proof.
  induction text as [|a text IH]; intros e c H; [destruct e; discriminate|].
  destruct e as [|e]; simpl in *.
  - inversion H. reflexivity.
  - apply IH. exact H.
Qed.

Lemma substring_cons text e b c :
  nth_error text e = Some c -> e < b ->
  substring text e b = c :: substring text (S e) b.
Proof.
  intros H Hb. unfold substring. rewrite (@skipn_nth _ _ _ H).
  replace (b - e) with (S (b - S e)) by lia. reflexivity.
Qed.

Lemma substring_nth text s e j :
  j < e - s -> nth_error (substring text s e) j = nth_error text (s + j).
Proof.
  intros Hj. unfold substring. rewrite nth_error_firstn.
  destruct (Nat.ltb_spec j (e - s)); [|lia]. apply nth_error_skipn.
Qed.

Lemma text_of_length k : length (text_of k) = String.length k.
Proof. induction k as [|a k IH]; simpl; [reflexivity|]. rewrite IH. reflexivity. Qed.

(** A literal word matches the code units that spell it, and nothing
    else. *)
Lemma in_word text ml : forall k x y,
  In y (matcher text ml (word k) true x) ->
  endIndex y = endIndex x + length (text_of k) /\
  substring text (endIndex x) (endIndex y) = text_of k.
Proof.
  induction k as [|a k IH]; intros x y H.
  - simpl in H. destruct H as [<-|[]]. simpl. rewrite Nat.add_0_r.
    unfold substring. rewrite Nat.sub_diag. auto.
  - destruct k as [|b k].
    + apply in_lit in H. destruct H as [Ha ->]. simpl.
      split; [lia|]. rewrite (@substring_cons _ _ _ _ Ha) by lia.
      unfold substring. rewrite Nat.sub_diag. reflexivity.
    + change (word (String a (String b k)))
        with (Seq (lit a) (word (String b k))) in H.
      apply in_seq in H. destruct H as [z [Hz H]].
      apply in_lit in Hz. destruct Hz as [Ha ->].
      apply IH in H. simpl endIndex in H. destruct H as [He Hs].
      split; [simpl in *; lia|].
      rewrite (@substring_cons _ _ _ _ Ha) by (simpl in He; lia).
      rewrite Hs. reflexivity.
Qed.

Lemma in_any_of text ml : forall rs x y,
  rs <> [] ->
  In y (matcher text ml (any_of rs) true x) ->
  exists r, In r rs /\ In y (matcher text ml r true x).
Proof.
  induction rs as [|r rs IH]; intros x y Hne H; [contradiction|].
  destruct rs as [|r2 rs].
  - exists r. split; [left; reflexivity|exact H].
  - change (any_of (r :: r2 :: rs)) with (Alt r (any_of (r2 :: rs))) in H.
    apply in_alt in H. destruct H as [H|H].
    + exists r. split; [left; reflexivity|exact H].
    + apply IH in H; [|discriminate]. destruct H as [r' [Hr' H]].
      exists r'. split; [right; exact Hr'|exact H].
Qed.

Lemma word_like_units k j c :
  word_like k = true -> nth_error (text_of k) j = Some c -> isWordChar c = true.
Proof.
  unfold word_like. intros H Hj.
  destruct (text_of k) as [|a l] eqn:E; [discriminate|].
  rewrite forallb_forall in H. apply H. eapply nth_error_In. exact Hj.
Qed.

Lemma word_like_length k : word_like k = true -> 1 <= length (text_of k).
Proof.
  unfold word_like. destruct (text_of k); [discriminate|]. simpl. lia.
Qed.

(** What [\b(w1|...)\b] matches: one of the words, with no word character
    just before it or just after it. *)
Lemma in_whole_word text ml ws s y :
  ws <> [] ->
  forallb word_like ws = true ->
  In y (matcher text ml (whole_word ws) true (mkState s [])) ->
  exists k,
    In k ws /\
    substring text s (endIndex y) = text_of k /\
    endIndex y = s + length (text_of k) /\
    is_word_before text s = false /\
    is_word_at text (endIndex y) = false.
Proof.
  intros Hne Hws H. unfold whole_word in H.
  apply in_seq in H. destruct H as [x1 [Hb1 H]].
  apply in_word_boundary in Hb1. destruct Hb1 as [Hb1 ->]. simpl in Hb1.
  apply in_seq in H. destruct H as [z [Hg Hb2]].
  apply in_group in Hg. destruct Hg as [z0 [Hz0 [Ez _]]].
  apply in_word_boundary in Hb2. destruct Hb2 as [Hb2 ->].
  apply in_any_of in Hz0; [|destruct ws; [contradiction|discriminate]].
  destruct Hz0 as [r [Hr Hz0]].
  apply in_map_iff in Hr. destruct Hr as [k [<- Hk]].
  apply in_word in Hz0. simpl in Hz0. destruct Hz0 as [He Hsub].
  rewrite forallb_forall in Hws. specialize (Hws k Hk).
  pose proof (word_like_length _ Hws) as Hlen.
  exists k. rewrite Ez. repeat split; try assumption.
  - assert (Hat : is_word_at text s = true).
    { unfold is_word_at.
      pose proof (@substring_nth text s (endIndex z0) 0 ltac:(lia)) as Hn.
      rewrite Nat.add_0_r, Hsub in Hn. rewrite <- Hn.
      destruct (nth_error (text_of k) 0) as [c|] eqn:E.
      - apply (word_like_units _ _ Hws E).
      - apply nth_error_None in E. lia. }
    rewrite Hat in Hb1. destruct (is_word_before text s); [discriminate|reflexivity].
  - assert (Hbefore : is_word_before text (endIndex z0) = true).
    { rewrite He. replace (s + length (text_of k))
        with (S (s + (length (text_of k) - 1))) by lia.
      unfold is_word_before, is_word_at.
      pose proof (@substring_nth text s (endIndex z0) (length (text_of k) - 1)
                    ltac:(lia)) as Hn.
      rewrite Hsub in Hn. rewrite <- Hn.
      destruct (nth_error (text_of k) (length (text_of k) - 1)) as [c|] eqn:E.
      - apply (word_like_units _ _ Hws E).
      - apply nth_error_None in E. lia. }
    rewrite Ez, Hbefore in Hb2.
    destruct (is_word_at text (endIndex z0)); [discriminate|reflexivity].
Qed.

(** ** The rule declaration pattern *)

Lemma quant_unfold text ml min max greedy r forward x :
  matcher text ml (Quant min max greedy r) forward x
  = repeat_matcher (matcher text ml r forward) (group_ids r) greedy
                   (iterations text min max) min x.
Proof. reflexivity. Qed.

Lemma ruleDeclaration_source :
  source ruleDeclarationRegex
  = Seq WordBoundary
      (Seq (Group 1 (word "rule"))
         (Seq (Group 2 (Quant 1 None true (Chars space_units)))
            (Seq (Group 3 (Seq (Chars name_start_units)
                               (Quant 0 (Some 127) true (Chars word_units))))
               (Seq (Quant 0 None true (Chars space_units)) (lit "{"))))).
Proof. reflexivity. Qed.

Lemma no_groups text ml r k x y :
  group_ids r = [] ->
  In y (matcher text ml r true x) ->
  capture k (captures y) = capture k (captures x).
Proof.
  intros Hg H. apply (@matcher_capture text ml k r) in H; [exact H|].
  rewrite Hg. intros [].
Qed.

Lemma other_group text ml r j k x y :
  group_ids r = [] -> j <> k ->
  In y (matcher text ml (Group j r) true x) ->
  capture k (captures y) = capture k (captures x).
Proof.
  intros Hg Hjk H. apply (@matcher_capture text ml k (Group j r)) in H;
    [exact H|].
  simpl. rewrite Hg. intros [E|[]]. contradiction.
Qed.

(** What a match of the rule declaration pattern looks like. *)
Lemma rule_match_shape text s y :
  In y (matcher text false (source ruleDeclarationRegex) true (mkState s [])) ->
  exists e1 e2 e3,
    capture 1 (captures y) = Some (s, e1) /\
    capture 2 (captures y) = Some (e1, e2) /\
    capture 3 (captures y) = Some (e2, e3) /\
    is_word_before text s = false /\
    substring text s e1 = text_of "rule" /\
    e1 < e2 /\ all_in text space_units e1 e2 /\
    e2 < e3 /\ e3 <= e2 + 128 /\
    all_in text name_start_units e2 (S e2) /\
    all_in text word_units (S e2) e3 /\
    e3 < endIndex y /\ endIndex y <= length text /\
    all_in text space_units e3 (endIndex y - 1) /\
    unit_at text "{" (endIndex y - 1).
Proof.
  rewrite ruleDeclaration_source. intros H.
  apply in_seq in H. destruct H as [x0 [Hb H]].
  apply in_word_boundary in Hb. destruct Hb as [Hb ->]. simpl in Hb.
  apply in_seq in H. destruct H as [y1 [H1 H]].
  apply in_seq in H. destruct H as [y2 [H2 H]].
  apply in_seq in H. destruct H as [y3 [H3 H]].
  apply in_seq in H. destruct H as [y4 [H4 H5]].
  (* the captures *)
  assert (K12 : capture 1 (captures y2) = capture 1 (captures y1))
    by (eapply other_group; [| |exact H2]; [reflexivity|discriminate]).
  assert (K13 : capture 1 (captures y3) = capture 1 (captures y2))
    by (eapply other_group; [| |exact H3]; [reflexivity|discriminate]).
  assert (K23 : capture 2 (captures y3) = capture 2 (captures y2))
    by (eapply other_group; [| |exact H3]; [reflexivity|discriminate]).
  assert (K4 : forall k, capture k (captures y4) = capture k (captures y3))
    by (intros k; eapply no_groups; [|exact H4]; reflexivity).
  (* the text *)
  apply in_group in H1. destruct H1 as [z1 [Hz1 [E1 C1]]].
  apply in_word in Hz1. cbn [endIndex] in Hz1, C1. destruct Hz1 as [L1 S1].
  change (length (text_of "rule")) with 4 in L1.
  apply in_group in H2. destruct H2 as [z2 [Hz2 [E2 C2]]].
  assert (F2 : endIndex y1 < endIndex z2).
  { destruct (nth_error text (endIndex y1)) as [u|] eqn:Eu.
    - assert (endIndex y1 < length text)
        by (apply nth_error_Some; congruence).
      apply matcher_forward in Hz2; [|lia]. simpl in Hz2. lia.
    - exfalso. rewrite quant_unfold in Hz2. simpl in Hz2. rewrite Eu in Hz2.
      destruct Hz2. }
  apply in_quant_class in Hz2. destruct Hz2 as [_ A2].
  apply in_group in H3. destruct H3 as [z3 [Hz3 [E3 C3]]].
  apply in_seq in Hz3. destruct Hz3 as [w [Hw Hz3]].
  apply in_chars in Hw. destruct Hw as [Hn ->].
  rewrite quant_unfold in Hz3.
  pose proof (repeat_class_at_most _ _ _ _ _ _ _ _ _ Hz3) as M3.
  rewrite <- quant_unfold in Hz3.
  apply in_quant_class in Hz3. simpl in Hz3, M3. destruct Hz3 as [G3 A3].
  apply in_quant_class in H4. destruct H4 as [G4 A4].
  apply in_lit in H5. destruct H5 as [Hbrace ->]. cbn [endIndex captures move].
  assert (endIndex y4 < length text)
    by (apply nth_error_Some; unfold unit_at in Hbrace; congruence).
  assert (Hat : is_word_at text s = true).
  { unfold is_word_at.
    pose proof (@substring_nth text s (endIndex z1) 0 ltac:(lia)) as Hn0.
    rewrite Nat.add_0_r, S1 in Hn0. rewrite <- Hn0. reflexivity. }
  rewrite Hat in Hb.
  exists (endIndex z1), (endIndex z2), (endIndex z3).
  rewrite !K4, K13, K12, C1, K23, C2, C3, E1, E2.
  rewrite E1 in A2, F2. rewrite E2 in Hn, G3, A3, M3. rewrite E3 in G4, A4.
  replace (S (endIndex y4) - 1) with (endIndex y4) by lia.
  repeat split; try assumption; try lia.
  - destruct (is_word_before text s); [discriminate|reflexivity].
  - apply all_in_step. exact Hn.
Qed.

Lemma push_rule_pair text i m re' :
  exec (mkRegExp (source ruleDeclarationRegex) false i) text = (Some m, re') ->
  exists k n,
    push_rule m = Val [k; n] /\ rule_pair text k n /\
    index m <= start k /\ end_ n <= lastIndex re'.
Proof.
  intros E. apply exec_some in E. cbn [source multilineFlag lastIndex] in E.
  destruct E as [y [Hy [Hidx [_ [_ [Hsub ->]]]]]].
  apply first_match_in in Hy. apply rule_match_shape in Hy.
  destruct Hy as [e1 [e2 [e3 [C1 [C2 [C3 [Hb [S1 [L12 [A2 [L23 [M3 [N3 [A3
                   [L3y [Ly [A4 Hbrace]]]]]]]]]]]]]]]]].
  assert (L1 : index m + 4 = e1).
  { pose proof (f_equal (@length CodeUnit) S1) as Hl.
    unfold substring in Hl. rewrite length_firstn, length_skipn in Hl.
    change (length (text_of "rule")) with 4 in Hl. lia. }
  unfold push_rule. rewrite !Hsub, C1, C2, C3. cbn [length_of bind].
  rewrite !substring_length by lia.
  replace (index m + (e1 - index m)) with e1 by lia.
  replace (e1 + (e2 - e1)) with e2 by lia.
  replace (e2 + (e3 - e2)) with e3 by lia.
  eexists. eexists. split; [reflexivity|].
  cbn [lastIndex]. split; [|cbn [start end_]; lia].
  unfold rule_pair. cbn [start end_ decoration priority].
  repeat split; try assumption; try lia.
  exists (endIndex y - 1). repeat split; try assumption; lia.
Qed.

(** What holds of the array before a loop and is kept by every round
    holds of it after the loop. *)
Lemma while_exec_inv text src ml body (Q : list Candidate -> Prop) :
  (forall i m re' acc,
      exec (mkRegExp src ml i) text = (Some m, re') -> Q acc ->
      exists cs, body m = Val cs /\ Q (acc ++ cs)) ->
  forall fuel i acc out,
    while_exec fuel (mkRegExp src ml i) text body acc = Val out ->
    Q acc -> Q out.
Proof.
  intros Hstep. induction fuel as [|fuel IH]; intros i acc out H HQ;
    simpl in H; [discriminate|].
  destruct (exec (mkRegExp src ml i) text) as [[m|] re'] eqn:E.
  - destruct (Hstep _ _ _ _ E HQ) as [cs [Hcs HQ']].
    pose proof E as E'. apply exec_some in E'. simpl in E'.
    destruct E' as [y [_ [_ [_ [_ [_ ->]]]]]].
    rewrite Hcs in H. simpl in H. apply IH in H; assumption.
  - inversion H; subst. exact HQ.
Qed.

Lemma rule_loop_total text :
  exists ms,
    run_alone (length text + 2) text (ruleDeclarationRegex, push_rule) = Val ms.
Proof.
  destruct (@while_exec_total text (source ruleDeclarationRegex) false
              push_rule (inside text) ltac:(vm_compute; lia)
              (fun i m re' => @push_rule_ok text i m re')
              (length text + 2) 0 [])
    as [ms [Hrun _]]; [lia|lia|constructor|].
  exists ms. exact Hrun.
Qed.

(** X5.  The rule declaration loop pushes its candidates in pairs, a
    keyword and a rule name: the keyword spells [rule] and has no word
    character before it; white space separates it from the name; the name
    starts with a letter or an underscore, goes on with word characters, is
    1 to 128 code units long, and is followed by optional white space and
    an opening brace. *)
Theorem rule_candidates (text : Text) :
  exists pairs,
    run_alone (length text + 2) text (ruleDeclarationRegex, push_rule)
    = Val (unpair pairs) /\
    Forall (fun p => rule_pair text (fst p) (snd p)) pairs.
Proof.
  destruct (rule_loop_total text) as [ms Hrun].
  assert (HQ : exists pairs,
             ms = unpair pairs /\
             Forall (fun p => rule_pair text (fst p) (snd p)) pairs).
  { apply (@while_exec_inv text (source ruleDeclarationRegex) false push_rule
             (fun l => exists pairs,
                  l = unpair pairs /\
                  Forall (fun p => rule_pair text (fst p) (snd p)) pairs))
      with (fuel := length text + 2) (i := 0) (acc := []);
      [|exact Hrun|exists []; split; [reflexivity|constructor]].
    intros i m re' acc E [pairs [-> Hall]].
    destruct (@push_rule_pair _ _ _ _ E) as [k [n [Hp [Hkn _]]]].
    exists [k; n]. split; [exact Hp|].
    exists (pairs ++ [(k, n)]). split.
    - unfold unpair. rewrite flat_map_app. reflexivity.
    - apply Forall_app. split; [exact Hall|]. constructor; [exact Hkn|constructor]. }
  destruct HQ as [pairs [-> Hall]].
  exists pairs. split; [exact Hrun|exact Hall].
Qed.

Lemma rule_pair_order text k n :
  rule_pair text k n -> start k < end_ k /\ end_ k < start n /\ start n < end_ n.
Proof.
  intros [_ [_ [_ [_ [Hs [_ [Hkn [_ [Hn _]]]]]]]]].
  split; [|split; assumption].
  pose proof (f_equal (@length CodeUnit) Hs) as Hl.
  unfold substring in Hl. rewrite length_firstn in Hl.
  change (length (text_of "rule")) with 4 in Hl. lia.
Qed.

Lemma push_rule_chain text i m re' :
  exec (mkRegExp (source ruleDeclarationRegex) false i) text = (Some m, re') ->
  exists cs,
    push_rule m = Val cs /\ StronglySorted precedes cs /\
    Forall (fun c => index m <= start c /\ start c < end_ c /\
                     end_ c <= lastIndex re') cs.
Proof.
  intros E. destruct (@push_rule_pair _ _ _ _ E) as [k [n [Hp [Hkn [Hi He]]]]].
  apply rule_pair_order in Hkn. destruct Hkn as [Hk [Hkn Hn]].
  exists [k; n]. split; [exact Hp|]. split.
  - constructor; [constructor; constructor|].
    constructor; [|constructor]. unfold precedes. lia.
  - constructor; [lia|]. constructor; [lia|constructor].
Qed.

Lemma push_match_alone_chain text re d p :
  lastIndex re = 0 -> 1 <= min_length (source re) ->
  exists ms,
    run_alone (length text + 2) text (re, push_match d p) = Val ms /\
    StronglySorted precedes ms.
Proof.
  intros H0 Hmin.
  destruct (@alone_matches text re d p H0 Hmin) as [ms [Hrun [_ [_ Hs]]]].
  exists ms. auto.
Qed.

(** X1.  Whatever the text, each of the twelve match loops, run on its own,
    ends, and its candidates come in text order, each one ending at or
    before the start of the next: one pattern never yields two candidates
    that overlap. *)
Theorem loop_candidates_in_order (text : Text) :
  Forall (fun p => exists ms,
              run_alone (length text + 2) text p = Val ms /\
              StronglySorted precedes ms)
         catalogue.
Proof.
  unfold catalogue.
  repeat (apply Forall_cons || apply Forall_nil);
    try (apply push_match_alone_chain; [reflexivity|vm_compute; lia]).
  destruct (rule_loop_total text) as [ms Hrun].
  exists ms. split; [exact Hrun|].
  apply (@while_exec_chain text (source ruleDeclarationRegex) false push_rule
           ltac:(vm_compute; lia)
           (fun i m re' => @push_rule_chain text i m re')
           (length text + 2) 0 [] ms Hrun); constructor.
Qed.

(** ** The number patterns *)

Lemma in_not_behind_class text ml cs x y :
  In y (matcher text ml (NotBehind (Chars cs)) true x) ->
  y = x /\ forall j, S j = endIndex x -> none_at text cs j.
Proof.
  simpl. destruct (endIndex x) as [|e].
  - intros [<-|[]]. split; [reflexivity|]. intros j Hj. discriminate.
  - unfold none_at.
    destruct (nth_error text e) as [c|] eqn:E.
    + destruct (set_has cs c) eqn:Ec; [intros []|].
      intros [<-|[]]. split; [reflexivity|]. intros j Hj.
      inversion Hj; subst j. rewrite E. exact Ec.
    + intros [<-|[]]. split; [reflexivity|]. intros j Hj.
      inversion Hj; subst j. rewrite E. exact I.
Qed.

Lemma in_not_ahead_class text ml cs x y :
  In y (matcher text ml (NotAhead (Chars cs)) true x) ->
  y = x /\ none_at text cs (endIndex x).
Proof.
  simpl. unfold none_at.
  destruct (nth_error text (endIndex x)) as [c|] eqn:E.
  - destruct (set_has cs c) eqn:Ec; [intros []|].
    intros [<-|[]]. auto.
  - intros [<-|[]]. auto.
Qed.

(** [r+] runs [r] once, then [r*]. *)
Lemma in_plus text ml greedy r x y :
  In y (matcher text ml (Quant 1 None greedy r) true x) ->
  exists z,
    In z (matcher text ml r true (clear_captures (group_ids r) x)) /\
    In y (repeat_matcher (matcher text ml r true) (group_ids r) greedy
                         (length text + 1) 0 z).
Proof.
  rewrite quant_unfold.
  change (iterations text 1 None) with (S (length text + 1)).
  cbn [repeat_matcher Nat.eqb negb andb pred].
  intros H. apply in_flat_map in H. exact H.
Qed.

Lemma repeat_class_at_least text ml cs inner greedy :
  forall max min x y,
    In y (repeat_matcher (matcher text ml (Chars cs) true) inner greedy
                         max min x) ->
    endIndex x + Nat.min min max <= endIndex y.
Proof.
  induction max as [|max IH]; intros min x y Hy.
  - simpl in Hy. destruct Hy as [<-|[]]. rewrite Nat.min_0_r. lia.
  - simpl in Hy.
    assert (Hagain :
      In y (flat_map (fun y0 =>
              if (min =? 0) && (endIndex y0 =? endIndex x) then []
              else repeat_matcher (matcher text ml (Chars cs) true) inner
                                  greedy max (pred min) y0)
            (matcher text ml (Chars cs) true (clear_captures inner x))) ->
      endIndex x + Nat.min min (S max) <= endIndex y).
    { intros Hin. apply in_flat_map in Hin. destruct Hin as [z [Hz Hin]].
      apply in_chars in Hz. destruct Hz as [_ ->].
      destruct (_ && _); [destruct Hin|].
      apply IH in Hin. simpl in Hin. destruct min; simpl in *; lia. }
    destruct (min =? 0) eqn:Emin; simpl in Hy.
    + apply Nat.eqb_eq in Emin. subst min. simpl.
      destruct greedy.
      * apply in_app_iff in Hy. destruct Hy as [Hy|[<-|[]]]; [|lia].
        apply Hagain in Hy. simpl in Hy. lia.
      * destruct Hy as [<-|Hy]; [lia|]. apply Hagain in Hy. simpl in Hy. lia.
    + apply (Hagain Hy).
Qed.

Lemma all_in_weaken text (cs cs' : CharSet) a b :
  (forall c, set_has cs c = true -> set_has cs' c = true) ->
  all_in text cs a b -> all_in text cs' a b.
Proof.
  intros Hsub H j Hj. destruct (H j Hj) as [c [Hc Hs]].
  exists c. split; [exact Hc|]. apply Hsub. exact Hs.
Qed.

Lemma hex_is_word c : set_has hex_units c = true -> isWordChar c = true.
Proof.
  unfold set_has, hex_units, rng, isWordChar. cbn [existsb atom_has xorb].
  unfold isDigit.
  change (cu "a") with 97%N. change (cu "f") with 102%N.
  change (cu "A") with 65%N. change (cu "F") with 70%N.
  rewrite !orb_true_iff, !andb_true_iff, !N.leb_le, N.eqb_eq. lia.
Qed.

Lemma word_at_class text cs i :
  (forall c, set_has cs c = true -> isWordChar c = true) ->
  all_in text cs i (S i) -> is_word_at text i = true.
Proof.
  intros Hw H. destruct (H i) as [c [Hc Hs]]; [lia|].
  unfold is_word_at. rewrite Hc. apply Hw. exact Hs.
Qed.

Lemma hexNumber_source :
  source hexNumberRegex
  = Seq WordBoundary
      (Seq (lit "0") (Seq (lit "x")
         (Seq (Quant 1 None true (Chars hex_units)) WordBoundary))).
Proof. reflexivity. Qed.

Lemma hexNumber_first_match text s y :
  first_match text false (source hexNumberRegex) s = Some y ->
  unit_at text "0" s /\ unit_at text "x" (S s) /\
  s + 3 <= endIndex y /\
  all_in text hex_units (s + 2) (endIndex y) /\
  is_word_before text s = false /\
  is_word_at text (endIndex y) = false.
Proof.
  intros H. apply first_match_in in H. rewrite hexNumber_source in H.
  apply in_seq in H. destruct H as [x0 [Hb H]].
  apply in_word_boundary in Hb. destruct Hb as [Hb ->]. cbn [endIndex] in Hb.
  apply in_seq in H. destruct H as [z1 [H1 H]].
  apply in_lit in H1. destruct H1 as [H0 ->]. cbn [endIndex] in H0.
  apply in_seq in H. destruct H as [z2 [H2 H]].
  apply in_lit in H2. destruct H2 as [Hx ->]. cbn [endIndex move] in Hx.
  apply in_seq in H. destruct H as [z3 [H3 H]].
  apply in_word_boundary in H. destruct H as [Hb' ->].
  pose proof H3 as H3'. apply in_quant_class in H3'.
  cbn [endIndex move] in H3'. destruct H3' as [Hle Hall].
  rewrite quant_unfold in H3.
  apply repeat_class_at_least in H3. cbn [endIndex move] in H3.
  change (iterations text 1 None) with (S (length text + 1)) in H3.
  replace (Nat.min 1 (S (length text + 1))) with 1 in H3 by lia.
  replace (s + 2) with (S (S s)) by lia.
  repeat split; try assumption; try lia.
  - assert (Hat : is_word_at text s = true).
    { unfold is_word_at. unfold unit_at in H0. rewrite H0. reflexivity. }
    rewrite Hat in Hb. destruct (is_word_before text s); [discriminate|reflexivity].
  - assert (Hbefore : is_word_before text (endIndex z3) = true).
    { destruct (endIndex z3) as [|e] eqn:Ee; [lia|]. simpl.
      apply (@word_at_class text hex_units e hex_is_word).
      intros j Hj. apply Hall. lia. }
    rewrite Hbefore in Hb'.
    destruct (is_word_at text (endIndex z3)); [discriminate|reflexivity].
Qed.

(** X8.  Every candidate of the hexadecimal number pattern is [0x]
    followed by one hexadecimal digit or more and nothing else, with no
    word character just before it or just after it. *)
Theorem hex_number_candidates (text : Text) :
  exists ms,
    run_alone (length text + 2) text
              (hexNumberRegex, push_match numberDecoration 5) = Val ms /\
    forall c, In c ms ->
      unit_at text "0" (start c) /\ unit_at text "x" (S (start c)) /\
      start c + 3 <= end_ c /\
      all_in text hex_units (start c + 2) (end_ c) /\
      is_word_before text (start c) = false /\
      is_word_at text (end_ c) = false.
Proof.
  destruct (@alone_matches text hexNumberRegex numberDecoration 5)
    as [ms [Hrun [Hall _]]]; [reflexivity|vm_compute; lia|].
  exists ms. split; [exact Hrun|].
  rewrite Forall_forall in Hall.
  intros c Hc. destruct (Hall c Hc) as [y [Hy ->]].
  apply hexNumber_first_match in Hy. exact Hy.
Qed.

Lemma hexPattern_source :
  source hexPatternRegex
  = Seq (NotBehind (Chars dot_word_units))
      (Seq (Quant 1 None true
              (Group 1 (Quant 2 (Some 2) true (Chars hex_byte_units))))
           (NotAhead (Chars dot_word_units))).
Proof. reflexivity. Qed.

(** One round of the hex byte group takes two code units of the class. *)
Lemma in_hex_byte text ml x y :
  In y (matcher text ml
          (Group 1 (Quant 2 (Some 2) true (Chars hex_byte_units))) true x) ->
  endIndex y = endIndex x + 2 /\
  all_in text hex_byte_units (endIndex x) (endIndex y).
Proof.
  intros H. apply in_group in H. destruct H as [z [Hz [-> _]]].
  pose proof Hz as Hz'. apply in_quant_class in Hz'. destruct Hz' as [_ Hall].
  rewrite quant_unfold in Hz. change (iterations text 2 (Some 2)) with 2 in Hz.
  pose proof (repeat_class_at_least _ _ _ _ _ _ _ _ _ Hz) as Hge.
  pose proof (repeat_class_at_most _ _ _ _ _ _ _ _ _ Hz) as Hle.
  simpl in Hge. split; [lia|exact Hall].
Qed.

Lemma hexPattern_first_match text s y :
  first_match text false (source hexPatternRegex) s = Some y ->
  (forall j, S j = s -> none_at text dot_word_units j) /\
  none_at text dot_word_units (endIndex y) /\
  all_in text hex_byte_units s (endIndex y) /\
  exists k, 1 <= k /\ endIndex y = s + 2 * k.
Proof.
  intros H. apply first_match_in in H. rewrite hexPattern_source in H.
  apply in_seq in H. destruct H as [x0 [Hb H]].
  apply in_not_behind_class in Hb. destruct Hb as [-> Hb]. cbn [endIndex] in Hb.
  apply in_seq in H. destruct H as [z [Hz H]].
  apply in_not_ahead_class in H. destruct H as [-> Ha].
  split; [exact Hb|]. split; [exact Ha|].
  apply in_plus in Hz. destruct Hz as [z1 [H1 Hz]].
  apply in_hex_byte in H1. rewrite clear_captures_endIndex in H1.
  cbn [endIndex] in H1. destruct H1 as [E1 A1].
  apply (@repeat_matcher_rel
           (fun a b => all_in text hex_byte_units a b /\
                       exists k, b = a + 2 * k)) in Hz.
  - destruct Hz as [A2 [k Hk]]. split.
    + eapply all_in_trans; eassumption.
    + exists (S k). split; lia.
  - intros a. split; [apply all_in_refl|]. exists 0. lia.
  - intros a b c [H1 [k1 Hk1]] [H2 [k2 Hk2]]. split.
    + eapply all_in_trans; eassumption.
    + exists (k1 + k2). lia.
  - intros x1 y1 Hy1. apply in_hex_byte in Hy1. destruct Hy1 as [E A].
    split; [exact A|]. exists 1. lia.
Qed.

(** X10.  Every candidate of the hex byte pattern is made of hexadecimal
    digits and question marks, has an even length of 2 or more, and has
    neither a word character nor a dot just before it or just after it. *)
Theorem hex_byte_candidates (text : Text) :
  exists ms,
    run_alone (length text + 2) text
              (hexPatternRegex, push_match numberDecoration 5) = Val ms /\
    forall c, In c ms ->
      (forall j, S j = start c -> none_at text dot_word_units j) /\
      none_at text dot_word_units (end_ c) /\
      all_in text hex_byte_units (start c) (end_ c) /\
      exists k, 1 <= k /\ end_ c = start c + 2 * k.
Proof.
  destruct (@alone_matches text hexPatternRegex numberDecoration 5)
    as [ms [Hrun [Hall _]]]; [reflexivity|vm_compute; lia|].
  exists ms. split; [exact Hrun|].
  rewrite Forall_forall in Hall.
  intros c Hc. destruct (Hall c Hc) as [y [Hy ->]].
  apply hexPattern_first_match in Hy. exact Hy.
Qed.

Lemma decimal_source :
  source decimalRegex
  = Seq WordBoundary
      (Seq (Alt (Seq (lit ".") (Quant 1 None true (Chars digit_units)))
                (Seq (Quant 1 None true (Chars digit_units))
                     (Seq (Quant 0 (Some 1) true (Chars (Class false [chr "."])))
                          (Quant 0 None true (Chars digit_units)))))
           WordBoundary).
Proof. reflexivity. Qed.

Lemma digit_is_decimal c :
  set_has digit_units c = true -> set_has decimal_units c = true.
Proof.
  unfold set_has, digit_units, decimal_units. cbn [existsb atom_has xorb].
  destruct (isDigit c); [reflexivity|discriminate].
Qed.

Lemma dot_is_decimal c :
  set_has (Class false [chr "."]) c = true -> set_has decimal_units c = true.
Proof.
  unfold set_has, decimal_units. cbn [existsb atom_has xorb].
  intros H. rewrite H. apply orb_true_r.
Qed.

Lemma in_plus_class text ml cs x y :
  In y (matcher text ml (Quant 1 None true (Chars cs)) true x) ->
  endIndex x < endIndex y /\ all_in text cs (endIndex x) (endIndex y).
Proof.
  intros H. pose proof H as H'. apply in_quant_class in H'.
  destruct H' as [_ Hall]. split; [|exact Hall].
  rewrite quant_unfold in H. apply repeat_class_at_least in H.
  change (iterations text 1 None) with (S (length text + 1)) in H.
  replace (Nat.min 1 (S (length text + 1))) with 1 in H by lia. lia.
Qed.

Lemma decimal_first_match text s y :
  first_match text false (source decimalRegex) s = Some y ->
  word_boundary text s = true /\
  word_boundary text (endIndex y) = true /\
  s < endIndex y /\
  all_in text decimal_units s (endIndex y) /\
  exists j, s <= j < endIndex y /\ all_in text digit_units j (S j).
Proof.
  intros H. apply first_match_in in H. rewrite decimal_source in H.
  apply in_seq in H. destruct H as [x0 [Hb H]].
  apply in_word_boundary in Hb. destruct Hb as [Hb ->]. cbn [endIndex] in Hb.
  apply in_seq in H. destruct H as [z [Hz H]].
  apply in_word_boundary in H. destruct H as [Hb' ->].
  split; [exact Hb|]. split; [exact Hb'|].
  apply in_alt in Hz. destruct Hz as [Hz|Hz].
  - apply in_seq in Hz. destruct Hz as [z1 [H1 Hz]].
    apply in_lit in H1. destruct H1 as [Hdot ->].
    apply in_plus_class in Hz. cbn [endIndex move] in Hz, Hdot.
    destruct Hz as [Hlt Hall]. split; [lia|]. split.
    + apply all_in_trans with (b := S s).
      * apply all_in_step. exists (cu "."). split; [exact Hdot|reflexivity].
      * apply (@all_in_weaken _ _ _ _ _ digit_is_decimal Hall).
    + exists (S s). split; [lia|]. intros j Hj. apply Hall. lia.
  - apply in_seq in Hz. destruct Hz as [z1 [H1 Hz]].
    apply in_plus_class in H1. cbn [endIndex] in H1. destruct H1 as [Hlt A1].
    apply in_seq in Hz. destruct Hz as [z2 [H2 Hz]].
    apply in_quant_class in H2. destruct H2 as [L2 A2].
    apply in_quant_class in Hz. destruct Hz as [L3 A3].
    split; [lia|]. split.
    + apply all_in_trans with (b := endIndex z1);
        [apply (@all_in_weaken _ _ _ _ _ digit_is_decimal A1)|].
      apply all_in_trans with (b := endIndex z2);
        [apply (@all_in_weaken _ _ _ _ _ dot_is_decimal A2)|].
      apply (@all_in_weaken _ _ _ _ _ digit_is_decimal A3).
    + exists s. split; [lia|]. intros j Hj. apply A1. lia.
Qed.

(** X9.  Every candidate of the decimal number pattern is made of digits
    and dots only, holds at least one digit, and begins and ends at a word
    boundary. *)
Theorem decimal_candidates (text : Text) :
  exists ms,
    run_alone (length text + 2) text
              (decimalRegex, push_match numberDecoration 5) = Val ms /\
    forall c, In c ms ->
      word_boundary text (start c) = true /\
      word_boundary text (end_ c) = true /\
      start c < end_ c /\
      all_in text decimal_units (start c) (end_ c) /\
      exists j, start c <= j < end_ c /\ all_in text digit_units j (S j).
Proof.
  destruct (@alone_matches text decimalRegex numberDecoration 5)
    as [ms [Hrun [Hall _]]]; [reflexivity|vm_compute; lia|].
  exists ms. split; [exact Hrun|].
  rewrite Forall_forall in Hall.
  intros c Hc. destruct (Hall c Hc) as [y [Hy ->]].
  apply decimal_first_match in Hy. exact Hy.
Qed.

(** ** Whole words, the other way round *)

Lemma seq_intro text ml r1 r2 x z y :
  In z (matcher text ml r1 true x) -> In y (matcher text ml r2 true z) ->
  In y (matcher text ml (Seq r1 r2) true x).
Proof.
  intros Hz Hy. rewrite matcher_seq. apply in_flat_map. exists z. auto.
Qed.

Lemma lit_intro text ml a x :
  unit_at text a (endIndex x) ->
  In (move x (S (endIndex x))) (matcher text ml (lit a) true x).
Proof.
  unfold unit_at. intros H. simpl. rewrite H. rewrite N.eqb_refl. simpl.
  left. reflexivity.
Qed.

Lemma word_intro text ml : forall k x,
  (forall j, j < length (text_of k) ->
             nth_error text (endIndex x + j) = nth_error (text_of k) j) ->
  exists y, In y (matcher text ml (word k) true x) /\
            endIndex y = endIndex x + length (text_of k).
Proof.
  induction k as [|a k IH]; intros x H.
  - exists x. simpl. split; [auto|lia].
  - assert (Ha : unit_at text a (endIndex x)).
    { specialize (H 0). simpl in H. rewrite Nat.add_0_r in H.
      apply H. lia. }
    destruct k as [|b k].
    + exists (move x (S (endIndex x))). split; [apply lit_intro; exact Ha|].
      simpl. lia.
    + destruct (IH (move x (S (endIndex x)))) as [y [Hy Ey]].
      { intros j Hj. cbn [endIndex move].
        replace (S (endIndex x) + j) with (endIndex x + S j) by lia.
        rewrite H by (simpl in *; lia). reflexivity. }
      exists y. split.
      * change (word (String a (String b k)))
          with (Seq (lit a) (word (String b k))).
        eapply seq_intro; [apply lit_intro; exact Ha|exact Hy].
      * rewrite Ey. simpl. lia.
Qed.

Lemma any_of_intro text ml : forall rs r x y,
  In r rs -> In y (matcher text ml r true x) ->
  In y (matcher text ml (any_of rs) true x).
Proof.
  induction rs as [|r0 rs IH]; intros r x y Hr Hy; [destruct Hr|].
  destruct rs as [|r1 rs].
  - destruct Hr as [<-|[]]. exact Hy.
  - change (any_of (r0 :: r1 :: rs)) with (Alt r0 (any_of (r1 :: rs))).
    simpl matcher. apply in_app_iff.
    destruct Hr as [<-|Hr]; [left; exact Hy|right].
    apply (IH r); assumption.
Qed.

Lemma word_boundary_intro text ml x :
  word_boundary text (endIndex x) = true ->
  In x (matcher text ml WordBoundary true x).
Proof.
  unfold word_boundary. intros H. simpl. rewrite H. left. reflexivity.
Qed.

Lemma substring_units text s k j :
  substring text s (s + length (text_of k)) = text_of k ->
  j < length (text_of k) ->
  nth_error text (s + j) = nth_error (text_of k) j.
Proof.
  intros H Hj.
  transitivity (nth_error (substring text s (s + length (text_of k))) j);
    [symmetry; apply substring_nth; lia|rewrite H; reflexivity].
Qed.

(** Inside a whole word every code unit is a word character. *)
Lemma whole_word_units text k s j :
  word_like k = true ->
  substring text s (s + length (text_of k)) = text_of k ->
  s <= j < s + length (text_of k) ->
  is_word_at text j = true.
Proof.
  intros Hk Hs Hj. unfold is_word_at.
  replace j with (s + (j - s)) by lia.
  rewrite (substring_units _ _ _ Hs) by lia.
  destruct (nth_error (text_of k) (j - s)) as [c|] eqn:E.
  - apply (word_like_units _ _ Hk E).
  - apply nth_error_None in E. lia.
Qed.

Lemma whole_word_matches text ml ws k s :
  In k ws -> word_like k = true -> whole_word_at text k s ->
  first_match text ml (whole_word ws) s <> None.
Proof.
  intros Hk Hw [Hs [Hb Ha]].
  pose proof (word_like_length _ Hw) as Hlen.
  destruct (@word_intro text ml k (mkState s [])) as [z [Hz Ez]].
  { intros j Hj. apply substring_units; assumption. }
  cbn [endIndex] in Ez.
  assert (Hin : In (set_capture 1 (s, endIndex z) z)
                   (matcher text ml (whole_word ws) true (mkState s []))).
  { unfold whole_word.
    apply seq_intro with (z := mkState s []).
    - apply word_boundary_intro. unfold word_boundary. cbn [endIndex].
      rewrite Hb.
      rewrite (@whole_word_units text k s s Hw Hs) by lia. reflexivity.
    - apply seq_intro with (z := set_capture 1 (s, endIndex z) z).
      + change (matcher text ml (Group 1 (any_of (map word ws))) true
                        (mkState s []))
          with (map (fun y => set_capture 1 (s, endIndex y) y)
                    (matcher text ml (any_of (map word ws)) true
                             (mkState s []))).
        apply (in_map (fun y => set_capture 1 (s, endIndex y) y) _ z).
        apply (@any_of_intro text ml (map word ws) (word k));
          [apply in_map; exact Hk|exact Hz].
      + apply word_boundary_intro. unfold word_boundary. cbn [endIndex set_capture].
        rewrite Ez, Ha.
        replace (s + length (text_of k))
          with (S (s + (length (text_of k) - 1))) by lia.
        cbn [is_word_before].
        rewrite (@whole_word_units text k s _ Hw Hs) by lia. reflexivity. }
  unfold first_match.
  destruct (matcher text ml (whole_word ws) true (mkState s []));
    [destruct Hin|discriminate].
Qed.

(** The candidates of a [\b(w1|...)\b] pattern are the whole words of the
    text, all of them. *)
Lemma whole_word_candidates text re d p ws :
  source re = whole_word ws -> lastIndex re = 0 ->
  1 <= min_length (source re) ->
  ws <> [] -> forallb word_like ws = true ->
  exists ms,
    run_alone (length text + 2) text (re, push_match d p) = Val ms /\
    (forall c, In c ms ->
       exists k, In k ws /\ whole_word_at text k (start c) /\
                 end_ c = start c + length (text_of k)) /\
    (forall k s, In k ws -> whole_word_at text k s ->
       exists c, In c ms /\ start c = s /\
                 end_ c = s + length (text_of k)).
Proof.
  intros Hsrc H0 Hmin Hne Hws.
  destruct (@alone_matches text re d p H0 Hmin)
    as [ms [Hrun [Hall [Hcov _]]]].
  exists ms. split; [exact Hrun|].
  rewrite Forall_forall in Hall. rewrite Hsrc in Hall, Hcov.
  assert (Hsound : forall c, In c ms ->
            exists k, In k ws /\ whole_word_at text k (start c) /\
                      end_ c = start c + length (text_of k)).
  { intros c Hc. destruct (Hall c Hc) as [y [Hy ->]].
    apply first_match_in in Hy.
    apply in_whole_word in Hy; try assumption.
    destruct Hy as [k [Hk [Hs [He [Hb Ha]]]]].
    exists k. split; [exact Hk|]. unfold whole_word_at.
    rewrite <- He. auto. }
  split; [exact Hsound|].
  intros k s Hk Hat.
  pose proof (forallb_forall word_like ws) as Hf.
  pose proof (proj1 Hf Hws k Hk) as Hwk.
  pose proof (word_like_length _ Hwk) as Hlen.
  destruct Hat as [Hs [Hb Ha]].
  assert (Hin : s + length (text_of k) <= length text).
  { pose proof (f_equal (@length CodeUnit) Hs) as Hl.
    unfold substring in Hl. rewrite length_firstn, length_skipn in Hl. lia. }
  destruct (Hcov s) as [c [Hc Hr]]; [lia| |].
  { apply (@whole_word_matches text _ ws k s Hk Hwk).
    unfold whole_word_at. auto. }
  exists c. split; [exact Hc|].
  destruct (Hsound c Hc) as [k' [Hk' [[Hs' [Hb' Ha']] He']]].
  pose proof (proj1 Hf Hws k' Hk') as Hwk'.
  assert (Hstart : start c = s).
  { destruct (Nat.eq_dec (start c) s) as [E|Hn]; [exact E|exfalso].
    destruct s as [|s0]; [lia|]. cbn [is_word_before] in Hb.
    rewrite (@whole_word_units text k' (start c) s0 Hwk' Hs') in Hb by lia.
    discriminate. }
  split; [exact Hstart|]. rewrite Hstart in *.
  destruct (Nat.lt_trichotomy (end_ c) (s + length (text_of k)))
    as [Hlt|[Heq|Hgt]]; [exfalso| exact Heq |exfalso].
  - rewrite <- He' in Ha'.
    rewrite (@whole_word_units text k s (end_ c) Hwk Hs) in Ha' by lia.
    discriminate.
  - rewrite (@whole_word_units text k' s (s + length (text_of k)) Hwk' Hs')
      in Ha by lia.
    discriminate.
Qed.

(** X13.  The candidates of the keyword pattern are exactly the
    occurrences of the 46 keywords as whole words (no word character just
    before or just after): each candidate is one, and each one is a
    candidate. *)
Theorem keyword_candidates (text : Text) :
  exists ms,
    run_alone (length text + 2) text
              (keywordRegex, push_match keywordDecoration 8) = Val ms /\
    (forall c, In c ms ->
       exists k, In k keywords /\ whole_word_at text k (start c) /\
                 end_ c = start c + length (text_of k)) /\
    (forall k s, In k keywords -> whole_word_at text k s ->
       exists c, In c ms /\ start c = s /\
                 end_ c = s + length (text_of k)).
Proof.
  apply whole_word_candidates;
    [reflexivity|reflexivity|vm_compute; lia|discriminate|reflexivity].
Qed.

(** X11.  The candidates of the atom pattern are exactly the occurrences
    of [true] and [false] as whole words (no word character just before or
    just after): each candidate is one, and each one is a candidate. *)
Theorem atom_candidates (text : Text) :
  exists ms,
    run_alone (length text + 2) text
              (atomRegex, push_match atomDecoration 6) = Val ms /\
    (forall c, In c ms ->
       exists k, In k ["true"; "false"]%string /\
                 whole_word_at text k (start c) /\
                 end_ c = start c + length (text_of k)) /\
    (forall k s, In k ["true"; "false"]%string -> whole_word_at text k s ->
       exists c, In c ms /\ start c = s /\
                 end_ c = s + length (text_of k)).
Proof.
  apply whole_word_candidates;
    [reflexivity|reflexivity|vm_compute; lia|discriminate|reflexivity].
Qed.

End Patterns.

(** * The resolver on the pool *)

Module Resolver.

Import MatcherFacts ExecFacts LoopFacts PoolFacts SortFacts FilterFacts ScanFacts Claims.
Import Patterns.

(** A candidate that is not kept overlaps a kept one that comes no later
    in (start, priority) order. *)
Lemma kept_or_beaten l :
  StronglySorted key_le l ->
  forall c, In c l ->
    In c (kept l) \/
    exists a, In a (kept l) /\ start c < end_ a /\ start a < end_ c /\
              key_le a c.
Proof.
  induction l as [|x l IH] using rev_ind; intros Hs c Hc; [destruct Hc|].
  apply sorted_snoc_inv in Hs. destruct Hs as [Hs Hx].
  rewrite kept_snoc. apply in_app_iff in Hc. destruct Hc as [Hc|[<-|[]]].
  - destruct (IH Hs c Hc) as [Hk|[a [Ha Ho]]].
    + left. apply in_app_iff. left. exact Hk.
    + right. exists a. split; [apply in_app_iff; left; exact Ha|exact Ho].
  - destruct (existsb _ _) eqn:E.
    + right. apply overlapping_kept in E. destruct E as [a [Ha [Ho1 Ho2]]].
      exists a. split; [apply in_app_iff; left; exact Ha|].
      split; [exact Ho1|]. split; [exact Ho2|].
      rewrite Forall_forall in Hx. apply Hx. apply kept_incl. exact Ha.
    + left. apply in_app_iff. right. left. reflexivity.
Qed.

(** X14.  A candidate of the pool that is not among the candidates kept
    from the sorted pool overlaps a kept candidate that starts before it,
    or starts where it starts with a priority number that is not
    greater. *)
Theorem dropped_for_an_earlier_one (text : Text) :
  exists pool,
    collect (length text + 2) text = Val pool /\
    highlightYara text = Val (map span_of (kept (sort compareFn pool))) /\
    forall c, In c pool ->
      In c (kept (sort compareFn pool)) \/
      exists a, In a (kept (sort compareFn pool)) /\
                start c < end_ a /\ start a < end_ c /\
                (start a < start c \/
                 (start a = start c /\ priority a <= priority c)).
Proof.
  destruct (highlightYara_spec text) as [pool [Hc [_ Hh]]].
  exists pool.
  split; [exact Hc|]. split; [exact Hh|].
  intros c Hin. apply kept_or_beaten; [apply sort_sorted|].
  apply (Permutation_in _ (Permutation_sym (sort_perm compareFn pool))).
  exact Hin.
Qed.

(** The decoration and the priority a [push_match] loop gives. *)
Lemma push_match_labels text re d p fuel ms :
  run_alone fuel text (re, push_match d p) = Val ms ->
  Forall (fun c => decoration c = d /\ priority c = p) ms.
Proof.
  destruct re as [src ml li]. unfold run_alone. simpl. intros H.
  apply (@while_exec_inv text src ml (push_match d p)
           (Forall (fun c => decoration c = d /\ priority c = p)))
    with (fuel := fuel) (i := li) (acc := []); [|exact H|constructor].
  intros i m re' acc _ Hacc. eexists. split; [reflexivity|].
  apply Forall_app. split; [exact Hacc|].
  constructor; [simpl; auto|constructor].
Qed.

Lemma push_rule_labels text fuel ms :
  run_alone fuel text (ruleDeclarationRegex, push_rule) = Val ms ->
  Forall (fun c => priority c = 3) ms.
Proof.
  unfold run_alone. simpl. intros H.
  apply (@while_exec_inv text (source ruleDeclarationRegex) false push_rule
           (Forall (fun c => priority c = 3)))
    with (fuel := fuel) (i := 0) (acc := []); [|exact H|constructor].
  intros i m re' acc E Hacc.
  destruct (@push_rule_pair _ _ _ _ E) as [k [n [Hp [Hkn _]]]].
  exists [k; n]. split; [exact Hp|].
  destruct Hkn as [_ [Hk [_ [Hn _]]]].
  apply Forall_app. split; [exact Hacc|].
  constructor; [exact Hk|]. constructor; [exact Hn|constructor].
Qed.

(** The pool begins with the block comments and the line comments; what
    follows has a priority number of 2 or more. *)
Lemma pool_comments_first text pool :
  collect (length text + 2) text = Val pool ->
  exists blocks lines rest,
    run_alone (length text + 2) text
              (multiCommentRegex, push_match commentDecoration 1)
    = Val blocks /\
    run_alone (length text + 2) text
              (singleCommentRegex, push_match commentDecoration 1)
    = Val lines /\
    pool = blocks ++ lines ++ rest /\
    Forall (fun c => 2 <= priority c) rest.
Proof.
  intros Hc. destruct (pool_alone _ _ Hc) as [found [Hf ->]].
  unfold catalogue in Hf.
  repeat match goal with
         | H : Forall2 _ (_ :: _) _ |- _ => inversion H; subst; clear H
         | H : Forall2 _ [] _ |- _ => inversion H; subst; clear H
         end.
  repeat match goal with
         | H : run_alone _ _ (ruleDeclarationRegex, _) = Val _ |- _ =>
             apply push_rule_labels in H
         end.
  match goal with
  | H : run_alone _ _ (multiCommentRegex, _) = Val ?b |- _ => exists b
  end.
  match goal with
  | H : run_alone _ _ (singleCommentRegex, _) = Val ?l |- _ => exists l
  end.
  eexists. split; [eassumption|]. split; [eassumption|].
  cbn [concat]. split; [reflexivity|].
  repeat match goal with
         | H : run_alone _ _ (_, push_match _ _) = Val _ |- _ =>
             apply push_match_labels in H
         end.
  rewrite app_nil_r.
  repeat (apply Forall_app; split);
    match goal with
    | H : Forall _ ?l |- Forall _ ?l =>
        eapply Forall_impl; [|exact H]; cbv beta; intros; lia
    end.
Qed.

Lemma run_alone_matches text re d p ms :
  lastIndex re = 0 -> 1 <= min_length (source re) ->
  run_alone (length text + 2) text (re, push_match d p) = Val ms ->
  Forall (fun c => match_of text (multilineFlag re) (source re) c /\
                   decoration c = d /\ priority c = p) ms.
Proof.
  intros H0 Hmin Hrun.
  destruct (@alone_matches text re d p H0 Hmin) as [ms' [Hrun' [Hm _]]].
  rewrite Hrun in Hrun'. inversion Hrun'; subst ms'.
  pose proof (push_match_labels _ _ _ _ _ Hrun) as Hl.
  rewrite Forall_forall in *. intros c Hc. split; [apply Hm|apply Hl]; exact Hc.
Qed.

(** Two candidates of one pattern that start together are the same. *)
Lemma same_start_same_match text ml src d p a c :
  match_of text ml src a /\ decoration a = d /\ priority a = p ->
  match_of text ml src c /\ decoration c = d /\ priority c = p ->
  start a = start c -> a = c.
Proof.
  intros [[ya [Hya Ea]] [Da Pa]] [[yc [Hyc Ec]] [Dc Pc]] Hs.
  rewrite Hs, Hyc in Hya. inversion Hya; subst ya.
  destruct a, c. simpl in *. congruence.
Qed.

Lemma pair_clash text s :
  has_pair text "/" "*" s = true -> has_pair text "/" "/" s = true -> False.
Proof.
  unfold has_pair.
  destruct (nth_error text s) as [c|]; [|discriminate].
  destruct (nth_error text (S s)) as [d|]; [|discriminate].
  rewrite !andb_true_iff, !N.eqb_eq. intros [_ H1] [_ H2].
  rewrite H1 in H2. vm_compute in H2. discriminate.
Qed.

(** X15.  A block comment or line comment candidate is kept, unless it
    starts strictly inside a kept candidate that starts before it. *)
Theorem comment_kept_unless_inside (text : Text) :
  exists blocks lines keptc,
    run_alone (length text + 2) text
              (multiCommentRegex, push_match commentDecoration 1)
    = Val blocks /\
    run_alone (length text + 2) text
              (singleCommentRegex, push_match commentDecoration 1)
    = Val lines /\
    highlightYara text = Val (map span_of keptc) /\
    forall c, In c (blocks ++ lines) ->
      In c keptc \/
      exists a, In a keptc /\ start a < start c /\ start c < end_ a.
Proof.
  destruct (highlightYara_spec text) as [pool [Hc [_ Hh]]].
  destruct (pool_comments_first _ Hc)
    as [blocks [lines [rest [Hb [Hl [Hpool Hrest]]]]]].
  exists blocks, lines, (kept (sort compareFn pool)).
  split; [exact Hb|]. split; [exact Hl|]. split; [exact Hh|].
  pose proof (@run_alone_matches text multiCommentRegex commentDecoration 1
                blocks eq_refl ltac:(vm_compute; lia) Hb) as Mb.
  pose proof (@run_alone_matches text singleCommentRegex commentDecoration 1
                lines eq_refl ltac:(vm_compute; lia) Hl) as Ml.
  rewrite Forall_forall in Mb, Ml, Hrest.
  intros c Hcom.
  assert (Hcp : In c pool).
  { rewrite Hpool, app_assoc. apply in_app_iff. left. exact Hcom. }
  assert (Pc : priority c = 1).
  { apply in_app_iff in Hcom.
    destruct Hcom as [H|H]; [apply Mb in H|apply Ml in H]; tauto. }
  destruct (@kept_or_beaten (sort compareFn pool) (sort_sorted pool) c)
    as [Hk|[a [Ha [Ho1 [Ho2 Hle]]]]].
  { apply (Permutation_in _ (Permutation_sym (sort_perm compareFn pool))).
    exact Hcp. }
  { left. exact Hk. }
  destruct Hle as [Hlt|[Heq Hp]].
  { right. exists a. auto. }
  left.
  assert (Hap : In a pool).
  { apply (Permutation_in _ (sort_perm compareFn pool)).
    apply kept_incl. exact Ha. }
  assert (Hacom : In a (blocks ++ lines)).
  { rewrite Hpool, app_assoc in Hap. apply in_app_iff in Hap.
    destruct Hap as [H|H]; [exact H|]. apply Hrest in H. lia. }
  assert (a = c) as <-; [|exact Ha].
  apply in_app_iff in Hacom. apply in_app_iff in Hcom.
  destruct Hacom as [Hab|Hal], Hcom as [Hcb|Hcl].
  - apply (same_start_same_match (Mb a Hab) (Mb c Hcb) Heq).
  - exfalso. destruct (Mb a Hab) as [[ya [Hya _]] _].
    destruct (Ml c Hcl) as [[yc [Hyc _]] _].
    apply block_comment_match in Hya. destruct Hya as [Hopen _].
    change (multilineFlag singleCommentRegex) with true in Hyc.
    rewrite singleComment_first_match in Hyc.
    destruct (has_pair text "/" "/" (start c)) eqn:E; [|discriminate].
    rewrite Heq in Hopen. apply (pair_clash _ _ Hopen E).
  - exfalso. destruct (Mb c Hcb) as [[yc [Hyc _]] _].
    destruct (Ml a Hal) as [[ya [Hya _]] _].
    apply block_comment_match in Hyc. destruct Hyc as [Hopen _].
    change (multilineFlag singleCommentRegex) with true in Hya.
    rewrite singleComment_first_match in Hya.
    destruct (has_pair text "/" "/" (start a)) eqn:E; [|discriminate].
    rewrite <- Heq in Hopen. apply (pair_clash _ _ Hopen E).
  - apply (same_start_same_match (Ml a Hal) (Ml c Hcl) Heq).
Qed.

(** A chain of non-empty ranges of the text is no longer than the text. *)
Lemma chain_length text : forall l lo,
  StronglySorted precedes l ->
  Forall (inside text) l ->
  (forall c, In c l -> lo <= start c) ->
  length l <= length text - lo.
Proof.
  induction l as [|c l IH]; intros lo Hs Hin Hlo; simpl; [lia|].
  inversion Hs as [|? ? Hs' Hc]; subst.
  inversion Hin as [|? ? [Hne Hle] Hin']; subst.
  specialize (IH (end_ c) Hs' Hin').
  assert (length l <= length text - end_ c).
  { apply IH. intros d Hd. rewrite Forall_forall in Hc.
    destruct (Hc d Hd) as [_ H]. exact H. }
  specialize (Hlo c (or_introl eq_refl)). lia.
Qed.

(** X16.  The scan never returns more spans than the text has code
    units. *)
Theorem span_count_bounded (text : Text) :
  exists spans,
    highlightYara text = Val spans /\ length spans <= length text.
Proof.
  destruct (highlightYara_spec text) as [pool [Hc [Hin Hh]]].
  eexists. split; [exact Hh|].
  rewrite length_map.
  pose proof (@chain_length text (kept (sort compareFn pool)) 0) as Hb.
  rewrite Nat.sub_0_r in Hb. apply Hb.
  - apply kept_chain; [apply sort_sorted|].
    apply sorted_nonempty. apply (inside_nonempty Hin).
  - apply kept_inside. exact Hin.
  - intros c _. lia.
Qed.

End Resolver.

(** * The view plugin *)

Module Plugin.

Lemma same_text_eq : forall a b, same_text a b = true -> a = b.
Proof.
  induction a as [|x a IH]; intros [|y b] H; simpl in H;
    try discriminate; [reflexivity|].
  apply andb_true_iff in H. destruct H as [Hx Hab].
  apply N.eqb_eq in Hx. apply IH in Hab. congruence.
Qed.

Lemma last_cons (A : Type) (l : list A) : forall a d, last (a :: l) d = last l a.
Proof.
  induction l as [|b l IH]; intros a d; [reflexivity|].
  change (last (a :: b :: l) d) with (last (b :: l) d).
  rewrite IH. symmetry. apply IH.
Qed.

Lemma update_honest doc u :
  docChanged u || same_text (view u) doc = true ->
  update (constructor doc) u = constructor (view u).
Proof.
  intros H. unfold update.
  destruct (docChanged u) eqn:Ed; simpl in *; [reflexivity|].
  apply same_text_eq in H. rewrite H.
  destruct (viewportChanged u); reflexivity.
Qed.

(** X17.  If every update whose document differs from the one before it
    says [docChanged], then after any sequence of updates the plugin holds
    the decorations of the document of the last update (of the document it
    was built on, when there was no update). *)
Theorem plugin_shows_last_document (doc : Text) (updates : list ViewUpdate) :
  honest doc updates = true ->
  decorations (fold_left update updates (constructor doc))
  = highlightYara (last (map view updates) doc).
Proof.
  revert doc. induction updates as [|u rest IH]; intros doc H.
  - reflexivity.
  - simpl in H. apply andb_true_iff in H. destruct H as [Hu Hrest].
    cbn [fold_left map]. rewrite (update_honest _ _ Hu), last_cons.
    apply IH. exact Hrest.
Qed.

(** A plugin built on [$a], told of a viewport change, then of a new
    document. *)
Lemma plugin_shows_last_document_witness :
  decorations
    (fold_left update
       [mkUpdate false true (text_of "$a"); mkUpdate true false (text_of "$a or $b")]
       (constructor (text_of "$a")))
  = highlightYara (text_of "$a or $b").
Proof.
  apply (@plugin_shows_last_document (text_of "$a")
           [mkUpdate false true (text_of "$a");
            mkUpdate true false (text_of "$a or $b")]).
  reflexivity.
Defined.

End Plugin.
